(** * entropyvision: the RF propagation engine

    A shallow embedding of the numeric core of the city RF viewer
    (path-loss model, ray marching, point probe, interference field and
    drive-test overlay) together with the properties its specification
    states about it.

    Numbers.  A JavaScript [number] that carries a physical quantity
    (position, power, frequency, distance) is an exact real [R]: rounding
    is not part of this model.  The IEEE values the code itself introduces
    ([-Infinity] for the best power of an empty probe, [Infinity] for the
    margin of the explanation route, [NaN] for their difference) live in
    the type [num].  [log10] is [Math.log10] on the positive numbers,
    [ln x / ln 10]; [Math_log10] adds the values [-Infinity] at zero and
    [NaN] below.  A frequency reaches the path loss unchecked, so the
    received powers are the reals of this model for transmitters on a
    positive frequency ([positiveFreq]); statements about their values
    carry that as a hypothesis.

    Single precision.  The interference shader compresses its intensity
    with [1.0 - exp (-I)] in [highp float]; the rounding of that last line
    is modelled by [float32].

    Geometry.  The three.js raycaster is the external geometry index: it
    is a parameter [intersectObjects origin dir far meshes] returning the
    hits within [far], nearest first. *)

From Stdlib Require Import Reals Lra Lia List ZArith String Bool.
From Stdlib Require Import Sorting.Permutation Sorting.Sorted.
Import ListNotations.

Open Scope R_scope.

(** ** JavaScript numbers with the IEEE special values *)

Inductive num : Type :=
| Fin (r : R)
| PosInf
| NegInf
| NaN.

Definition Rgtb (a b : R) : bool := if Rlt_dec b a then true else false.
Definition Rgeb (a b : R) : bool := if Rle_dec b a then true else false.
Definition Rleb (a b : R) : bool := if Rle_dec a b then true else false.

(** [a - b] *)
Definition num_sub (a b : num) : num :=
  match a, b with
  | NaN, _ | _, NaN => NaN
  | Fin x, Fin y => Fin (x - y)
  | Fin _, PosInf => NegInf
  | Fin _, NegInf => PosInf
  | PosInf, PosInf => NaN
  | PosInf, _ => PosInf
  | NegInf, NegInf => NaN
  | NegInf, _ => NegInf
  end.

(** [a + b] *)
Definition num_add (a b : num) : num :=
  match a, b with
  | NaN, _ | _, NaN => NaN
  | Fin x, Fin y => Fin (x + y)
  | PosInf, NegInf | NegInf, PosInf => NaN
  | PosInf, _ | _, PosInf => PosInf
  | NegInf, _ | _, NegInf => NegInf
  end.

(** The sign of an infinite product with the finite factor [x]; zero times
    infinity is [NaN] *)
Definition num_signed (x : R) (pos neg : num) : num :=
  if Rlt_dec 0 x then pos else if Rlt_dec x 0 then neg else NaN.

(** [a * b] *)
Definition num_mul (a b : num) : num :=
  match a, b with
  | NaN, _ | _, NaN => NaN
  | Fin x, Fin y => Fin (x * y)
  | Fin x, PosInf | PosInf, Fin x => num_signed x PosInf NegInf
  | Fin x, NegInf | NegInf, Fin x => num_signed x NegInf PosInf
  | PosInf, PosInf | NegInf, NegInf => PosInf
  | PosInf, NegInf | NegInf, PosInf => NegInf
  end.

(** [a > b] *)
Definition num_gtb (a b : num) : bool :=
  match a, b with
  | NaN, _ | _, NaN => false
  | Fin x, Fin y => Rgtb x y
  | Fin _, NegInf => true
  | Fin _, PosInf => false
  | PosInf, PosInf => false
  | PosInf, _ => true
  | NegInf, _ => false
  end.

(** [a >= b] *)
Definition num_geb (a b : num) : bool :=
  match a, b with
  | NaN, _ | _, NaN => false
  | Fin x, Fin y => Rgeb x y
  | Fin _, NegInf => true
  | Fin _, PosInf => false
  | PosInf, _ => true
  | NegInf, NegInf => true
  | NegInf, _ => false
  end.

(** [a <= b] *)
Definition num_leb (a b : num) : bool := num_geb b a.

(** ** THREE.Vector3 *)

Record Vector3 : Type := vec3 { vx : R; vy : R; vz : R }.

Definition v_add (a b : Vector3) : Vector3 :=
  vec3 (vx a + vx b) (vy a + vy b) (vz a + vz b).

Definition v_sub (a b : Vector3) : Vector3 :=
  vec3 (vx a - vx b) (vy a - vy b) (vz a - vz b).

Definition multiplyScalar (a : Vector3) (s : R) : Vector3 :=
  vec3 (vx a * s) (vy a * s) (vz a * s).

Definition dot (a b : Vector3) : R :=
  vx a * vx b + vy a * vy b + vz a * vz b.

Definition v_length (a : Vector3) : R :=
  sqrt (vx a * vx a + vy a * vy a + vz a * vz a).

(** [divideScalar (length () || 1)] *)
Definition normalize (a : Vector3) : Vector3 :=
  let l := v_length a in
  multiplyScalar a (1 / (if Req_dec_T l 0 then 1 else l)).

Definition distanceTo (a b : Vector3) : R := v_length (v_sub a b).

Definition lerpVectors (v1 v2 : Vector3) (alpha : R) : Vector3 :=
  vec3 (vx v1 + (vx v2 - vx v1) * alpha)
       (vy v1 + (vy v2 - vy v1) * alpha)
       (vz v1 + (vz v2 - vz v1) * alpha).

Definition set_y (p : Vector3) (y : R) : Vector3 := vec3 (vx p) y (vz p).

(** ** Types and constants *)

Record Tx : Type := mkTx {
  id : string;
  pos : Vector3;      (* meters in model space *)
  powerDbm : R;       (* dBm *)
  freqMHz : R;        (* MHz *)
  color : string
}.

Record RayHop : Type := mkRayHop {
  hop_from : Vector3;
  hop_to : Vector3;
  hop_distance : R;
  fsplLoss : R;       (* dB *)
  reflLoss : R;       (* dB (0 for the first LOS hop) *)
  material : string;  (* "los" | materialType *)
  prAfter : R         (* dBm after this hop *)
}.

Record Segment : Type := mkSegment {
  seg_points : Vector3 * Vector3;
  seg_los : bool;
  seg_color : string;
  seg_alpha : R
}.

Record RayBundle : Type := mkRayBundle {
  segments : list Segment;
  hops : list RayHop;
  bundle_color : string
}.

Definition DEFAULT_FREQ : R := 2400.
Definition DEFAULT_PWR : R := 36.
Definition MAX_BOUNCES : nat := 2.
Definition MIN_POWER_DBM : R := -110.
Definition WALL_LOSS_DB : R := 25.

(** ** Math helpers *)

(** [Math.log10] on the positive numbers; [Math_log10] below has its
    values at zero and on the negative numbers. *)
Definition log10 (x : R) : R := ln x / ln 10.

(** [Math.max (dMeters / 1000, 0.001)]: kilometres, floored at one metre *)
Definition dKm_of (dMeters : R) : R := Rmax (dMeters / 1000) 0.001.

Definition fsplDb (dMeters fMHz : R) : R :=
  let dKm := dKm_of dMeters in
  32.4 + 20 * log10 fMHz + 20 * log10 dKm.

(** [Math.log10] with the IEEE values it returns outside the positive
    numbers *)
Definition Math_log10 (x : R) : num :=
  if Rlt_dec 0 x then Fin (log10 x)
  else if Req_dec_T x 0 then NegInf else NaN.

(** [fsplDb] as JavaScript evaluates it for any frequency *)
Definition fsplDb_ieee (dMeters fMHz : R) : num :=
  let dKm := dKm_of dMeters in
  num_add (num_add (Fin 32.4) (num_mul (Fin 20) (Math_log10 fMHz)))
          (num_mul (Fin 20) (Math_log10 dKm)).

(** [powerDbm - pl], the received power of a transmitter at distance
    [dist], with the obstruction penalty when the path is blocked *)
Definition received_ieee (t : Tx) (dist : R) (los : bool) : num :=
  num_sub (Fin (powerDbm t))
          (num_add (fsplDb_ieee dist (freqMHz t))
                   (Fin (if los then 0 else WALL_LOSS_DB))).

(** Every transmitter is on a positive frequency. *)
Definition positiveFreq (txs : list Tx) : Prop :=
  Forall (fun t => 0 < freqMHz t) txs.

Definition reflect (dir normal : Vector3) : Vector3 :=
  normalize (v_sub dir (multiplyScalar normal (2 * dot dir normal))).

Definition clamp (x lo hi : R) : R := Rmax lo (Rmin hi x).

(** Fibonacci sphere for near-uniform sampling *)
Definition fibonacciSphereDirs (n : nat) : list Vector3 :=
  let phi := PI * (3 - sqrt 5) in
  map (fun i : nat =>
         let y := 1 - (INR i / Rmax (INR n - 1) 1) * 2 in
         let radius := sqrt (Rmax (1 - y * y) 0) in
         let theta := phi * INR i in
         normalize (vec3 (cos theta * radius) y (sin theta * radius)))
      (seq 0 n).

(** [values.indexOf (x)], counting from [i]; [-1] when absent *)
Fixpoint indexOf_from (values : list R) (x : R) (i : Z) : Z :=
  match values with
  | [] => (-1)%Z
  | v :: vs => if Req_dec_T v x then i else indexOf_from vs x (i + 1)%Z
  end.

Definition indexOf (values : list R) (x : R) : Z := indexOf_from values x 0.

(** [Math.max (...)] of the non-empty list [v0 :: vs] *)
Definition Math_max (v0 : R) (vs : list R) : R := fold_left Rmax vs v0.

(** [exps.reduce ((a, b) => a + b, 0)] *)
Definition reduce_add (l : list R) : R := fold_left Rplus l 0.

(** Softmax with temperature, returns weights for color mixing and best
    index *)
Definition softmaxDbm (values : list R) (temp : R) : list R * Z :=
  match values with
  | [] => ([], (-1)%Z)
  | v0 :: vs =>
      let maxv := Math_max v0 vs in
      let exps := map (fun v => exp ((v - maxv) / temp)) values in
      let s := reduce_add exps in
      let sum := if Req_dec_T s 0 then 1 else s in      (* [|| 1] *)
      let weights := map (fun e => e / sum) exps in
      let bestIdx := indexOf values (Math_max v0 vs) in
      (weights, bestIdx)
  end.

(** [materialType] is the tag the city model leaves in [userData]. *)
Definition materialReflectionLossDb
  (matType : option string) (normal dirIn : Vector3) : R :=
  let grazing := 1 - Rabs (dot (normalize normal) (normalize dirIn)) in
  let tagged (m : string) :=
    match matType with Some s => String.eqb s m | None => false end in
  if tagged "glass"%string then 10 + 10 * grazing        (* 10-20 dB *)
  else if tagged "metal"%string then 0 + 3 * grazing     (* 0-3 dB *)
  else 3 + 6 * grazing.                              (* concrete default *)

(** One entry of [Raycaster.intersectObjects]: the face normal is already
    taken to world space ([transformDirection (matrixWorld)]). *)
Record Intersection : Type := mkHit {
  hit_distance : R;
  hit_point : Vector3;
  hit_normal : option Vector3;
  hit_materialType : option string
}.

(** [userData.materialType || "concrete"] *)
Definition materialLabel (mt : option string) : string :=
  match mt with
  | Some s => if String.eqb s EmptyString then "concrete"%string else s
  | None => "concrete"%string
  end.

(** ** Ray marching *)

Section RayEngine.

Variable Object3D : Type.

(** [rc.set (origin, dir); rc.far = far; rc.intersectObjects (meshes, true)] *)
Variable intersectObjects :
  Vector3 -> Vector3 -> R -> list Object3D -> list Intersection.

(** The [while (bounces <= maxBounces && power > MIN_POWER_DBM)] loop of
    one ray.  [remaining] is [maxBounces + 1 - bounces], the number of
    passes the bounce counter still allows. *)
Fixpoint march (tx : Tx) (meshes : list Object3D) (remaining : nat)
  (origin dir : Vector3) (power : R) (first : bool)
  (hops : list RayHop) (segs : list Segment) : list RayHop * list Segment :=
  match remaining with
  | O => (hops, segs)
  | S remaining' =>
      if Rgtb power MIN_POWER_DBM then
        match intersectObjects origin dir 5000 meshes with
        | [] => (hops, segs)
        | hit :: _ =>
            let d := hit_distance hit in
            let fspl := fsplDb d (freqMHz tx) in
            let power1 := power - fspl in
            let p := hit_point hit in
            let n := match hit_normal hit with
                     | Some fn => fn
                     | None => vec3 0 1 0
                     end in
            let refl := if first then 0
                        else materialReflectionLossDb (hit_materialType hit) n dir in
            let power2 := if first then power1 else power1 - refl in
            let hops' := hops ++ [mkRayHop origin p d fspl refl
                                    (if first then "los"%string
                                     else materialLabel (hit_materialType hit))
                                    power2] in
            let segs' := segs ++ [mkSegment (origin, p) first (color tx)
                                    (clamp ((power2 - MIN_POWER_DBM)
                                            / (DEFAULT_PWR - MIN_POWER_DBM))
                                           0.15 1)] in
            (* Reflect to continue *)
            let newDir := reflect dir n in
            let origin' := v_add p (multiplyScalar newDir 0.25) in
            if Rleb power2 MIN_POWER_DBM then (hops', segs')
            else march tx meshes remaining' origin' newDir power2 false hops' segs'
        end
      else (hops, segs)
  end.

Definition castRay (tx : Tx) (meshes : list Object3D) (maxBounces : nat)
  (dir : Vector3) : list RayHop * list Segment :=
  march tx meshes (S maxBounces)
        (v_add (pos tx) (multiplyScalar dir 0.5)) dir (powerDbm tx) true [] [].

Definition buildRayBundle (tx : Tx) (meshes : list Object3D)
  (rayCount maxBounces : nat) : list RayBundle :=
  match meshes with
  | [] => []
  | _ =>
      fold_left
        (fun bundles dir =>
           let '(hs, sgs) := castRay tx meshes maxBounces dir in
           match sgs with
           | [] => bundles
           | _ => bundles ++ [mkRayBundle sgs hs (color tx)]
           end)
        (fibonacciSphereDirs rayCount) []
  end.

(** ** RF probe *)

Inductive Tier : Type := excellent | good | fair | poor | dead.

Record ProbeRow : Type := mkRow {
  row_idx : nat;
  row_pr : R;
  row_los : bool;
  row_dist : R;       (* shown with [toFixed (1)] *)
  row_freq : R
}.

Record ProbePayload : Type := mkPayload {
  rows : list ProbeRow;
  bestIdx : Z;
  margin : num;
  bestPower : num;
  qualityTier : Tier;
  interferenceCount : nat;
  handoverStable : bool;
  weights : list R
}.

(** The body of [txs.forEach ((t, idx) => ...)]: the received power and the
    table row of one transmitter. *)
Definition probeTx (p : Vector3) (meshes : list Object3D)
  (idx : nat) (t : Tx) : R * ProbeRow :=
  let dir0 := v_sub (pos t) p in
  let dist := v_length dir0 in
  let dir := normalize dir0 in
  let far := Rmax (dist - 0.25) 0.25 in
  let los := match intersectObjects p dir far meshes with
             | [] => true
             | _ :: _ => false
             end in
  let pl := fsplDb dist (freqMHz t) + (if los then 0 else WALL_LOSS_DB) in
  let val := powerDbm t - pl in
  (val, mkRow (idx + 1) val los dist (freqMHz t)).

Fixpoint forEachTx (p : Vector3) (meshes : list Object3D) (idx : nat)
  (txs : list Tx) (pr : list R) (rws : list ProbeRow)
  : list R * list ProbeRow :=
  match txs with
  | [] => (pr, rws)
  | t :: txs' =>
      let '(val, row) := probeTx p meshes idx t in
      forEachTx p meshes (S idx) txs' (pr ++ [val]) (rws ++ [row])
  end.

(** The pairs [forEach] visits, transmitter by transmitter from index
    [idx] on *)
Fixpoint probeAll (p : Vector3) (meshes : list Object3D) (idx : nat)
  (txs : list Tx) : list (R * ProbeRow) :=
  match txs with
  | [] => []
  | t :: txs' => probeTx p meshes idx t :: probeAll p meshes (S idx) txs'
  end.

(** The received powers [pr], in transmitter order *)
Definition powers (p : Vector3) (meshes : list Object3D) (txs : list Tx)
  : list R := map fst (probeAll p meshes 0 txs).

(** The comparator [(a, b) => b - a] *)
Definition descCmp (a b : R) : R := b - a.

(** [Array.prototype.sort (cmp)]: [cmp a b > 0] puts [a] after [b]. *)
Fixpoint insert_by (cmp : R -> R -> R) (a : R) (l : list R) : list R :=
  match l with
  | [] => [a]
  | b :: l' => if Rgtb (cmp a b) 0 then b :: insert_by cmp a l' else a :: l
  end.

Fixpoint sort_by (cmp : R -> R -> R) (l : list R) : list R :=
  match l with
  | [] => []
  | a :: l' => insert_by cmp a (sort_by cmp l')
  end.

Definition sort_desc : list R -> list R := sort_by descCmp.

Definition descending : list R -> Prop := Sorted (fun a b => b <= a).

Definition tierOf (best : num) : Tier :=
  if num_gtb best (Fin (-70)) then excellent
  else if num_gtb best (Fin (-85)) then good
  else if num_gtb best (Fin (-100)) then fair
  else if num_gtb best (Fin MIN_POWER_DBM) then poor
  else dead.

Definition probeAtWithRc (p : Vector3) (txs : list Tx)
  (meshes : list Object3D) : ProbePayload :=
  let '(pr, rws) := forEachTx p meshes 0 txs [] [] in
  let '(ws, bestI) := softmaxDbm pr 4 in
  let sorted := sort_by descCmp pr in
  let best := match sorted with s0 :: _ => Fin s0 | [] => NegInf end in
  let secondBest := match sorted with _ :: s1 :: _ => Fin s1 | _ => best end in
  let mrg := num_sub best secondBest in
  let tier := tierOf best in
  let interference := List.length (filter (fun v => Rgtb v (-80)) pr) in
  let stable := num_geb mrg (Fin 3.0) in
  mkPayload rws ((if (bestI >=? 0)%Z then bestI else 0) + 1)%Z
            mrg best tier interference stable ws.

(** Convenience wrapper that creates its own raycaster *)
Definition probeAt (p : Vector3) (txs : list Tx) (meshes : list Object3D)
  : ProbePayload := probeAtWithRc p txs meshes.

(** ** Path RF overlay (heat-line with handover markers) *)

(** Red, orange, yellow, green based on best power *)
Definition colorForDbm (dbm : num) : string :=
  if num_leb dbm (Fin (-100)) then "#ef4444"%string
  else if num_leb dbm (Fin (-90)) then "#f97316"%string
  else if num_leb dbm (Fin (-80)) then "#f59e0b"%string
  else "#22c55e"%string.

Record Handover : Type := mkHandover {
  h_pos : Vector3;
  h_from : Z;
  h_to : Z
}.

Record Overlay : Type := mkOverlay {
  outPts : list Vector3;
  outCols : list string;
  hMarkers : list Handover;
  lastBest : Z
}.

Definition STEP : R := 6.  (* meters between samples along the polyline *)

(** The sample point number [k] of the segment from [a] to [b] *)
Definition samplePoint (a b : Vector3) (count : Z) (k : nat) : Vector3 :=
  let t := INR k / (IZR count - 1) in
  set_y (lerpVectors a b t) (vy a).

Definition sampleCount (a b : Vector3) : Z :=
  let segLen := Rmax (distanceTo a b) 1e-6 in
  Z.max 2 (Zceil (segLen / STEP)).

(** The body of the inner [for (k ...)] loop *)
Definition sampleStep (txs : list Tx) (meshes : list Object3D)
  (a b : Vector3) (count : Z) (st : Overlay) (k : nat) : Overlay :=
  let p := samplePoint a b count k in
  let payload := probeAt p txs meshes in
  let col := colorForDbm (bestPower payload) in
  let markers :=
    if negb (lastBest st =? -1)%Z && negb (bestIdx payload =? lastBest st)%Z
    then hMarkers st ++ [mkHandover p (lastBest st) (bestIdx payload)]
    else hMarkers st in
  mkOverlay (outPts st ++ [p]) (outCols st ++ [col]) markers (bestIdx payload).

Definition sampleSegment (txs : list Tx) (meshes : list Object3D)
  (a b : Vector3) (st : Overlay) : Overlay :=
  let count := sampleCount a b in
  fold_left (sampleStep txs meshes a b count) (seq 0 (Z.to_nat count)) st.

(** The outer [for (i ...)] loop over the segments [points[i], points[i+1]] *)
Fixpoint walkPath (txs : list Tx) (meshes : list Object3D)
  (points : list Vector3) (st : Overlay) : Overlay :=
  match points with
  | a :: ((b :: _) as rest) => walkPath txs meshes rest (sampleSegment txs meshes a b st)
  | _ => st
  end.

Definition PathRfOverlay (points : list Vector3) (txs : list Tx)
  (meshes : list Object3D) : Overlay :=
  let empty := mkOverlay [] [] [] (-1) in
  if (List.length points <? 2)%nat
     || (List.length txs =? 0)%nat || (List.length meshes =? 0)%nat
  then empty
  else walkPath txs meshes points empty.

End RayEngine.

Arguments march {Object3D}.
Arguments castRay {Object3D}.
Arguments buildRayBundle {Object3D}.
Arguments probeTx {Object3D}.
Arguments forEachTx {Object3D}.
Arguments probeAll {Object3D}.
Arguments powers {Object3D}.
Arguments probeAtWithRc {Object3D}.
Arguments probeAt {Object3D}.
Arguments sampleStep {Object3D}.
Arguments sampleSegment {Object3D}.
Arguments walkPath {Object3D}.
Arguments PathRfOverlay {Object3D}.

(** The power in the row of transmitter [t], probed from [p], is the
    number JavaScript computes for it. *)
Definition rowReceived (p : Vector3) (t : Tx) (row : ProbeRow) : Prop :=
  received_ieee t (distanceTo (pos t) p) (row_los row) = Fin (row_pr row).

(** ** The drive-test trace, as the specification words it *)

(** The resampled polyline, segment by segment *)
Fixpoint pathSamples (points : list Vector3) : list Vector3 :=
  match points with
  | a :: ((b :: _) as rest) =>
      map (samplePoint a b (sampleCount a b))
          (seq 0 (Z.to_nat (sampleCount a b)))
      ++ pathSamples rest
  | _ => []
  end.

(** One event wherever the best server of a sample differs from the best
    server [prev] of the sample before it *)
Fixpoint changesAfter (prev : Z) (served : list (Vector3 * Z)) : list Handover :=
  match served with
  | [] => []
  | (p, b) :: rest =>
      (if (b =? prev)%Z then [] else [mkHandover p prev b])
      ++ changesAfter b rest
  end.

Definition handoverEvents (served : list (Vector3 * Z)) : list Handover :=
  match served with
  | [] => []
  | (_, b0) :: rest => changesAfter b0 rest
  end.

(** The best server of the last sample, [-1] before the first *)
Definition lastServer (served : list (Vector3 * Z)) : Z :=
  last (map snd served) (-1)%Z.

(** ** The explanation route (app/api/explain-rf/route.ts) *)

(** [parseFloat (x.toFixed (1))]: the sign of [x] and the tenth nearest to
    its magnitude, the larger one on a tie *)
Definition toFixed1 (x : R) : R :=
  let tenths (m : R) := IZR (Zfloor (m * 10 + / 2)) / 10 in
  if Rlt_dec x 0 then - tenths (- x) else tenths x.

(** The margin and stability flag [POST] puts in its context; [None] is
    the 400 answer for an empty transmitter list.  The route assumes
    line of sight. *)
Definition POST_margin (position : Vector3) (transmitters : list Tx)
  : option (num * bool) :=
  match transmitters with
  | [] => None
  | _ =>
      let received :=
        map (fun tx =>
               toFixed1 (powerDbm tx
                         - fsplDb (distanceTo position (pos tx)) (freqMHz tx)))
            transmitters in
      let sorted := sort_by descCmp received in
      let mrg := match sorted with
                 | best :: secondBest :: _ => Fin (best - secondBest)
                 | _ => PosInf
                 end in
      Some (mrg, num_geb mrg (Fin 3.0))
  end.

(** ** Interference slice (GPU shader) *)

Definition MAX_TX : nat := 8.  (* fixed shader array size *)

Record Uniforms : Type := mkUniforms {
  uTime : R;
  uTxCount : nat;
  uIntensityScale : R;
  uPhaseTimeScale : R;
  uSpatialScale : R;
  uPos : list Vector3;
  uFreq : list R;     (* Hz *)
  uPow : list R       (* amplitude proxy *)
}.

(** One slot of a uniform array as [useFrame] fills it: the transmitter's
    value below [m], the parked value from there on. *)
Definition slot {A : Type} (txs : list Tx) (m : nat) (f : Tx -> A)
  (parked : A) (i : nat) : A :=
  if (i <? m)%nat then
    match nth_error txs i with
    | Some tx => f tx
    | None => parked
    end
  else parked.

(** The uniforms after the [useFrame] callback at clock time [t] *)
Definition frameUniforms (txs : list Tx) (t : R)
  (intensityScale phaseTimeScale spatialScale : R) : Uniforms :=
  let m := Nat.min (List.length txs) MAX_TX in
  let fill {A : Type} (f : Tx -> A) (parked : A) :=
    map (slot txs m f parked) (seq 0 MAX_TX) in
  mkUniforms t m intensityScale phaseTimeScale spatialScale
    (fill pos (vec3 1e9 1e9 1e9))
    (fill (fun tx => freqMHz tx * 1e6) 0)
    (fill (fun tx => sqrt (Rpower 10 ((powerDbm tx - 30) / 10))) 0).

Definition GLSL_PI : R := 3.14159265358979323846.
Definition C_light : R := 299792458.0.  (* m/s *)

(** The [for (int i = 0; i < MAX_TX; i++)] loop of the fragment shader,
    with [n] passes left, standing at index [i] with partial sum [E]. *)
Fixpoint shaderLoop (u : Uniforms) (vWorld : Vector3) (n i : nat) (E : R) : R :=
  match n with
  | O => E
  | S n' =>
      if (uTxCount u <=? i)%nat then E                       (* break *)
      else
        let dvec := v_sub vWorld (nth i (uPos u) (vec3 0 0 0)) in
        let d := v_length dvec + 1e-3 in
        let f := nth i (uFreq u) 0 in
        if Rleb f 0 then shaderLoop u vWorld n' (S i) E      (* continue *)
        else
          let lambda := C_light / f in
          let k_phys := 2.0 * GLSL_PI / lambda in
          let omega := 2.0 * GLSL_PI * f in
          let k := k_phys * uSpatialScale u in
          let phase := (omega * uTime u * uPhaseTimeScale u) - (k * d) in
          let A := nth i (uPow u) 0 / d in
          shaderLoop u vWorld n' (S i) (E + A * cos phase)
  end.

(** The scalar [v] the fragment shader hands to its palette, in exact
    arithmetic *)
Definition fragmentValue (u : Uniforms) (vWorld : Vector3) : R :=
  let E := shaderLoop u vWorld MAX_TX 0 0 in
  let I := E * E * uIntensityScale u in
  1.0 - exp (- I).

(** The field at [point] and clock time [time], for the props of the
    component ([InterferenceField] defaults: [intensityScale = 6.0],
    [phaseTimeScale = 1e-9], [spatialScale = 0.03]). *)
Definition fieldValue (intensityScale phaseTimeScale spatialScale : R)
  (point : Vector3) (txs : list Tx) (time : R) : R :=
  fragmentValue
    (frameUniforms txs time intensityScale phaseTimeScale spatialScale) point.

(** *** The shader's last line in single precision *)

(** The integer nearest to [y], the even one on a tie *)
Definition roundEven (y : R) : Z :=
  let f := Zfloor y in
  let r := y - IZR f in
  if Rlt_dec r (1 / 2) then f
  else if Rlt_dec (1 / 2) r then (f + 1)%Z
  else if Z.even f then f else (f + 1)%Z.

(** The binary exponent [e] of [x <> 0]: [2^e <= |x| < 2^(e+1)] *)
Definition exponent2 (x : R) : Z := Zfloor (ln (Rabs x) / ln 2).

(** The [float] nearest to the real [x]: a 24-bit significand, ties to
    even.  The exponent range is not bounded (no overflow, no
    underflow). *)
Definition float32 (x : R) : R :=
  if Req_dec_T x 0 then 0
  else
    let ulp := powerRZ 2 (exponent2 x - 23) in
    IZR (roundEven (x / ulp)) * ulp.

(** [float v = 1.0 - exp(-I)] with [exp] and the subtraction each rounded
    to single precision; [E] and [I] are the exact values. *)
Definition fragmentValue32 (u : Uniforms) (vWorld : Vector3) : R :=
  let E := shaderLoop u vWorld MAX_TX 0 0 in
  let I := E * E * uIntensityScale u in
  float32 (1.0 - float32 (exp (- I))).

Definition fieldValue32 (intensityScale phaseTimeScale spatialScale : R)
  (point : Vector3) (txs : list Tx) (time : R) : R :=
  fragmentValue32
    (frameUniforms txs time intensityScale phaseTimeScale spatialScale) point.

(** The superposition over an explicit list of contributors, as the
    specification words it: amplitude [sqrt (watts) / d] times the cosine
    of the scaled phase, summed. *)
Definition contribution (phaseTimeScale spatialScale : R)
  (point : Vector3) (time : R) (tx : Tx) : R :=
  let d := v_length (v_sub point (pos tx)) + 1e-3 in
  let f := freqMHz tx * 1e6 in
  if Rleb f 0 then 0
  else
    let k := 2.0 * GLSL_PI / (C_light / f) * spatialScale in
    let phase := (2.0 * GLSL_PI * f * time * phaseTimeScale) - (k * d) in
    sqrt (Rpower 10 ((powerDbm tx - 30) / 10)) / d * cos phase.

Definition superposition (phaseTimeScale spatialScale : R)
  (point : Vector3) (time : R) (txs : list Tx) : R :=
  fold_left (fun E tx => E + contribution phaseTimeScale spatialScale point time tx)
            txs 0.

(** ** Power profiles of a hop sequence *)

(** Every power but the last is above the floor: the march stopped at the
    first hop that reached it. *)
Fixpoint haltsAtFloor (prs : list R) : Prop :=
  match prs with
  | [] => True
  | x :: rest => (rest <> [] -> MIN_POWER_DBM < x) /\ haltsAtFloor rest
  end.

(** Starting from [power], no power exceeds the one before it. *)
Fixpoint nonIncreasingFrom (power : R) (prs : list R) : Prop :=
  match prs with
  | [] => True
  | x :: rest => x <= power /\ nonIncreasingFrom x rest
  end.

(** ** Scenes for the worked examples *)

(** A geometry index that reports no intersection at all *)
Definition openSky : Vector3 -> Vector3 -> R -> list unit -> list Intersection :=
  fun _ _ _ _ => [].

(** A geometry index that always reports an untagged surface [dist] metres
    ahead *)
Definition surfaceAt (dist : R)
  : Vector3 -> Vector3 -> R -> list unit -> list Intersection :=
  fun origin dir _ _ =>
    [mkHit dist (v_add origin (multiplyScalar dir dist)) None None].

Definition origin3 : Vector3 := vec3 0 0 0.

(** A transmitter 1 km east of the origin on 1000 MHz, where the
    free-space loss is exactly 92.4 dB *)
Definition txEast (power : R) : Tx :=
  mkTx "east" (vec3 1000 0 0) power 1000 "#38bdf8".

Definition txWest (power : R) : Tx :=
  mkTx "west" (vec3 (-1000) 0 0) power 1000 "#f472b6".

(** A 36 dBm transmitter at the origin on 1 MHz, where the free-space
    loss at the one-metre floor is -27.6 dB *)
Definition txLongwave : Tx := mkTx "longwave" origin3 36 1 "#f59e0b".

(** A transmitter with the default power and frequency at the origin *)
Definition txDefault : Tx :=
  mkTx "tx" origin3 DEFAULT_PWR DEFAULT_FREQ "#38bdf8".

(** Ten default transmitters along the x axis *)
Definition txRow : list Tx :=
  map (fun i : nat => mkTx "tx" (vec3 (INR i * 50) 0 0) DEFAULT_PWR DEFAULT_FREQ
                        "#38bdf8")
      (seq 0 10).

(** ** City model: semantic materials *)

Record Box3 : Type := mkBox3 { box_min : Vector3; box_max : Vector3 }.

Inductive CityMaterial : Type := waterMat | terrainMat | lowMat | midMat | highMat.

(** The body of [root.traverse] in [Model] for one mesh: [bb] is the
    geometry's bounding box, [worldPos] the mesh's world position, and
    [globalMinY], [globalMaxY] the vertical extent of the whole city.  The
    result is the material and the tag left in [userData.materialType]. *)
Definition classifyMesh (bb : Box3) (worldPos : Vector3)
  (globalMinY globalMaxY : R) : CityMaterial * string :=
  let globalH := Rmax (globalMaxY - globalMinY) 1e-3 in
  let localH := vy (box_max bb) - vy (box_min bb) in
  let sizeX := vx (box_max bb) - vx (box_min bb) in
  let sizeZ := vz (box_max bb) - vz (box_min bb) in
  let footprint := sizeX * sizeZ in
  let worldMaxY := vy worldPos + vy (box_max bb) in
  let normH := (worldMaxY - globalMinY) / globalH in
  let flatish := Rgtb (globalH * 0.03) localH in
  let bigFootprint := Rgtb footprint (globalH * globalH * 0.01) in
  let waterLevel := globalMinY + globalH * 0.03 in
  if flatish && Rgtb waterLevel worldMaxY then (waterMat, "water"%string)
  else if flatish && bigFootprint then (terrainMat, "terrain"%string)
  else if Rgtb 0.4 normH then (lowMat, "concrete"%string)
  else if Rgtb 0.75 normH then (midMat, "concrete"%string)
  else (highMat, "glass"%string).

(** ** Book-keeping of a hop sequence *)

(** Starting from [power], every hop ends at the power before it minus
    its free-space and reflection losses; the free-space loss is that of
    the hop's length; a [first] hop is the line-of-sight hop without
    reflection loss; and every hop starts above the floor. *)
Fixpoint ledger (freq power : R) (first : bool) (hs : list RayHop) : Prop :=
  match hs with
  | [] => True
  | h :: rest =>
      fsplLoss h = fsplDb (hop_distance h) freq /\
      (if first then reflLoss h = 0 /\ material h = "los"%string
       else 0 <= reflLoss h <= 20) /\
      prAfter h = power - fsplLoss h - reflLoss h /\
      MIN_POWER_DBM < power /\
      ledger freq (prAfter h) false rest
  end.

(** The drawn segments follow the hops one to one. *)
Fixpoint tracesHops (first : bool) (hs : list RayHop) (sgs : list Segment)
  : Prop :=
  match hs, sgs with
  | [], [] => True
  | h :: hs', s :: sgs' =>
      seg_points s = (hop_from h, hop_to h) /\
      seg_los s = first /\
      seg_alpha s = clamp ((prAfter h - MIN_POWER_DBM)
                           / (DEFAULT_PWR - MIN_POWER_DBM)) 0.15 1 /\
      tracesHops false hs' sgs'
  | _, _ => False
  end.

(** ** Moving transmitters *)

Inductive Mobility : Type :=
| static
| orbit (center : Vector3) (radius altitude angularSpeed : R) (phase : option R)
| waypoint (points : list Vector3) (speed : R) (currentIdx : nat) (progress : R).

(** The body of [txs.forEach] in [MovingTxController] for the transmitter
    number [idx], standing at [pos] with mobility [m], in a frame of
    length [dt] that ends at controller time [t].  The result is the new
    position and mobility; [None] is the frame that throws because
    [points[currentIdx]] is undefined. *)
Definition frameTx (t dt : R) (idx : nat) (pos : Vector3) (m : option Mobility)
  : option (Vector3 * option Mobility) :=
  match m with
  | None | Some static => Some (pos, m)
  | Some (orbit center radius altitude angularSpeed phase) =>
      let ph := match phase with Some ph => ph | None => INR idx * 0.8 end in
      let theta := ph + t * angularSpeed in
      Some (vec3 (vx center + cos theta * radius)
                 (vy center + altitude)
                 (vz center + sin theta * radius), m)
  | Some (waypoint points speed currentIdx progress) =>
      if (List.length points <? 2)%nat then Some (pos, m)
      else
        match nth_error points currentIdx,
              nth_error points ((currentIdx + 1) mod List.length points) with
        | Some from, Some to =>
            let dist := distanceTo from to in
            (* Move progress along current segment *)
            let progress1 := progress + (speed * dt) / Rmax dist 1e-6 in
            let '(progress2, idx2) :=
              if Rgeb progress1 1
              then (0, ((currentIdx + 1) mod List.length points)%nat)  (* loop *)
              else (progress1, currentIdx) in
            Some (lerpVectors from to progress2,
                  Some (waypoint points speed idx2 progress2))
        | _, _ => None
        end
  end.

(** The frames [dts] of one transmitter, the controller clock starting at
    [time] *)
Fixpoint runTx (time : R) (dts : list R) (idx : nat) (pos : Vector3)
  (m : option Mobility) : option (Vector3 * option Mobility) :=
  match dts with
  | [] => Some (pos, m)
  | dt :: rest =>
      let t := time + dt in
      match frameTx t dt idx pos m with
      | Some (pos', m') => runTx t rest idx pos' m'
      | None => None
      end
  end.

(** A waypoint mobility whose index and progress are in range *)
Definition waypointOk (m : option Mobility) : Prop :=
  match m with
  | Some (waypoint points speed currentIdx progress) =>
      (2 <= List.length points)%nat /\ (currentIdx < List.length points)%nat /\
      0 <= speed /\ 0 <= progress < 1
  | _ => False
  end.

(** [q] lies on the segment from [a] to [b] *)
Definition onSegment (a b q : Vector3) : Prop :=
  exists s, 0 <= s <= 1 /\ q = lerpVectors a b s.

(** [q] lies on one of the legs of the closed loop through [points] *)
Definition onLoop (points : list Vector3) (q : Vector3) : Prop :=
  exists i a b,
    nth_error points i = Some a /\
    nth_error points ((i + 1) mod List.length points) = Some b /\
    onSegment a b q.

Definition waypointsOf (m : option Mobility) : list Vector3 :=
  match m with
  | Some (waypoint points _ _ _) => points
  | _ => []
  end.

(** ** Path mover (the probe car) *)

Record PathSegment : Type := mkPathSegment {
  ps_from : Vector3;
  ps_to : Vector3;
  ps_length : R;
  startDist : R
}.

(** The [for] loop of [data]: the segments from [points] on, [acc] being
    the length walked so far; the second component is the final [acc]. *)
Fixpoint pathSegmentsFrom (points : list Vector3) (acc : R)
  : list PathSegment * R :=
  match points with
  | from :: ((to :: _) as rest) =>
      let length := distanceTo from to in
      let safeLen := Rmax length 1e-3 in
      let '(segs, total) := pathSegmentsFrom rest (acc + safeLen) in
      (mkPathSegment from to safeLen acc :: segs, total)
  | _ => ([], acc)
  end.

Definition pathData (points : list Vector3) : list PathSegment * R :=
  if (List.length points <? 2)%nat then ([], 0)
  else pathSegmentsFrom points 0.

(** [Math.trunc] and the [%] of JavaScript numbers: the remainder takes
    the sign of the dividend *)
Definition Ztrunc (x : R) : Z := if Rlt_dec x 0 then Zceil x else Zfloor x.

Definition js_rem (x c : R) : R := x - c * IZR (Ztrunc (x / c)).

(** The search loop: the first segment whose span holds [d], [seg] when
    there is none *)
Fixpoint findSegment (d : R) (segs : list PathSegment) (seg : PathSegment)
  : PathSegment :=
  match segs with
  | [] => seg
  | s :: rest =>
      if Rgeb d (startDist s) && Rleb d (startDist s + ps_length s) then s
      else findSegment d rest seg
  end.

(** One frame of the mover: the new travelled distance and the position
    of the car; [None] when the frame returns early. *)
Definition moverFrame (data : list PathSegment * R) (distRef dt : R)
  : option (R * Vector3) :=
  let '(segs, total) := data in
  match segs with
  | [] => None
  | s0 :: _ =>
      if Rleb total 0 then None
      else
        let speed := 35 in                       (* m/s along path *)
        let cycle := 2 * total in                (* ping-pong over [0, 2L) *)
        let distRef' := js_rem (distRef + speed * dt) cycle in
        let d := if Rgtb distRef' total then 2 * total - distRef' else distRef' in
        let seg := findSegment d segs (last segs s0) in
        let local := (d - startDist seg) / ps_length seg in
        let pos := lerpVectors (ps_from seg) (ps_to seg) local in
        Some (distRef', vec3 (vx pos) (vy pos + 3) (vz pos))
  end.

(** The segments lie end to end from distance [a] up to [total]. *)
Fixpoint laidOut (a : R) (segs : list PathSegment) (total : R) : Prop :=
  match segs with
  | [] => a = total
  | s :: rest =>
      startDist s = a /\ 1e-3 <= ps_length s /\
      laidOut (a + ps_length s) rest total
  end.

(** ** Removing the nearest transmitter *)

(** The search loop of [handleRemoveNearestTx] over the transmitters from
    index [i] on, with the best index and distance so far *)
Fixpoint nearestFrom (p : Vector3) (arr : list Tx) (i bestIdx : nat)
  (bestD : num) : nat :=
  match arr with
  | [] => bestIdx
  | t :: rest =>
      let d := distanceTo (pos t) p in
      if num_gtb bestD (Fin d) then nearestFrom p rest (S i) i (Fin d)
      else nearestFrom p rest (S i) bestIdx bestD
  end.

(** [next.splice (i, 1)] on a copy of [l] *)
Definition splice1 {A : Type} (l : list A) (i : nat) : list A :=
  firstn i l ++ skipn (S i) l.

Definition removeNearestTx (p : Vector3) (arr : list Tx) : list Tx :=
  match arr with
  | [] => arr
  | _ => splice1 arr (nearestFrom p arr 0 0 PosInf)
  end.

(** ** Keyboard navigation (WASD + QE) *)

Record Keys : Type := mkKeys {
  KeyW : bool; KeyA : bool; KeyS : bool; KeyD : bool;
  KeyQ : bool; KeyE : bool; Space : bool;
  ControlLeft : bool; ControlRight : bool;
  ShiftLeft : bool; ShiftRight : bool
}.

Definition crossVectors (a b : Vector3) : Vector3 :=
  vec3 (vy a * vz b - vz a * vy b)
       (vz a * vx b - vx a * vz b)
       (vx a * vy b - vy a * vx b).

Definition lengthSq (a : Vector3) : R := dot a a.

(** The move direction the pressed keys add up to, before it is
    normalised: [camDir] is the camera's world direction, [camUp] its up
    vector. *)
Definition keyMove (st : Keys) (camDir camUp : Vector3) : Vector3 :=
  let up := normalize camUp in
  let flat := set_y camDir 0 in
  let fwd := if Req_dec_T (lengthSq flat) 0 then vec3 0 0 (-1)
             else normalize flat in
  let right := normalize (crossVectors fwd up) in
  let add_if (c : bool) (v : Vector3) (m : Vector3) := if c then v_add m v else m in
  let sub_if (c : bool) (v : Vector3) (m : Vector3) := if c then v_sub m v else m in
  sub_if (ControlLeft st || ControlRight st) up
    (add_if (Space st) up
      (sub_if (KeyE st) up
        (add_if (KeyQ st) up
          (add_if (KeyD st) right
            (sub_if (KeyA st) right
              (sub_if (KeyS st) fwd
                (add_if (KeyW st) fwd (vec3 0 0 0)))))))).

Definition clampToBounds (bounds : Box3) (q : Vector3) : Vector3 :=
  let padding := 40 in      (* small buffer around the city *)
  let floorOffset := 5 in   (* keep camera some units above min Y *)
  let minY := vy (box_min bounds) + floorOffset in
  let maxY := vy (box_max bounds) + 400 in
  let minX := vx (box_min bounds) - padding in
  let maxX := vx (box_max bounds) + padding in
  let minZ := vz (box_min bounds) - padding in
  let maxZ := vz (box_max bounds) + padding in
  vec3 (clamp (vx q) minX maxX) (clamp (vy q) minY maxY) (clamp (vz q) minZ maxZ).

(** One frame of [KeyboardNavigation]: the next camera position and
    orbit target, [None] when no key moves the camera. *)
Definition keyboardFrame (st : Keys) (camPos target camDir camUp : Vector3)
  (dt : R) (bounds : option Box3) : option (Vector3 * Vector3) :=
  let move0 := keyMove st camDir camUp in
  if Req_dec_T (lengthSq move0) 0 then None
  else
    let dist := distanceTo camPos target in
    let speed0 := Rmax 150 (100 + dist * 0.1) in
    let speed := if ShiftLeft st || ShiftRight st then speed0 * 3 else speed0 in
    let step := speed * dt in
    let move := multiplyScalar (normalize move0) step in
    let nextCam := v_add camPos move in
    let nextTarget := v_add target move in
    match bounds with
    | Some b => Some (clampToBounds b nextCam, clampToBounds b nextTarget)
    | None => Some (nextCam, nextTarget)
    end.

(** [q] is inside the box [bounds] grown by the navigation margins *)
Definition insideFlightBox (bounds : Box3) (q : Vector3) : Prop :=
  vx (box_min bounds) - 40 <= vx q <= vx (box_max bounds) + 40 /\
  vy (box_min bounds) + 5 <= vy q <= vy (box_max bounds) + 400 /\
  vz (box_min bounds) - 40 <= vz q <= vz (box_max bounds) + 40.

Definition noKeys : Keys :=
  mkKeys false false false false false false false false false false false.

(** ** Camera fly-in *)

Definition easeInOut (t : R) : R :=
  if Rlt_dec t 0.5 then 2 * t * t else 1 - (-2 * t + 2) ^ 2 / 2.

(** One animated frame of [CameraSetup]: the new [tRef], the camera
    position and whether the animation goes on. *)
Definition flyFrame (start target : Vector3) (tRef delta : R)
  : R * Vector3 * bool :=
  let tRef' := tRef + delta / 4 in   (* 4s *)
  let t := Rmin tRef' 1 in
  let k := easeInOut t in
  (tRef', lerpVectors start target k, negb (Rgeb t 1)).

(** * Properties *)

(** ** Real-number helpers *)

Lemma Rgtb_true (a b : R) : Rgtb a b = true <-> b < a.
Proof. unfold Rgtb; destruct (Rlt_dec b a); split; auto; discriminate. Qed.

Lemma Rgtb_false (a b : R) : Rgtb a b = false <-> a <= b.
Proof.
  unfold Rgtb; destruct (Rlt_dec b a); split; auto; try discriminate; lra.
Qed.

Lemma Rgeb_true (a b : R) : Rgeb a b = true <-> b <= a.
Proof. unfold Rgeb; destruct (Rle_dec b a); split; auto; discriminate. Qed.

Lemma Rgeb_false (a b : R) : Rgeb a b = false <-> a < b.
Proof.
  unfold Rgeb; destruct (Rle_dec b a); split; auto; try discriminate; lra.
Qed.

Lemma Rleb_true (a b : R) : Rleb a b = true <-> a <= b.
Proof. unfold Rleb; destruct (Rle_dec a b); split; auto; discriminate. Qed.

Lemma Rleb_false (a b : R) : Rleb a b = false <-> b < a.
Proof.
  unfold Rleb; destruct (Rle_dec a b); split; auto; try discriminate; lra.
Qed.

Lemma ln10_pos : 0 < ln 10.
Proof. rewrite <- ln_1. apply ln_increasing; lra. Qed.

Lemma log10_increasing (x y : R) : 0 < x -> x < y -> log10 x < log10 y.
Proof.
  intros Hx Hxy. unfold log10.
  apply Rmult_lt_compat_r.
  - apply Rinv_0_lt_compat, ln10_pos.
  - now apply ln_increasing.
Qed.

Lemma log10_monotone (x y : R) : 0 < x -> x <= y -> log10 x <= log10 y.
Proof.
  intros Hx [Hlt | ->]; [left; now apply log10_increasing | right; reflexivity].
Qed.

Lemma log10_1 : log10 1 = 0.
Proof. unfold log10. rewrite ln_1. lra. Qed.

Lemma log10_pow (n : nat) : log10 (10 ^ n) = INR n.
Proof.
  unfold log10. rewrite ln_pow by lra. field.
  apply Rgt_not_eq, ln10_pos.
Qed.

Lemma log10_inv_pow (n : nat) : log10 (/ 10 ^ n) = - INR n.
Proof.
  unfold log10. rewrite ln_Rinv by (apply pow_lt; lra).
  rewrite ln_pow by lra. field. apply Rgt_not_eq, ln10_pos.
Qed.

Lemma fsplDb_unfold (d f : R) :
  fsplDb d f = 32.4 + 20 * log10 f + 20 * log10 (dKm_of d).
Proof. reflexivity. Qed.

Lemma dKm_of_pos (d : R) : 0 < dKm_of d.
Proof.
  unfold dKm_of. apply Rlt_le_trans with 0.001; [lra | apply Rmax_r].
Qed.

Lemma dKm_of_floor (d : R) : d <= 1 -> dKm_of d = 0.001.
Proof. intros H. unfold dKm_of. apply Rmax_right. lra. Qed.

Lemma dKm_of_far (d : R) : 1 <= d -> dKm_of d = d / 1000.
Proof. intros H. unfold dKm_of. apply Rmax_left. lra. Qed.

Lemma dKm_of_monotone (d1 d2 : R) : d1 <= d2 -> dKm_of d1 <= dKm_of d2.
Proof. intros H. unfold dKm_of. apply Rle_max_compat_r. lra. Qed.

(** ** The path loss as JavaScript evaluates it *)

Lemma Math_log10_positive (x : R) : 0 < x -> Math_log10 x = Fin (log10 x).
Proof.
  intros Hx. unfold Math_log10. destruct (Rlt_dec 0 x); [reflexivity | lra].
Qed.

(** On a positive frequency the path loss JavaScript computes is the real
    number [fsplDb]; at zero it is [-Infinity], below zero [NaN]. *)
Lemma fsplDb_ieee_values (d f : R) :
  (0 < f -> fsplDb_ieee d f = Fin (fsplDb d f)) /\
  (f = 0 -> fsplDb_ieee d f = NegInf) /\
  (f < 0 -> fsplDb_ieee d f = NaN).
Proof.
  unfold fsplDb_ieee. rewrite (Math_log10_positive _ (dKm_of_pos d)).
  unfold Math_log10. repeat split; intros Hf.
  - destruct (Rlt_dec 0 f); [| lra]. cbn. reflexivity.
  - destruct (Rlt_dec 0 f); [lra |].
    destruct (Req_dec_T f 0); [| lra].
    cbn. unfold num_signed.
    destruct (Rlt_dec 0 20); [reflexivity | lra].
  - destruct (Rlt_dec 0 f); [lra |].
    destruct (Req_dec_T f 0); [lra | reflexivity].
Qed.

Lemma received_ieee_positive (t : Tx) (dist : R) (los : bool) :
  0 < freqMHz t ->
  received_ieee t dist los
  = Fin (powerDbm t
         - (fsplDb dist (freqMHz t) + (if los then 0 else WALL_LOSS_DB))).
Proof.
  intros Hf. unfold received_ieee.
  destruct (fsplDb_ieee_values dist (freqMHz t)) as [H _].
  rewrite (H Hf). reflexivity.
Qed.

(** ** Path-loss model *)

(** C3, as stated, fails: below the one-metre floor the loss is flat. *)
Lemma fspl_flat_below_floor :
  0 < 0.5 /\ 0.5 < 1 /\ 0 < 2400 /\ ~ (fsplDb 1 2400 > fsplDb 0.5 2400).
Proof.
  repeat split; try lra.
  rewrite !fsplDb_unfold, !dKm_of_floor by lra. lra.
Qed.

(** C3 (amended): for a fixed positive frequency the free-space path loss
    never decreases with distance; between two distances [d1 < d2] it
    increases strictly as soon as [d2] is beyond one metre, also when
    [d1] is below the floor, and it is the same at both when [d2] is at
    most one metre, where the floor holds the distance at 1 m. *)
Theorem fspl_monotone_in_distance (d1 d2 f : R) :
  0 < d1 -> d1 < d2 -> 0 < f ->
  fsplDb d1 f <= fsplDb d2 f /\
  (1 < d2 -> fsplDb d1 f < fsplDb d2 f) /\
  (d2 <= 1 -> fsplDb d1 f = fsplDb d2 f) /\
  (d2 <= 1 -> fsplDb d2 f = fsplDb 1 f) /\
  (1 <= d2 -> fsplDb d2 f = 32.4 + 20 * log10 f + 20 * log10 (d2 / 1000)).
Proof.
  intros Hd1 Hlt Hf. rewrite !fsplDb_unfold.
  split; [| split; [| split; [| split]]];
    [| | | | intros H2; rewrite dKm_of_far by lra; reflexivity].
  - assert (log10 (dKm_of d1) <= log10 (dKm_of d2)).
    { apply log10_monotone; [apply dKm_of_pos | apply dKm_of_monotone; lra]. }
    lra.
  - intros H2. rewrite (dKm_of_far d2) by lra.
    assert (log10 (dKm_of d1) < log10 (d2 / 1000)); [| lra].
    apply log10_increasing; [apply dKm_of_pos |].
    unfold dKm_of. apply Rmax_lub_lt; lra.
  - intros H2. rewrite !dKm_of_floor by lra. reflexivity.
  - intros H2. rewrite !dKm_of_floor by lra. reflexivity.
Qed.

Lemma fspl_monotone_in_distance_witness :
  fsplDb 0.5 2400 < fsplDb 2 2400 /\
  fsplDb 0.25 2400 = fsplDb 0.5 2400 /\
  fsplDb 0.5 2400 = fsplDb 1 2400.
Proof.
  destruct (fspl_monotone_in_distance 0.5 2 2400
              ltac:(lra) ltac:(lra) ltac:(lra)) as (_ & Hs & _).
  destruct (fspl_monotone_in_distance 0.25 0.5 2400
              ltac:(lra) ltac:(lra) ltac:(lra)) as (_ & _ & He & Hf & _).
  split; [apply Hs; lra | split; [apply He; lra | apply Hf; lra]].
Defined.

(** ** Softmax weights *)

Lemma fold_left_Rplus_acc (l : list R) (a : R) :
  fold_left Rplus l a = a + fold_left Rplus l 0.
Proof.
  revert a. induction l as [| x l IH]; intros a; simpl.
  - lra.
  - rewrite IH, (IH (0 + x)). lra.
Qed.

Lemma reduce_add_nil : reduce_add [] = 0.
Proof. reflexivity. Qed.

Lemma reduce_add_cons (x : R) (l : list R) :
  reduce_add (x :: l) = x + reduce_add l.
Proof.
  unfold reduce_add. simpl. rewrite fold_left_Rplus_acc. lra.
Qed.

Lemma reduce_add_app (l1 l2 : list R) :
  reduce_add (l1 ++ l2) = reduce_add l1 + reduce_add l2.
Proof.
  induction l1 as [| x l1 IH]; simpl.
  - rewrite reduce_add_nil. lra.
  - rewrite !reduce_add_cons, IH. lra.
Qed.


Lemma reduce_add_exp_pos (g : R -> R) (v : R) (vs : list R) :
  0 < reduce_add (map (fun x => exp (g x)) (v :: vs)).
Proof.
  revert v. induction vs as [| w vs IH]; intros v.
  - simpl. rewrite reduce_add_cons, reduce_add_nil.
    pose proof (exp_pos (g v)). lra.
  - change (map (fun x => exp (g x)) (v :: w :: vs))
      with (exp (g v) :: map (fun x => exp (g x)) (w :: vs)).
    rewrite reduce_add_cons.
    pose proof (exp_pos (g v)). pose proof (IH w). lra.
Qed.

(** What [softmaxDbm] returns on a non-empty list: the [|| 1] fallback is
    never taken, because the sum of exponentials is positive. *)
Lemma softmaxDbm_cons (v0 : R) (vs : list R) (temp : R) :
  let maxv := Math_max v0 vs in
  let exps := map (fun v => exp ((v - maxv) / temp)) (v0 :: vs) in
  softmaxDbm (v0 :: vs) temp =
  (map (fun e => e / reduce_add exps) exps, indexOf (v0 :: vs) maxv)
  /\ 0 < reduce_add exps.
Proof.
  intros maxv exps.
  assert (Hpos : 0 < reduce_add exps)
    by apply (reduce_add_exp_pos (fun v => (v - maxv) / temp)).
  split; [| exact Hpos].
  unfold softmaxDbm. fold maxv. fold exps.
  destruct (Req_dec_T (reduce_add exps) 0) as [E | _]; [lra | reflexivity].
Qed.


(** ** Sorting by descending power *)

Lemma insert_desc_perm (a : R) (l : list R) :
  Permutation (a :: l) (insert_by descCmp a l).
Proof.
  induction l as [| b l IH]; simpl; [reflexivity |].
  destruct (Rgtb (descCmp a b) 0); [| reflexivity].
  rewrite perm_swap. now apply perm_skip.
Qed.

Lemma sort_desc_perm (l : list R) : Permutation l (sort_desc l).
Proof.
  unfold sort_desc.
  induction l as [| a l IH]; simpl; [constructor |].
  rewrite <- insert_desc_perm. now apply perm_skip.
Qed.

Lemma sort_desc_length (l : list R) :
  List.length (sort_desc l) = List.length l.
Proof. symmetry. apply Permutation_length, sort_desc_perm. Qed.

Lemma insert_desc_sorted (a : R) (l : list R) :
  descending l -> descending (insert_by descCmp a l).
Proof.
  unfold descending. induction l as [| b l IH]; intros Hs; simpl.
  - repeat constructor.
  - unfold descCmp at 1. destruct (Rgtb (b - a) 0) eqn:E.
    + apply Rgtb_true in E. inversion Hs as [| ? ? Hs' Hhd]; subst.
      constructor; [now apply IH |].
      destruct l as [| c l]; simpl.
      * constructor. lra.
      * unfold descCmp at 1. destruct (Rgtb (c - a) 0); constructor; [| lra].
        inversion Hhd; subst. assumption.
    + apply Rgtb_false in E. constructor; [assumption |].
      constructor. lra.
Qed.

Lemma sort_desc_sorted (l : list R) : descending (sort_desc l).
Proof.
  unfold sort_desc.
  induction l as [| a l IH]; simpl; [constructor |].
  now apply insert_desc_sorted.
Qed.

Lemma descending_head_max (a : R) (l : list R) :
  descending (a :: l) -> forall x, In x (a :: l) -> x <= a.
Proof.
  intros Hs. apply Sorted_StronglySorted in Hs.
  - inversion Hs as [| ? ? _ Hall]; subst.
    intros x [<- | Hx]; [lra |].
    rewrite Forall_forall in Hall. now apply Hall.
  - intros x y z Hxy Hyz. lra.
Qed.

(** ** The maximum of a non-empty list *)

Lemma Math_max_ge_init (v0 : R) (vs : list R) : v0 <= Math_max v0 vs.
Proof.
  unfold Math_max. revert v0. induction vs as [| v vs IH]; intros v0; simpl.
  - lra.
  - eapply Rle_trans; [apply (Rmax_l v0 v) | apply IH].
Qed.

Lemma Math_max_upper (v0 : R) (vs : list R) (x : R) :
  In x (v0 :: vs) -> x <= Math_max v0 vs.
Proof.
  unfold Math_max. revert v0. induction vs as [| v vs IH]; intros v0 Hin.
  - destruct Hin as [E | []]. subst. simpl. lra.
  - simpl. destruct Hin as [E | [E | Hin]].
    + subst. eapply Rle_trans; [apply (Rmax_l x v) |].
      apply (Math_max_ge_init (Rmax x v) vs).
    + subst. eapply Rle_trans; [apply (Rmax_r v0 x) |].
      apply (Math_max_ge_init (Rmax v0 x) vs).
    + apply IH. now right.
Qed.

Lemma Math_max_in (v0 : R) (vs : list R) : In (Math_max v0 vs) (v0 :: vs).
Proof.
  unfold Math_max. revert v0. induction vs as [| v vs IH]; intros v0; simpl.
  - now left.
  - destruct (IH (Rmax v0 v)) as [E | Hin].
    + rewrite <- E. unfold Rmax. destruct (Rle_dec v0 v); auto.
    + now right; right.
Qed.

(** The head of the sorted powers is [Math.max] of them. *)
Lemma sort_desc_head (v0 : R) (vs : list R) :
  exists rest, sort_desc (v0 :: vs) = Math_max v0 vs :: rest.
Proof.
  pose proof (sort_desc_perm (v0 :: vs)) as Hp.
  pose proof (sort_desc_sorted (v0 :: vs)) as Hs.
  destruct (sort_desc (v0 :: vs)) as [| s0 rest] eqn:E.
  - apply Permutation_length in Hp. discriminate.
  - exists rest. f_equal. apply Rle_antisym.
    + apply Math_max_upper. eapply Permutation_in; [symmetry; exact Hp |].
      now left.
    + apply (descending_head_max s0 rest Hs).
      eapply Permutation_in; [exact Hp | apply Math_max_in].
Qed.

(** ** The point probe *)

Section Probe.

Context {Object3D : Type}.
Variable io : Vector3 -> Vector3 -> R -> list Object3D -> list Intersection.
Variable p : Vector3.
Variable meshes : list Object3D.

Lemma forEachTx_probeAll (idx : nat) (txs : list Tx)
  (pr : list R) (rws : list ProbeRow) :
  forEachTx io p meshes idx txs pr rws =
  (pr ++ map fst (probeAll io p meshes idx txs),
   rws ++ map snd (probeAll io p meshes idx txs)).
Proof.
  revert idx pr rws. induction txs as [| t txs IH]; intros idx pr rws; simpl.
  - now rewrite !app_nil_r.
  - destruct (probeTx io p meshes idx t) as [val row] eqn:E.
    rewrite IH, <- !app_assoc. reflexivity.
Qed.

Lemma probeAll_length (idx : nat) (txs : list Tx) :
  List.length (probeAll io p meshes idx txs) = List.length txs.
Proof.
  revert idx. induction txs as [| t txs IH]; intros idx; simpl; auto.
Qed.

Lemma powers_length (txs : list Tx) :
  List.length (powers io p meshes txs) = List.length txs.
Proof. unfold powers. now rewrite length_map, probeAll_length. Qed.

Lemma probeAll_rows_pr (idx : nat) (txs : list Tx) :
  map row_pr (map snd (probeAll io p meshes idx txs))
  = map fst (probeAll io p meshes idx txs).
Proof.
  revert idx. induction txs as [| t txs IH]; intros idx; simpl;
    [reflexivity | now rewrite IH].
Qed.

(** The payload, field by field, in terms of the received powers *)
Lemma probeAtWithRc_fields (txs : list Tx) :
  let r := probeAtWithRc io p txs meshes in
  let pr := powers io p meshes txs in
  let sorted := sort_desc pr in
  let best := match sorted with s0 :: _ => Fin s0 | [] => NegInf end in
  let secondBest := match sorted with _ :: s1 :: _ => Fin s1 | _ => best end in
  rows r = map snd (probeAll io p meshes 0 txs) /\
  weights r = fst (softmaxDbm pr 4) /\
  bestIdx r = ((if (snd (softmaxDbm pr 4) >=? 0)%Z
                then snd (softmaxDbm pr 4) else 0) + 1)%Z /\
  bestPower r = best /\
  margin r = num_sub best secondBest /\
  qualityTier r = tierOf best /\
  interferenceCount r = List.length (filter (fun v => Rgtb v (-80)) pr) /\
  handoverStable r = num_geb (margin r) (Fin 3.0).
Proof.
  unfold probeAtWithRc, powers. rewrite forEachTx_probeAll. simpl app.
  destruct (softmaxDbm (map fst (probeAll io p meshes 0 txs)) 4) as [ws bi].
  cbn. repeat split; reflexivity.
Qed.

Lemma map_row_pr_rows (txs : list Tx) :
  map row_pr (rows (probeAtWithRc io p txs meshes)) = powers io p meshes txs.
Proof.
  destruct (probeAtWithRc_fields txs) as [-> _]. apply probeAll_rows_pr.
Qed.

Lemma powers_nonempty (txs : list Tx) :
  txs <> [] -> exists v0 vs, powers io p meshes txs = v0 :: vs.
Proof.
  intros Hne. pose proof (powers_length txs) as Hl.
  destruct (powers io p meshes txs) as [| v0 vs]; [| now eauto].
  destruct txs; [congruence | discriminate].
Qed.

(** The best power of a non-empty probe is the largest received power. *)
Lemma bestPower_is_max (txs : list Tx) (v0 : R) (vs : list R) :
  powers io p meshes txs = v0 :: vs ->
  bestPower (probeAtWithRc io p txs meshes) = Fin (Math_max v0 vs).
Proof.
  intros E. destruct (probeAtWithRc_fields txs) as (_ & _ & _ & -> & _).
  rewrite E. destruct (sort_desc_head v0 vs) as [rest ->]. reflexivity.
Qed.

(** On positive frequencies every row holds the finite power JavaScript
    computes for its transmitter. *)
Lemma probeAll_received (txs : list Tx) :
  positiveFreq txs ->
  forall idx, Forall2 (rowReceived p) txs (map snd (probeAll io p meshes idx txs)).
Proof.
  induction 1 as [| t txs Ht _ IH]; intros idx; cbn [probeAll map].
  - constructor.
  - constructor; [| apply IH].
    unfold rowReceived, probeTx, distanceTo. cbn [snd row_los row_pr].
    now rewrite received_ieee_positive.
Qed.

Lemma probe_rows_received (txs : list Tx) :
  positiveFreq txs ->
  Forall2 (rowReceived p) txs (rows (probeAtWithRc io p txs meshes)).
Proof.
  intros Hf. destruct (probeAtWithRc_fields txs) as [-> _].
  now apply probeAll_received.
Qed.

End Probe.

(** ** Worked distances and losses *)

Lemma v_length_axis (a : R) : v_length (vec3 a 0 0) = Rabs a.
Proof.
  unfold v_length. simpl.
  replace (a * a + 0 * 0 + 0 * 0) with (Rsqr a) by (unfold Rsqr; ring).
  apply sqrt_Rsqr_abs.
Qed.

Lemma log10_1000 : log10 1000 = 3.
Proof.
  replace 1000 with (10 ^ 3) by lra. rewrite log10_pow. simpl. lra.
Qed.

Lemma fsplDb_1km_1GHz : fsplDb 1000 1000 = 92.4.
Proof.
  rewrite fsplDb_unfold, dKm_of_far by lra.
  replace (1000 / 1000) with 1 by lra.
  rewrite log10_1000, log10_1. lra.
Qed.

Lemma powers_txEast (P : R) :
  powers openSky origin3 [tt] [txEast P] = [P - 92.4].
Proof.
  unfold powers. simpl. unfold v_sub, origin3. simpl.
  replace (1000 - 0) with 1000 by lra. replace (0 - 0) with 0 by lra.
  rewrite v_length_axis, Rabs_right by lra.
  rewrite fsplDb_1km_1GHz. f_equal. lra.
Qed.

(** ** Quality tier *)

Lemma tierOf_Fin (b : R) :
  (b > -70 -> tierOf (Fin b) = excellent) /\
  (-85 < b <= -70 -> tierOf (Fin b) = good) /\
  (-100 < b <= -85 -> tierOf (Fin b) = fair) /\
  (-110 < b <= -100 -> tierOf (Fin b) = poor) /\
  (b <= -110 -> tierOf (Fin b) = dead).
Proof.
  unfold tierOf, num_gtb, MIN_POWER_DBM.
  repeat split; intros H;
    destruct (Rgtb b (-70)) eqn:E1; destruct (Rgtb b (-85)) eqn:E2;
    destruct (Rgtb b (-100)) eqn:E3; destruct (Rgtb b (-110)) eqn:E4;
    try reflexivity;
    repeat match goal with
           | E : Rgtb _ _ = true |- _ => apply Rgtb_true in E
           | E : Rgtb _ _ = false |- _ => apply Rgtb_false in E
           end; lra.
Qed.

Lemma positiveFreq_txEast (P : R) : positiveFreq [txEast P].
Proof. repeat constructor. simpl. lra. Qed.

Lemma positiveFreq_east_west (P Q : R) : positiveFreq [txEast P; txWest Q].
Proof. repeat constructor; simpl; lra. Qed.

(** C1: over a non-empty set of transmitters on positive frequencies
    every row holds the finite received power of its transmitter, the
    probe's best power is the largest of them, and the quality tier is
    the step function of it with strict thresholds -70, -85, -100 and
    -110 dBm; exactly -70.0 is "good" and -69.9 is "excellent". *)
Theorem quality_tier_step_function {Object3D : Type}
  (io : Vector3 -> Vector3 -> R -> list Object3D -> list Intersection)
  (p : Vector3) (txs : list Tx) (meshes : list Object3D) :
  txs <> [] -> positiveFreq txs ->
  let r := probeAtWithRc io p txs meshes in
  Forall2 (rowReceived p) txs (rows r) /\
  qualityTier r = tierOf (bestPower r) /\
  exists best : R,
    bestPower r = Fin best /\
    In best (map row_pr (rows r)) /\
    (forall row, In row (rows r) -> row_pr row <= best) /\
    (best > -70 -> qualityTier r = excellent) /\
    (-85 < best <= -70 -> qualityTier r = good) /\
    (-100 < best <= -85 -> qualityTier r = fair) /\
    (-110 < best <= -100 -> qualityTier r = poor) /\
    (best <= -110 -> qualityTier r = dead) /\
    (best = -70.0 -> qualityTier r = good) /\
    (best = -69.9 -> qualityTier r = excellent).
Proof.
  intros Hne Hfreq r.
  split; [now apply probe_rows_received |].
  destruct (powers_nonempty io p meshes txs Hne) as (v0 & vs & E).
  pose proof (bestPower_is_max io p meshes txs v0 vs E) as Hbest.
  pose proof (map_row_pr_rows io p meshes txs) as Hrows.
  destruct (probeAtWithRc_fields io p meshes txs)
    as (_ & _ & _ & Hbp & _ & Htier & _).
  fold r in Hbest, Hrows, Htier, Hbp. cbv zeta in Htier, Hbp.
  split; [now rewrite Htier, Hbp |].
  assert (Hb : match sort_desc (powers io p meshes txs) with
               | s0 :: _ => Fin s0 | [] => NegInf end = Fin (Math_max v0 vs)).
  { rewrite E. destruct (sort_desc_head v0 vs) as [rest ->]. reflexivity. }
  rewrite Hb in Htier. clear Hb.
  exists (Math_max v0 vs).
  destruct (tierOf_Fin (Math_max v0 vs)) as (T1 & T2 & T3 & T4 & T5).
  rewrite Hrows, E, Htier.
  split; [exact Hbest |].
  split; [apply Math_max_in |].
  split.
  { intros row Hrow. apply Math_max_upper. rewrite <- E, <- Hrows.
    now apply in_map. }
  repeat split; auto; intros Hv; [apply T2 | apply T1]; lra.
Qed.

Lemma quality_tier_step_function_witness :
  qualityTier (probeAtWithRc openSky origin3 [txEast 22.4] [tt]) = good.
Proof.
  destruct (quality_tier_step_function openSky origin3 [txEast 22.4] [tt])
    as (_ & _ & best & Hb & Hin & _ & _ & _ & _ & _ & _ & Hgood & _).
  - discriminate.
  - apply positiveFreq_txEast.
  - apply Hgood.
    rewrite map_row_pr_rows, powers_txEast in Hin.
    destruct Hin as [<- | []]. lra.
Defined.

(** At exactly -70 dBm the probe answers "good", a tenth of a dB above it
    answers "excellent". *)
Example tier_boundary_probes :
  let at_70 := probeAtWithRc openSky origin3 [txEast 22.4] [tt] in
  let above := probeAtWithRc openSky origin3 [txEast 22.5] [tt] in
  bestPower at_70 = Fin (-70.0) /\ qualityTier at_70 = good /\
  bestPower above = Fin (-69.9) /\ qualityTier above = excellent.
Proof.
  assert (H : forall P, bestPower (probeAtWithRc openSky origin3 [txEast P] [tt])
                        = Fin (P - 92.4)).
  { intros P. rewrite (bestPower_is_max _ _ _ _ _ _ (powers_txEast P)).
    reflexivity. }
  assert (T : forall P, qualityTier (probeAtWithRc openSky origin3 [txEast P] [tt])
                        = tierOf (Fin (P - 92.4))).
  { intros P.
    destruct (probeAtWithRc_fields openSky origin3 [tt] [txEast P])
      as (_ & _ & _ & Hb & _ & Ht & _).
    cbv zeta in Hb, Ht. rewrite Ht, <- Hb. now rewrite H. }
  cbv zeta. rewrite !H, !T.
  replace (22.4 - 92.4) with (-70.0) by lra.
  replace (22.5 - 92.4) with (-69.9) by lra.
  destruct (tierOf_Fin (-70.0)) as (_ & T2 & _).
  destruct (tierOf_Fin (-69.9)) as (T1 & _).
  repeat split; [apply T2 | apply T1]; lra.
Qed.

(** ** Line of sight and the obstruction penalty *)

Lemma probeAll_nth_error {Object3D : Type}
  (io : Vector3 -> Vector3 -> R -> list Object3D -> list Intersection)
  (p : Vector3) (meshes : list Object3D) (txs : list Tx) (idx i : nat) (t : Tx) :
  nth_error txs i = Some t ->
  nth_error (probeAll io p meshes idx txs) i
  = Some (probeTx io p meshes (idx + i) t).
Proof.
  revert idx i. induction txs as [| t' txs IH]; intros idx i H.
  - destruct i; discriminate.
  - destruct i as [| i]; simpl in *.
    + injection H as ->. now rewrite Nat.add_0_r.
    + rewrite (IH (S idx) i H). do 2 f_equal. lia.
Qed.

(** C4: the row of every transmitter is decided by the single raycast
    from the probe point towards it, bounded to [max (dist - 0.25, 0.25)]:
    any hit makes the row non-line-of-sight and its power exactly 25 dB
    below the unobstructed value; no hit leaves free-space loss only and
    the line-of-sight flag set. *)
Theorem obstruction_penalty_25dB {Object3D : Type}
  (io : Vector3 -> Vector3 -> R -> list Object3D -> list Intersection)
  (p : Vector3) (txs : list Tx) (meshes : list Object3D) (i : nat) (t : Tx) :
  nth_error txs i = Some t ->
  let dist := v_length (v_sub (pos t) p) in
  let unobstructed := powerDbm t - fsplDb dist (freqMHz t) in
  let hits := io p (normalize (v_sub (pos t) p))
                 (Rmax (dist - 0.25) 0.25) meshes in
  exists row,
    nth_error (rows (probeAtWithRc io p txs meshes)) i = Some row /\
    (hits <> [] -> row_los row = false /\ row_pr row = unobstructed - 25) /\
    (hits = [] -> row_los row = true /\ row_pr row = unobstructed).
Proof.
  intros Hnth dist unobstructed hits.
  destruct (probeAtWithRc_fields io p meshes txs) as [-> _].
  exists (snd (probeTx io p meshes (0 + i) t)). split.
  - rewrite nth_error_map, (probeAll_nth_error io p meshes txs 0 i t Hnth).
    reflexivity.
  - unfold probeTx. fold dist. fold hits. cbn [snd row_los row_pr].
    unfold unobstructed, WALL_LOSS_DB.
    split; intros H; destruct hits; try congruence; split; try reflexivity; lra.
Qed.

Lemma obstruction_penalty_25dB_witness :
  exists row,
    nth_error (rows (probeAtWithRc (surfaceAt 500) origin3 [txEast 36] [tt])) 0
    = Some row /\
    row_los row = false /\
    row_pr row = (36 - fsplDb (v_length (v_sub (vec3 1000 0 0) origin3)) 1000) - 25.
Proof.
  destruct (obstruction_penalty_25dB (surfaceAt 500) origin3 [txEast 36] [tt]
              0 (txEast 36) eq_refl) as (row & Hrow & Hhit & _).
  exists row. split; [exact Hrow |]. apply Hhit. discriminate.
Defined.

(** ** Margin and handover stability *)

(** With two or more transmitters the margin is the best power minus the
    second best. *)
Lemma margin_two_or_more {Object3D : Type}
  (io : Vector3 -> Vector3 -> R -> list Object3D -> list Intersection)
  (p : Vector3) (txs : list Tx) (meshes : list Object3D) :
  (2 <= List.length txs)%nat ->
  let r := probeAtWithRc io p txs meshes in
  exists s0 s1 rest,
    sort_desc (powers io p meshes txs) = s0 :: s1 :: rest /\
    bestPower r = Fin s0 /\ margin r = Fin (s0 - s1).
Proof.
  intros Hlen r.
  destruct (probeAtWithRc_fields io p meshes txs)
    as (_ & _ & _ & Hb & Hm & _).
  fold r in Hb, Hm. cbv zeta in Hb, Hm.
  pose proof (sort_desc_length (powers io p meshes txs)) as Hl.
  rewrite powers_length in Hl.
  destruct (sort_desc (powers io p meshes txs)) as [| s0 [| s1 rest]];
    simpl in Hl; try lia.
  exists s0, s1, rest. repeat split; assumption.
Qed.

(** C5 at a single transmitter: the probe takes the best power for the
    missing second best, so its margin is 0 dB and the handover flag is
    off, where the explanation route reports an infinite margin and a
    stable handover for the same transmitter list. *)
Theorem single_transmitter_margin_zero {Object3D : Type}
  (io : Vector3 -> Vector3 -> R -> list Object3D -> list Intersection)
  (p : Vector3) (t : Tx) (meshes : list Object3D) :
  let r := probeAtWithRc io p [t] meshes in
  margin r = Fin 0 /\ handoverStable r = false /\
  POST_margin p [t] = Some (PosInf, true).
Proof.
  intros r.
  destruct (probeAtWithRc_fields io p meshes [t])
    as (_ & _ & _ & _ & Hm & _ & _ & Hs).
  fold r in Hm, Hs. cbv zeta in Hm.
  assert (E : margin r = Fin 0).
  { rewrite Hm. unfold powers. simpl. f_equal. lra. }
  split; [exact E | split; [| reflexivity]].
  rewrite Hs, E. unfold num_geb. apply Rgeb_false. lra.
Qed.




Lemma powers_east_west (P1 P2 : R) :
  powers openSky origin3 [tt] [txEast P1; txWest P2] = [P1 - 92.4; P2 - 92.4].
Proof.
  unfold powers. simpl. unfold v_sub, origin3. simpl.
  replace (1000 - 0) with 1000 by lra. replace (-1000 - 0) with (-1000) by lra.
  replace (0 - 0) with 0 by lra.
  rewrite !v_length_axis, (Rabs_right 1000), (Rabs_left (-1000)) by lra.
  replace (- -1000) with 1000 by lra.
  rewrite fsplDb_1km_1GHz. repeat f_equal; lra.
Qed.

Lemma margin_east_west (P1 P2 : R) :
  P2 <= P1 ->
  margin (probeAtWithRc openSky origin3 [txEast P1; txWest P2] [tt])
  = Fin (P1 - P2).
Proof.
  intros Hle.
  destruct (probeAtWithRc_fields openSky origin3 [tt] [txEast P1; txWest P2])
    as (_ & _ & _ & _ & -> & _).
  rewrite powers_east_west. unfold sort_desc. simpl. unfold descCmp.
  assert (E : Rgtb (P2 - 92.4 - (P1 - 92.4)) 0 = false)
    by (apply Rgtb_false; lra).
  rewrite E. simpl. f_equal. lra.
Qed.

(** Two transmitters 3.0 dB apart give a stable handover, 2.99 dB apart
    an unstable one. *)
Example handover_boundary_probes :
  let stable := probeAtWithRc openSky origin3 [txEast 36; txWest 33] [tt] in
  let shaky := probeAtWithRc openSky origin3 [txEast 36; txWest 33.01] [tt] in
  margin stable = Fin 3.0 /\ handoverStable stable = true /\
  margin shaky = Fin 2.99 /\ handoverStable shaky = false.
Proof.
  cbv zeta.
  assert (M1 : margin (probeAtWithRc openSky origin3 [txEast 36; txWest 33] [tt])
               = Fin 3.0).
  { rewrite margin_east_west by lra. f_equal. lra. }
  assert (M2 : margin (probeAtWithRc openSky origin3 [txEast 36; txWest 33.01] [tt])
               = Fin 2.99).
  { rewrite margin_east_west by lra. f_equal. lra. }
  destruct (probeAtWithRc_fields openSky origin3 [tt] [txEast 36; txWest 33])
    as (_ & _ & _ & _ & _ & _ & _ & S1).
  destruct (probeAtWithRc_fields openSky origin3 [tt] [txEast 36; txWest 33.01])
    as (_ & _ & _ & _ & _ & _ & _ & S2).
  rewrite S1, S2, M1, M2. simpl.
  repeat split; [apply Rgeb_true | apply Rgeb_false]; lra.
Qed.


(** ** The empty transmitter set *)

(** C8, as stated, fails on the best index: the probe of an empty set
    names row 1 as best server although there is no row, and its NaN
    margin counts as unstable, not as unbounded. *)
Lemma empty_probe_names_a_best_index :
  let r := probeAtWithRc openSky origin3 [] [tt] in
  rows r = [] /\ bestIdx r = 1%Z /\ snd (softmaxDbm [] 4) = (-1)%Z /\
  margin r = NaN /\ handoverStable r = false.
Proof. cbv zeta. repeat split. Qed.

(** C8 (amended): probing with no transmitters is total and returns the
    payload with no rows and no weights, best power [-Infinity], a NaN
    margin, tier "dead", no interferer, the handover flag off, and best
    index 1, the 1-based image of softmax's [-1]. *)
Theorem probe_empty_transmitter_set {Object3D : Type}
  (io : Vector3 -> Vector3 -> R -> list Object3D -> list Intersection)
  (p : Vector3) (meshes : list Object3D) :
  probeAtWithRc io p [] meshes
  = mkPayload [] 1%Z NaN NegInf dead 0%nat false [].
Proof. reflexivity. Qed.

(** ** Softmax normalization *)



(** ** Reflection loss is a loss *)

Lemma cauchy_schwarz3 (a b : Vector3) :
  dot a b * dot a b <= dot a a * dot b b.
Proof.
  destruct a as [ax ay az], b as [bx by' bz]. unfold dot. simpl.
  pose proof (Rle_0_sqr (ax * by' - ay * bx)).
  pose proof (Rle_0_sqr (ax * bz - az * bx)).
  pose proof (Rle_0_sqr (ay * bz - az * by')).
  unfold Rsqr in *. nra.
Qed.

Lemma dot_self_nonneg (a : Vector3) : 0 <= dot a a.
Proof. destruct a as [ax ay az]. unfold dot. simpl. nra. Qed.

Lemma normalize_norm_le_1 (a : Vector3) :
  dot (normalize a) (normalize a) <= 1.
Proof.
  pose proof (dot_self_nonneg a) as Hs.
  unfold normalize. fold (dot a a) in *.
  assert (Hl : v_length a = sqrt (dot a a)) by reflexivity.
  set (l := v_length a) in *.
  destruct (Req_dec_T l 0) as [E | NE].
  - assert (dot a a = 0) by (apply sqrt_eq_0; [exact Hs | congruence]).
    destruct a as [ax ay az]. unfold dot, multiplyScalar in *. simpl in *. nra.
  - assert (Hsq : l * l = dot a a) by (rewrite Hl; now apply sqrt_sqrt).
    assert (Hpos : 0 < l * l) by nra.
    assert (E1 : dot (multiplyScalar a (1 / l)) (multiplyScalar a (1 / l))
                 = dot a a / (l * l)).
    { destruct a as [ax ay az]. unfold dot, multiplyScalar. simpl. now field. }
    rewrite E1, <- Hsq. right. field. lra.
Qed.

Lemma grazing_range (n d : Vector3) :
  0 <= 1 - Rabs (dot (normalize n) (normalize d)) <= 1.
Proof.
  pose proof (cauchy_schwarz3 (normalize n) (normalize d)) as Hcs.
  pose proof (normalize_norm_le_1 n) as Hn.
  pose proof (normalize_norm_le_1 d) as Hd.
  pose proof (dot_self_nonneg (normalize n)).
  pose proof (dot_self_nonneg (normalize d)).
  pose proof (Rabs_pos (dot (normalize n) (normalize d))).
  set (x := dot (normalize n) (normalize d)) in *.
  assert (Hx : x * x <= 1) by nra.
  assert (Rabs x <= 1) by (apply Rabs_le; split; nra).
  lra.
Qed.

Lemma materialReflectionLossDb_range (mt : option string) (n d : Vector3) :
  0 <= materialReflectionLossDb mt n d <= 20.
Proof.
  unfold materialReflectionLossDb. pose proof (grazing_range n d) as Hg.
  set (g := 1 - Rabs (dot (normalize n) (normalize d))) in *.
  destruct mt as [s |]; simpl.
  - destruct (String.eqb s "glass"); [lra |].
    destruct (String.eqb s "metal"); lra.
  - lra.
Qed.

(** The loss of any hop is at least the loss at the one-metre floor. *)
Lemma fsplDb_floor_least (d f : R) : fsplDb 1 f <= fsplDb d f.
Proof.
  rewrite !fsplDb_unfold.
  assert (log10 (dKm_of 1) <= log10 (dKm_of d)).
  { rewrite dKm_of_floor by lra. apply log10_monotone; [lra |].
    unfold dKm_of. apply Rmax_r. }
  lra.
Qed.

(** ** Ray bundles *)

Section Marching.

Context {Object3D : Type}.
Variable io : Vector3 -> Vector3 -> R -> list Object3D -> list Intersection.
Variable tx : Tx.
Variable meshes : list Object3D.

(** What one march appends to its hop and segment lists *)
Lemma march_profile (remaining : nat) :
  forall (origin dir : Vector3) (power : R) (first : bool)
         (hops0 : list RayHop) (segs0 : list Segment),
  exists newH newS,
    march io tx meshes remaining origin dir power first hops0 segs0
    = (hops0 ++ newH, segs0 ++ newS) /\
    List.length newS = List.length newH /\
    (List.length newH <= remaining)%nat /\
    haltsAtFloor (map prAfter newH) /\
    (0 <= fsplDb 1 (freqMHz tx) ->
     nonIncreasingFrom power (map prAfter newH)).
Proof.
  induction remaining as [| n IH]; intros origin dir power first hops0 segs0.
  - exists [], []. simpl. rewrite !app_nil_r. auto.
  - simpl. destruct (Rgtb power MIN_POWER_DBM).
    2: { exists [], []. simpl. rewrite !app_nil_r. repeat split; auto; lia. }
    destruct (io origin dir 5000 meshes) as [| hit _].
    { exists [], []. simpl. rewrite !app_nil_r. repeat split; auto; lia. }
    set (n0 := match hit_normal hit with Some fn => fn | None => vec3 0 1 0 end).
    set (fspl := fsplDb (hit_distance hit) (freqMHz tx)).
    set (refl := if first then 0
                 else materialReflectionLossDb (hit_materialType hit) n0 dir).
    set (power2 := if first then power - fspl else power - fspl - refl).
    set (hop := mkRayHop origin (hit_point hit) (hit_distance hit) fspl refl
                  (if first then "los"%string
                   else materialLabel (hit_materialType hit)) power2).
    set (sg := mkSegment (origin, hit_point hit) first (color tx)
                 (clamp ((power2 - MIN_POWER_DBM) / (DEFAULT_PWR - MIN_POWER_DBM))
                        0.15 1)).
    assert (Hdrop : 0 <= fsplDb 1 (freqMHz tx) -> power2 <= power).
    { intros H0. pose proof (fsplDb_floor_least (hit_distance hit) (freqMHz tx)).
      fold fspl in H.
      pose proof (materialReflectionLossDb_range (hit_materialType hit) n0 dir).
      unfold power2, refl. destruct first; lra. }
    destruct (Rleb power2 MIN_POWER_DBM) eqn:Efloor.
    + exists [hop], [sg]. simpl. repeat split; auto; try lia. congruence.
    + apply Rleb_false in Efloor.
      destruct (IH (v_add (hit_point hit) (multiplyScalar (reflect dir n0) 0.25))
                   (reflect dir n0) power2 false (hops0 ++ [hop]) (segs0 ++ [sg]))
        as (newH & newS & -> & Hlen & Hle & Hhalt & Hmono).
      exists (hop :: newH), (sg :: newS). rewrite <- !app_assoc. simpl.
      repeat split; auto; try lia.
Qed.

Lemma castRay_profile (maxBounces : nat) (dir : Vector3) :
  let '(hs, sgs) := castRay io tx meshes maxBounces dir in
  List.length sgs = List.length hs /\
  (List.length hs <= S maxBounces)%nat /\
  haltsAtFloor (map prAfter hs) /\
  (0 <= fsplDb 1 (freqMHz tx) ->
   nonIncreasingFrom (powerDbm tx) (map prAfter hs)).
Proof.
  unfold castRay.
  destruct (march_profile (S maxBounces)
              (v_add (pos tx) (multiplyScalar dir 0.5)) dir (powerDbm tx) true [] [])
    as (newH & newS & -> & H).
  exact H.
Qed.

(** Every bundle of the result is the non-empty trace of one ray. *)
Lemma buildRayBundle_bundles (rayCount maxBounces : nat) (b : RayBundle) :
  In b (buildRayBundle io tx meshes rayCount maxBounces) ->
  exists dir,
    In dir (fibonacciSphereDirs rayCount) /\
    castRay io tx meshes maxBounces dir = (hops b, segments b) /\
    segments b <> [].
Proof.
  unfold buildRayBundle. destruct meshes as [| m ms]; [intros [] |].
  set (step := fun (bundles : list RayBundle) (dir : Vector3) =>
                 let '(hs, sgs) := castRay io tx (m :: ms) maxBounces dir in
                 match sgs with
                 | [] => bundles
                 | _ :: _ => bundles ++ [mkRayBundle sgs hs (color tx)]
                 end).
  assert (G : forall dirs acc,
             In b (fold_left step dirs acc) ->
             In b acc \/
             exists dir, In dir dirs /\
               castRay io tx (m :: ms) maxBounces dir = (hops b, segments b) /\
               segments b <> []).
  { induction dirs as [| d dirs IHd]; intros acc Hin; simpl in Hin; [now left |].
    destruct (IHd _ Hin) as [Hacc | (dir & Hd & Hc)].
    - unfold step in Hacc.
      destruct (castRay io tx (m :: ms) maxBounces d) as [hs sgs] eqn:E.
      destruct sgs as [| sg sgs]; [now left |].
      apply in_app_or in Hacc as [Hacc | [<- | []]]; [now left |].
      right. exists d. simpl. split; [now left | split; [exact E | discriminate]].
    - right. exists dir. split; [now right | exact Hc]. }
  intros Hin. destruct (G _ _ Hin) as [[] | H]. exact H.
Qed.

End Marching.

(** *** Two worked marches *)

Lemma fibonacci_one : exists d, fibonacciSphereDirs 1 = [d].
Proof. eexists. reflexivity. Qed.

Lemma fsplDb_floor_1MHz : fsplDb 1 1 = -27.6.
Proof.
  rewrite fsplDb_unfold, dKm_of_floor, log10_1 by lra.
  replace 0.001 with (/ 10 ^ 3) by lra.
  rewrite log10_inv_pow. simpl. lra.
Qed.

(** 36 dBm on 1000 MHz against surfaces 1 km apart: the second hop lands
    far below the floor. *)
Lemma march_1km_surfaces (origin dir : Vector3) :
  exists h1 h2 s1 s2,
    march (surfaceAt 1000) (txEast 36) [tt] 3 origin dir 36 true [] []
    = ([h1; h2], [s1; s2]) /\
    prAfter h1 = -56.4 /\ prAfter h2 <= -148.8.
Proof.
  cbn [march surfaceAt app hit_distance hit_point hit_normal
       hit_materialType txEast freqMHz color].
  rewrite fsplDb_1km_1GHz.
  set (refl := materialReflectionLossDb None (vec3 0 1 0)
                 (reflect dir (vec3 0 1 0))).
  assert (Hr : 0 <= refl <= 20) by apply materialReflectionLossDb_range.
  unfold MIN_POWER_DBM.
  assert (E1 : Rgtb 36 (-110) = true) by (apply Rgtb_true; lra).
  assert (E2 : Rleb (36 - 92.4) (-110) = false) by (apply Rleb_false; lra).
  assert (E3 : Rgtb (36 - 92.4) (-110) = true) by (apply Rgtb_true; lra).
  assert (E4 : Rleb (36 - 92.4 - 92.4 - refl) (-110) = true)
    by (apply Rleb_true; lra).
  rewrite E1, E2, E3, E4.
  do 4 eexists. split; [reflexivity |]. simpl. lra.
Qed.

(** 36 dBm on 1 MHz against surfaces 1 m apart: the "loss" of a hop is
    negative and the recorded power climbs. *)
Lemma march_1m_surfaces_longwave (origin dir : Vector3) :
  exists h1 h2 h3 s1 s2 s3,
    march (surfaceAt 1) txLongwave [tt] 3 origin dir 36 true [] []
    = ([h1; h2; h3], [s1; s2; s3]) /\
    prAfter h1 = 63.6 /\ 71.2 <= prAfter h2.
Proof.
  cbn [march surfaceAt app hit_distance hit_point hit_normal
       hit_materialType txLongwave freqMHz color].
  rewrite fsplDb_floor_1MHz.
  set (refl1 := materialReflectionLossDb None (vec3 0 1 0)
                  (reflect dir (vec3 0 1 0))).
  set (refl2 := materialReflectionLossDb None (vec3 0 1 0)
                  (reflect (reflect dir (vec3 0 1 0)) (vec3 0 1 0))).
  assert (Hr1 : 0 <= refl1 <= 20) by apply materialReflectionLossDb_range.
  assert (Hr2 : 0 <= refl2 <= 20) by apply materialReflectionLossDb_range.
  unfold MIN_POWER_DBM.
  assert (E1 : Rgtb 36 (-110) = true) by (apply Rgtb_true; lra).
  assert (E2 : Rleb (36 - -27.6) (-110) = false) by (apply Rleb_false; lra).
  assert (E3 : Rgtb (36 - -27.6) (-110) = true) by (apply Rgtb_true; lra).
  assert (E4 : Rleb (36 - -27.6 - -27.6 - refl1) (-110) = false)
    by (apply Rleb_false; lra).
  assert (E5 : Rgtb (36 - -27.6 - -27.6 - refl1) (-110) = true)
    by (apply Rgtb_true; lra).
  assert (E6 : Rleb (36 - -27.6 - -27.6 - refl1 - -27.6 - refl2) (-110) = false)
    by (apply Rleb_false; lra).
  rewrite E1, E2, E3, E4, E5, E6.
  do 6 eexists. split; [reflexivity |]. simpl. lra.
Qed.

Lemma bundle_1km_surfaces :
  exists b h1 h2,
    In b (buildRayBundle (surfaceAt 1000) (txEast 36) [tt] 1 MAX_BOUNCES) /\
    hops b = [h1; h2] /\ prAfter h1 = -56.4 /\ prAfter h2 <= -148.8.
Proof.
  destruct fibonacci_one as [d Hd].
  unfold buildRayBundle. rewrite Hd. cbn [fold_left]. unfold castRay, MAX_BOUNCES.
  destruct (march_1km_surfaces
              (v_add (pos (txEast 36)) (multiplyScalar d 0.5)) d)
    as (h1 & h2 & s1 & s2 & E & H1 & H2).
  cbn [powerDbm txEast] in *. rewrite E. cbn [app].
  eexists. exists h1, h2. split; [now left |]. cbn [hops]. auto.
Qed.

Lemma bundle_1m_surfaces_longwave :
  exists b h1 h2 h3,
    In b (buildRayBundle (surfaceAt 1) txLongwave [tt] 1 MAX_BOUNCES) /\
    hops b = [h1; h2; h3] /\ prAfter h1 = 63.6 /\ 71.2 <= prAfter h2.
Proof.
  destruct fibonacci_one as [d Hd].
  unfold buildRayBundle. rewrite Hd. cbn [fold_left]. unfold castRay, MAX_BOUNCES.
  destruct (march_1m_surfaces_longwave
              (v_add (pos txLongwave) (multiplyScalar d 0.5)) d)
    as (h1 & h2 & h3 & s1 & s2 & s3 & E & H1 & H2).
  cbn [powerDbm txLongwave] in *. rewrite E. cbn [app].
  eexists. exists h1, h2, h3. split; [now left |]. cbn [hops]. auto.
Qed.

(** C2, as stated, fails twice.  With the default 36 dBm on 1000 MHz and
    surfaces 1 km apart the second hop is recorded at -148.8 dBm or less,
    below the -110 dBm floor; on 1 MHz with surfaces 1 m apart the second
    hop is recorded above the first. *)
Lemma ray_bundle_power_counterexamples :
  (exists b h,
     In b (buildRayBundle (surfaceAt 1000) (txEast 36) [tt] 1 MAX_BOUNCES) /\
     In h (hops b) /\ prAfter h < MIN_POWER_DBM) /\
  (exists b h1 h2 rest,
     In b (buildRayBundle (surfaceAt 1) txLongwave [tt] 1 MAX_BOUNCES) /\
     hops b = h1 :: h2 :: rest /\ prAfter h1 < prAfter h2).
Proof.
  split.
  - destruct bundle_1km_surfaces as (b & h1 & h2 & Hb & Hh & _ & H2).
    exists b, h2. split; [exact Hb |]. rewrite Hh. split.
    + right; now left.
    + unfold MIN_POWER_DBM. lra.
  - destruct bundle_1m_surfaces_longwave as (b & h1 & h2 & h3 & Hb & Hh & H1 & H2).
    exists b, h1, h2, [h3]. repeat split; auto. lra.
Qed.

Lemma haltsAtFloor_nth (prs : list R) (i : nat) (x : R) :
  haltsAtFloor prs -> nth_error prs i = Some x ->
  (S i < List.length prs)%nat -> MIN_POWER_DBM < x.
Proof.
  revert i. induction prs as [| y prs IH]; intros i Hh Hn Hl.
  - destruct i; discriminate.
  - destruct Hh as [Hy Hrest]. destruct i as [| i]; simpl in *.
    + injection Hn as ->. apply Hy. destruct prs; simpl in *; [lia | discriminate].
    + apply (IH i); auto. lia.
Qed.

Lemma nonIncreasingFrom_nth (power : R) (prs : list R) (i : nat) (x y : R) :
  nonIncreasingFrom power prs ->
  nth_error prs i = Some x -> nth_error prs (S i) = Some y -> y <= x.
Proof.
  revert power i. induction prs as [| z prs IH]; intros power i Hm Hx Hy.
  - destruct i; discriminate.
  - destruct Hm as [_ Hrest]. destruct i as [| i]; simpl in *.
    + injection Hx as ->. destruct prs as [| w prs]; [discriminate |].
      simpl in *. injection Hy as ->. tauto.
    + apply (IH z i); auto.
Qed.

Lemma nonIncreasingFrom_head (power : R) (prs : list R) (x : R) :
  nonIncreasingFrom power prs -> nth_error prs 0 = Some x -> x <= power.
Proof.
  destruct prs as [| z prs]; [discriminate |].
  intros [H _] [= ->]. exact H.
Qed.

(** C2 (amended): every bundle records between one and [maxBounces + 1]
    hops; each hop but the last is above the -110 dBm floor, so a hop
    that reaches the floor ends the march (it may itself lie below the
    floor); and for a transmitter whose free-space loss at the one-metre
    floor is not negative the recorded power never exceeds the transmit
    power and never rises from one hop to the next. *)
Theorem ray_bundle_power_profile {Object3D : Type}
  (io : Vector3 -> Vector3 -> R -> list Object3D -> list Intersection)
  (tx : Tx) (meshes : list Object3D) (rayCount maxBounces : nat)
  (b : RayBundle) :
  In b (buildRayBundle io tx meshes rayCount maxBounces) ->
  let prs := map prAfter (hops b) in
  (1 <= List.length (hops b) <= S maxBounces)%nat /\
  (forall i x, nth_error prs i = Some x ->
               x <= MIN_POWER_DBM -> S i = List.length prs) /\
  (0 <= fsplDb 1 (freqMHz tx) ->
   (forall x, nth_error prs 0 = Some x -> x <= powerDbm tx) /\
   (forall i x y, nth_error prs i = Some x ->
                  nth_error prs (S i) = Some y -> y <= x)).
Proof.
  intros Hin prs.
  destruct (buildRayBundle_bundles io tx meshes rayCount maxBounces b Hin)
    as (dir & _ & Hcast & Hseg).
  pose proof (castRay_profile io tx meshes maxBounces dir) as Hp.
  rewrite Hcast in Hp. destruct Hp as (Hlen & Hle & Hhalt & Hmono).
  fold prs in Hhalt, Hmono.
  split; [| split].
  - split; [| exact Hle]. rewrite <- Hlen.
    destruct (segments b); [congruence | simpl; lia].
  - intros i x Hx Hfloor.
    assert (Hi : (i < List.length prs)%nat)
      by (apply nth_error_Some; congruence).
    destruct (Nat.eq_dec (S i) (List.length prs)) as [E | NE]; [exact E |].
    pose proof (haltsAtFloor_nth prs i x Hhalt Hx ltac:(lia)). lra.
  - intros Hf. specialize (Hmono Hf). split.
    + intros x Hx. now apply (nonIncreasingFrom_head (powerDbm tx) prs).
    + intros i x y Hx Hy.
      now apply (nonIncreasingFrom_nth (powerDbm tx) prs i x y).
Qed.

Lemma ray_bundle_power_profile_witness :
  exists b,
    In b (buildRayBundle (surfaceAt 1000) (txEast 36) [tt] 1 MAX_BOUNCES) /\
    (1 <= List.length (hops b) <= 3)%nat /\
    (forall i x y, nth_error (map prAfter (hops b)) i = Some x ->
                   nth_error (map prAfter (hops b)) (S i) = Some y -> y <= x).
Proof.
  destruct bundle_1km_surfaces as (b & _ & _ & Hb & _).
  exists b. split; [exact Hb |].
  destruct (ray_bundle_power_profile (surfaceAt 1000) (txEast 36) [tt] 1
              MAX_BOUNCES b Hb) as (Hlen & _ & Hmono).
  split; [exact Hlen |].
  apply Hmono. cbn [freqMHz txEast].
  pose proof (fsplDb_floor_least 1000 1000) as H.
  rewrite fsplDb_unfold, dKm_of_floor, log10_1000 in * by lra.
  replace 0.001 with (/ 10 ^ 3) by lra.
  rewrite log10_inv_pow. simpl. lra.
Defined.

(** ** Interference field *)

Lemma nth_fill {A : Type} (g : nat -> A) (d : A) (i : nat) :
  (i < MAX_TX)%nat -> nth i (map g (seq 0 MAX_TX)) d = g i.
Proof.
  unfold MAX_TX. intros Hi.
  do 8 (destruct i as [| i]; [reflexivity |]). lia.
Qed.

Lemma skipn_nth_error {A : Type} (l : list A) (i : nat) (a : A) :
  nth_error l i = Some a -> skipn i l = a :: skipn (S i) l.
Proof.
  revert i. induction l as [| b l IH]; intros i H.
  - destruct i; discriminate.
  - destruct i as [| i]; simpl in *.
    + now injection H as ->.
    + now apply IH.
Qed.

Section Field.

Variables intensityScale phaseTimeScale spatialScale : R.
Variable point : Vector3.
Variable txs : list Tx.
Variable time : R.

Let u := frameUniforms txs time intensityScale phaseTimeScale spatialScale.
Let m := Nat.min (List.length txs) MAX_TX.
Let add := fun E tx => E + contribution phaseTimeScale spatialScale point time tx.

Lemma fold_add_zero_step (l : list Tx) (E : R) :
  fold_left add l (E + 0) = fold_left add l E.
Proof. now rewrite Rplus_0_r. Qed.

(** The shader loop from index [i] on adds the contributions of the
    transmitters [i], [i + 1], ... among the first [MAX_TX]. *)
Lemma shaderLoop_superposition (n : nat) :
  forall (i : nat) (E : R),
    (n + i = MAX_TX)%nat ->
    shaderLoop u point n i E = fold_left add (skipn i (firstn MAX_TX txs)) E.
Proof.
  induction n as [| n IH]; intros i E Hni.
  - cbn [shaderLoop]. rewrite skipn_all2; [reflexivity |].
    pose proof (firstn_le_length MAX_TX txs). lia.
  - cbn [shaderLoop]. change (uTxCount u) with m.
    destruct (m <=? i)%nat eqn:Em.
    + apply Nat.leb_le in Em. rewrite skipn_all2; [reflexivity |].
      rewrite length_firstn. fold m. lia.
    + apply Nat.leb_gt in Em.
      assert (Hi : (i < MAX_TX)%nat) by lia.
      assert (Hlt : (i < List.length txs)%nat) by (unfold m in Em; lia).
      destruct (nth_error txs i) as [tx |] eqn:Etx;
        [| apply nth_error_None in Etx; lia].
      assert (Hfirst : nth_error (firstn MAX_TX txs) i = Some tx)
        by (rewrite nth_error_firstn; destruct (Nat.ltb_spec i MAX_TX);
            [exact Etx | lia]).
      rewrite (skipn_nth_error _ _ _ Hfirst). cbn [fold_left].
      assert (Hslot : forall (A : Type) (f : Tx -> A) (parked : A),
                 slot txs m f parked i = f tx).
      { intros A f parked. unfold slot. rewrite Etx.
        destruct (Nat.ltb_spec i m); [reflexivity | lia]. }
      change (uPos u) with (map (slot txs m pos (vec3 1e9 1e9 1e9)) (seq 0 MAX_TX)).
      change (uFreq u)
        with (map (slot txs m (fun tx => freqMHz tx * 1e6) 0) (seq 0 MAX_TX)).
      change (uPow u)
        with (map (slot txs m
                     (fun tx => sqrt (Rpower 10 ((powerDbm tx - 30) / 10))) 0)
                  (seq 0 MAX_TX)).
      rewrite !nth_fill, !Hslot by exact Hi.
      change (uTime u) with time.
      change (uPhaseTimeScale u) with phaseTimeScale.
      change (uSpatialScale u) with spatialScale.
      unfold add at 2. unfold contribution.
      destruct (Rleb (freqMHz tx * 1e6) 0).
      * rewrite IH by lia. symmetry. apply fold_add_zero_step.
      * rewrite IH by lia. reflexivity.
Qed.

Lemma fieldValue_superposition :
  fieldValue intensityScale phaseTimeScale spatialScale point txs time
  = 1 - exp (- (superposition phaseTimeScale spatialScale point time
                  (firstn MAX_TX txs)
                * superposition phaseTimeScale spatialScale point time
                    (firstn MAX_TX txs)
                * intensityScale)).
Proof.
  unfold fieldValue, fragmentValue. fold u.
  rewrite (shaderLoop_superposition MAX_TX 0 0) by lia.
  change (uIntensityScale u) with intensityScale.
  cbn [skipn]. unfold superposition. fold add.
  replace 1.0 with 1 by lra. reflexivity.
Qed.

End Field.

Lemma soft_compression_range (I : R) : 0 <= I -> 0 <= 1 - exp (- I) < 1.
Proof.
  intros HI.
  pose proof (exp_pos (- I)) as Hpos.
  pose proof (exp_ineq1_le I) as Hge.
  pose proof (exp_pos I) as HposI.
  assert (Hinv : exp (- I) * exp I = 1).
  { rewrite <- exp_plus. replace (- I + I) with 0 by lra. apply exp_0. }
  split; [| lra].
  assert (exp (- I) <= 1); [| lra].
  destruct (Rle_dec (exp (- I)) 1) as [H | H]; [exact H | exfalso].
  apply Rnot_le_lt in H. nra.
Qed.

(** *** Rounding to single precision *)

Lemma ln2_pos : 0 < ln 2.
Proof. rewrite <- ln_1. apply ln_increasing; lra. Qed.

Lemma pow2_exp (e : Z) : powerRZ 2 e = exp (IZR e * ln 2).
Proof. rewrite powerRZ_Rpower by lra. reflexivity. Qed.

Lemma pow2_pos (e : Z) : 0 < powerRZ 2 e.
Proof. apply powerRZ_lt. lra. Qed.

Lemma pow2_monotone (a b : Z) : (a <= b)%Z -> powerRZ 2 a <= powerRZ 2 b.
Proof.
  intros H. rewrite !pow2_exp. apply IZR_le in H.
  pose proof ln2_pos.
  destruct (Req_dec (IZR a) (IZR b)) as [-> | Hne]; [lra |].
  left. apply exp_increasing. nra.
Qed.

Lemma pow2_lt_inv (a b : Z) : powerRZ 2 a < powerRZ 2 b -> (a < b)%Z.
Proof.
  intros H. destruct (Z_lt_le_dec a b) as [L | L]; [exact L |].
  apply pow2_monotone in L. lra.
Qed.

Lemma pow2_split (a b : Z) : powerRZ 2 (a + b) = powerRZ 2 a * powerRZ 2 b.
Proof. apply powerRZ_add. lra. Qed.

(** The exponent brackets a positive number between two powers of two. *)
Lemma exponent2_spec (x : R) :
  0 < x -> powerRZ 2 (exponent2 x) <= x < powerRZ 2 (exponent2 x + 1).
Proof.
  intros Hx. unfold exponent2. rewrite Rabs_right by lra.
  set (e := Zfloor (ln x / ln 2)).
  pose proof (Zfloor_bound (ln x / ln 2)) as [Hlo Hhi]. fold e in Hlo, Hhi.
  pose proof ln2_pos as H2.
  assert (E : ln x / ln 2 * ln 2 = ln x) by (field; lra).
  rewrite !pow2_exp, plus_IZR.
  assert (Hx' : exp (ln x) = x) by now apply exp_ln.
  split.
  - rewrite <- Hx'.
    destruct (Req_dec (IZR e * ln 2) (ln x)) as [-> | Hne]; [lra |].
    left. apply exp_increasing. nra.
  - rewrite <- Hx' at 1. apply exp_increasing. nra.
Qed.

Lemma exponent2_unique (x : R) (e : Z) :
  0 < x -> powerRZ 2 e <= x < powerRZ 2 (e + 1) -> exponent2 x = e.
Proof.
  intros Hx [Hlo Hhi].
  destruct (exponent2_spec x Hx) as [Slo Shi].
  assert (exponent2 x < e + 1)%Z by (apply pow2_lt_inv; lra).
  assert (e < exponent2 x + 1)%Z by (apply pow2_lt_inv; lra).
  lia.
Qed.

Lemma roundEven_bounds (y : R) :
  (Zfloor y <= roundEven y <= Zfloor y + 1)%Z.
Proof.
  unfold roundEven.
  destruct (Rlt_dec _ _); [lia |].
  destruct (Rlt_dec _ _); [lia |].
  destruct (Z.even _); lia.
Qed.

Lemma roundEven_integer (n : Z) : roundEven (IZR n) = n.
Proof.
  unfold roundEven. rewrite ZfloorZ.
  destruct (Rlt_dec _ _) as [_ | H]; [reflexivity | exfalso; lra].
Qed.

Lemma float32_pow2 (e : Z) : float32 (powerRZ 2 e) = powerRZ 2 e.
Proof.
  pose proof (pow2_pos e) as Hp.
  unfold float32. destruct (Req_dec_T _ _) as [H0 | _]; [lra |].
  rewrite (exponent2_unique _ e Hp).
  - replace (powerRZ 2 e / powerRZ 2 (e - 23)) with (IZR 8388608).
    + rewrite roundEven_integer.
      replace e with (23 + (e - 23))%Z at 2 by lia.
      rewrite pow2_split. simpl. lra.
    + replace e with (23 + (e - 23))%Z at 1 by lia.
      rewrite pow2_split. pose proof (pow2_pos (e - 23)).
      simpl. field. lra.
  - split; [lra |]. rewrite pow2_split. simpl. lra.
Qed.

(** Rounding keeps a positive number inside its binade. *)
Lemma float32_binade (x : R) (e : Z) :
  powerRZ 2 e <= x < powerRZ 2 (e + 1) ->
  powerRZ 2 e <= float32 x <= powerRZ 2 (e + 1).
Proof.
  intros [Hlo Hhi]. pose proof (pow2_pos e) as Hp.
  assert (Hx : 0 < x) by lra.
  unfold float32. destruct (Req_dec_T _ _) as [H0 | _]; [lra |].
  rewrite (exponent2_unique x e Hx (conj Hlo Hhi)).
  pose proof (pow2_pos (e - 23)) as Hu.
  set (ulp := powerRZ 2 (e - 23)) in *.
  assert (E1 : powerRZ 2 e = 8388608 * ulp).
  { unfold ulp. replace e with (23 + (e - 23))%Z at 1 by lia.
    rewrite pow2_split. simpl. lra. }
  assert (E2 : powerRZ 2 (e + 1) = 16777216 * ulp).
  { unfold ulp. replace (e + 1)%Z with (24 + (e - 23))%Z by lia.
    rewrite pow2_split. simpl. lra. }
  rewrite E1, E2 in *.
  assert (Hy : 8388608 <= x / ulp < 16777216).
  { split.
    - apply Rmult_le_reg_r with ulp; [exact Hu |].
      replace (x / ulp * ulp) with x by (field; lra). lra.
    - apply Rmult_lt_reg_r with ulp; [exact Hu |].
      replace (x / ulp * ulp) with x by (field; lra). lra. }
  pose proof (roundEven_bounds (x / ulp)) as [Rlo Rhi].
  pose proof (Zfloor_bound (x / ulp)) as [Flo Fhi].
  assert (F1 : (8388608 <= Zfloor (x / ulp))%Z) by (apply Zfloor_lub; lra).
  assert (F2 : (Zfloor (x / ulp) < 16777216)%Z) by (apply lt_IZR; lra).
  assert (R1 : 8388608 <= IZR (roundEven (x / ulp))) by (apply IZR_le; lia).
  assert (R2 : IZR (roundEven (x / ulp)) <= 16777216) by (apply IZR_le; lia).
  split; nra.
Qed.

Lemma float32_nonneg (x : R) : 0 <= x -> 0 <= float32 x.
Proof.
  intros [Hx | <-].
  - destruct (float32_binade x (exponent2 x) (exponent2_spec x Hx)) as [H _].
    pose proof (pow2_pos (exponent2 x)). lra.
  - unfold float32. destruct (Req_dec_T 0 0); [lra | congruence].
Qed.

Lemma float32_positive (x : R) : 0 < x -> 0 < float32 x.
Proof.
  intros Hx.
  destruct (float32_binade x (exponent2 x) (exponent2_spec x Hx)) as [H _].
  pose proof (pow2_pos (exponent2 x)). lra.
Qed.

(** Rounding does not cross a power of two. *)
Lemma float32_below_pow2 (x : R) (k : Z) :
  0 <= x <= powerRZ 2 k -> float32 x <= powerRZ 2 k.
Proof.
  intros [[Hx | <-] Hk].
  - destruct Hk as [Hk | ->]; [| rewrite float32_pow2; lra].
    destruct (exponent2_spec x Hx) as [Slo Shi].
    destruct (float32_binade x (exponent2 x) (conj Slo Shi)) as [_ H].
    assert (exponent2 x < k)%Z by (apply pow2_lt_inv; lra).
    assert (powerRZ 2 (exponent2 x + 1) <= powerRZ 2 k)
      by (apply pow2_monotone; lia).
    lra.
  - unfold float32. destruct (Req_dec_T 0 0); [| congruence].
    pose proof (pow2_pos k). lra.
Qed.

Lemma float32_unit_range (x : R) : 0 <= x <= 1 -> 0 <= float32 x <= 1.
Proof.
  intros [H0 H1]. split; [now apply float32_nonneg |].
  change 1 with (powerRZ 2 0). apply float32_below_pow2. simpl. lra.
Qed.

(** Within half a unit in the last place below 1, a number rounds to 1. *)
Lemma float32_rounds_to_one (x : R) :
  1 - powerRZ 2 (-25) <= x < 1 -> float32 x = 1.
Proof.
  intros [Hlo Hhi].
  assert (P25 : powerRZ 2 (-25) = / 33554432) by (simpl; lra).
  rewrite P25 in Hlo.
  assert (Hx : 0 < x) by lra.
  unfold float32. destruct (Req_dec_T _ _) as [H0 | _]; [lra |].
  rewrite (exponent2_unique x (-1) Hx) by (simpl; lra).
  replace (powerRZ 2 (-1 - 23)) with (/ 16777216) by (simpl; lra).
  assert (Hy : 16777215 + 1 / 2 <= x / / 16777216 < 16777216).
  { replace (x / / 16777216) with (x * 16777216) by (field; lra). lra. }
  set (y := x / / 16777216) in *.
  assert (F : Zfloor y = 16777215%Z) by (apply Zfloor_eq; lra).
  assert (Rd : roundEven y = 16777216%Z).
  { unfold roundEven. rewrite F.
    destruct (Rlt_dec _ _) as [H | _]; [lra |].
    destruct (Rlt_dec _ _); reflexivity. }
  rewrite Rd. lra.
Qed.

Lemma fieldValue32_superposition
  (intensityScale phaseTimeScale spatialScale : R)
  (point : Vector3) (txs : list Tx) (time : R) :
  let E := superposition phaseTimeScale spatialScale point time
             (firstn MAX_TX txs) in
  fieldValue32 intensityScale phaseTimeScale spatialScale point txs time
  = float32 (1 - float32 (exp (- (E * E * intensityScale)))).
Proof.
  intros E. unfold fieldValue32, fragmentValue32.
  rewrite (shaderLoop_superposition intensityScale phaseTimeScale spatialScale
             point txs time MAX_TX 0 0) by lia.
  cbn [skipn uIntensityScale frameUniforms].
  replace 1.0 with 1 by lra. reflexivity.
Qed.

Lemma exp_neg_unit (I : R) : 0 <= I -> 0 < exp (- I) <= 1.
Proof.
  intros HI. split; [apply exp_pos |].
  rewrite <- exp_0. destruct HI as [HI | <-].
  - left. apply exp_increasing. lra.
  - rewrite Ropp_0. lra.
Qed.

(** The rounded compression stays in the closed unit interval. *)
Lemma compressed32_range (I : R) :
  0 <= I -> 0 <= float32 (1 - float32 (exp (- I))) <= 1.
Proof.
  intros HI. destruct (exp_neg_unit I HI) as [Hp H1].
  pose proof (float32_unit_range (exp (- I)) ltac:(lra)) as [F0 F1].
  apply float32_unit_range. lra.
Qed.

(** From [I = 25 ln 2] on, [exp (-I)] is at most half a unit in the last
    place of 1 and the difference rounds to 1. *)
Lemma compressed32_saturates (I : R) :
  25 * ln 2 <= I -> float32 (1 - float32 (exp (- I))) = 1.
Proof.
  intros HI.
  assert (He : exp (- I) <= powerRZ 2 (-25)).
  { rewrite pow2_exp.
    destruct (Req_dec (- I) (IZR (-25) * ln 2)) as [-> | Hne]; [lra |].
    left. apply exp_increasing. lra. }
  pose proof (exp_pos (- I)) as Hp.
  pose proof (float32_positive _ Hp) as F0.
  pose proof (float32_below_pow2 (exp (- I)) (-25) ltac:(lra)) as F1.
  apply float32_rounds_to_one. lra.
Qed.

Lemma ln2_lt_1 : ln 2 < 1.
Proof.
  rewrite <- (ln_exp 1). apply ln_increasing; [lra |].
  pose proof (exp_ineq1 1 ltac:(lra)). lra.
Qed.

Lemma cos_lower (x : R) : 0 <= x <= 1 -> 1 - x * x / 2 <= cos x.
Proof.
  intros [[H0 | <-] H1].
  - replace x with (2 * (x / 2)) at 3 by lra. rewrite cos_2a_sin.
    pose proof (sin_lt_x (x / 2) ltac:(lra)) as Hs.
    assert (0 <= sin (x / 2)).
    { apply sin_ge_0; [lra |]. pose proof PI2_1. lra. }
    nra.
  - rewrite cos_0. lra.
Qed.

(** A quarter of a metre from a default transmitter the intensity is far
    above the saturation threshold. *)
Lemma intensity_near_default_tx :
  let E := superposition 1e-9 0.03 (vec3 0.249 0 0) 0 (firstn MAX_TX [txDefault]) in
  25 * ln 2 <= E * E * 6.0.
Proof.
  cbv zeta. unfold superposition, MAX_TX. cbn [firstn fold_left].
  unfold contribution, txDefault. cbn [pos freqMHz powerDbm].
  unfold v_sub, origin3. cbn [vx vy vz].
  replace (0.249 - 0) with 0.249 by lra. replace (0 - 0) with 0 by lra.
  rewrite v_length_axis, Rabs_right by lra.
  assert (Hf : Rleb (DEFAULT_FREQ * 1e6) 0 = false).
  { apply Rleb_false. unfold DEFAULT_FREQ. lra. }
  rewrite Hf.
  set (X := 2.0 * GLSL_PI / (C_light / (DEFAULT_FREQ * 1e6)) * 0.03
            * (0.249 + 1e-3)).
  assert (HX : 0 <= X <= 0.4).
  { unfold X, GLSL_PI, C_light, DEFAULT_FREQ. lra. }
  replace (2.0 * GLSL_PI * (DEFAULT_FREQ * 1e6) * 0 * 1e-9 - X) with (- X)
    by lra.
  rewrite cos_neg.
  pose proof (cos_lower X ltac:(lra)) as Hc.
  assert (Hcos : 0.92 <= cos X) by nra.
  pose proof (COS_bound X) as [_ Hc1].
  assert (Ha : 1 <= sqrt (Rpower 10 ((DEFAULT_PWR - 30) / 10))).
  { rewrite <- sqrt_1 at 1. apply sqrt_le_1_alt.
    unfold Rpower. rewrite <- exp_0 at 1.
    assert (0 <= (DEFAULT_PWR - 30) / 10 * ln 10).
    { unfold DEFAULT_PWR. pose proof ln10_pos. nra. }
    destruct H as [H | <-]; [left; apply exp_increasing; exact H | lra]. }
  set (a := sqrt (Rpower 10 ((DEFAULT_PWR - 30) / 10))) in *.
  set (c := cos X) in *.
  replace (0.249 + 1e-3) with (/ 4) by lra.
  assert (HE : 3.68 <= 0 + a / / 4 * c).
  { replace (0 + a / / 4 * c) with (4 * a * c) by (field; lra). nra. }
  pose proof ln2_lt_1. nra.
Qed.

(** C9, as stated, fails in the shader's arithmetic: a quarter of a metre
    from a default transmitter the value is exactly 1, outside [0, 1). *)
Lemma interference_field_reaches_one :
  fieldValue32 6.0 1e-9 0.03 (vec3 0.249 0 0) [txDefault] 0 = 1 /\
  ~ (0 <= fieldValue32 6.0 1e-9 0.03 (vec3 0.249 0 0) [txDefault] 0 < 1).
Proof.
  assert (E : fieldValue32 6.0 1e-9 0.03 (vec3 0.249 0 0) [txDefault] 0 = 1).
  { rewrite fieldValue32_superposition.
    apply compressed32_saturates, intensity_near_default_tx. }
  split; [exact E | rewrite E; lra].
Qed.

(** C9 (amended): for a non-negative intensity scale the shader's value is
    [1 - exp (- I)] rounded to single precision, where
    [I = intensityScale * E^2] and [E] is the superposition of the
    contributions of the first [MAX_TX = 8] transmitters; the exact
    [1 - exp (- I)] lies in [0, 1), the shader's value lies in the closed
    interval [0, 1] and is exactly 1 once [I >= 25 ln 2]; transmitters
    past the eighth change nothing. *)
Theorem interference_field_in_unit_interval
  (intensityScale phaseTimeScale spatialScale : R)
  (point : Vector3) (txs : list Tx) (time : R) :
  0 <= intensityScale ->
  let fv := fieldValue32 intensityScale phaseTimeScale spatialScale point in
  let E := superposition phaseTimeScale spatialScale point time
             (firstn MAX_TX txs) in
  let I := E * E * intensityScale in
  fv txs time = float32 (1 - float32 (exp (- I))) /\
  0 <= 1 - exp (- I) < 1 /\
  0 <= fv txs time <= 1 /\
  (25 * ln 2 <= I -> fv txs time = 1) /\
  fv txs time = fv (firstn MAX_TX txs) time /\
  (forall extra, (MAX_TX <= List.length txs)%nat ->
                 fv (txs ++ extra) time = fv txs time).
Proof.
  intros Hs fv E I. unfold fv.
  rewrite !fieldValue32_superposition. fold E. fold I.
  assert (HI : 0 <= I) by (unfold I; nra).
  split; [reflexivity |].
  split; [now apply soft_compression_range |].
  split; [now apply compressed32_range |].
  split; [apply compressed32_saturates |]. split.
  - rewrite firstn_firstn, Nat.min_id. reflexivity.
  - intros extra Hlen. rewrite fieldValue32_superposition.
    rewrite firstn_app.
    replace (MAX_TX - List.length txs)%nat with 0%nat by lia.
    cbn [firstn]. rewrite app_nil_r. reflexivity.
Qed.

Lemma interference_field_in_unit_interval_witness :
  fieldValue32 6.0 1e-9 0.03 (vec3 0.249 0 0) [txDefault] 0 = 1 /\
  0 <= fieldValue32 6.0 1e-9 0.03 (vec3 10 0 10) txRow 2 <= 1 /\
  fieldValue32 6.0 1e-9 0.03 (vec3 10 0 10) (txRow ++ [txDefault]) 2
  = fieldValue32 6.0 1e-9 0.03 (vec3 10 0 10) txRow 2.
Proof.
  destruct (interference_field_in_unit_interval 6.0 1e-9 0.03
              (vec3 0.249 0 0) [txDefault] 0 ltac:(lra))
    as (_ & _ & _ & Hsat & _).
  destruct (interference_field_in_unit_interval 6.0 1e-9 0.03 (vec3 10 0 10)
              txRow 2 ltac:(lra)) as (_ & _ & Hr & _ & _ & Hx).
  split; [apply Hsat, intensity_near_default_tx |].
  split; [exact Hr |].
  apply Hx. unfold txRow, MAX_TX. rewrite length_map, length_seq. lia.
Defined.

(** ** Drive-test overlay *)

Lemma last_cons_default {A : Type} (l : list A) (c d : A) :
  last (c :: l) d = last l c.
Proof.
  revert c d. induction l as [| x l IH]; intros c d; [reflexivity |].
  change (last (c :: x :: l) d) with (last (x :: l) d).
  now rewrite !IH.
Qed.

Lemma changesAfter_snoc (prev : Z) (served : list (Vector3 * Z))
  (p : Vector3) (b : Z) :
  changesAfter prev (served ++ [(p, b)])
  = changesAfter prev served
    ++ (if (b =? last (map snd served) prev)%Z then []
        else [mkHandover p (last (map snd served) prev) b]).
Proof.
  revert prev. induction served as [| [q c] served IH]; intros prev.
  - simpl. now rewrite app_nil_r.
  - cbn [app changesAfter]. rewrite IH, <- app_assoc. f_equal. f_equal.
    cbn [map snd]. now rewrite last_cons_default.
Qed.

Lemma handoverEvents_snoc (served : list (Vector3 * Z)) (p : Vector3) (b : Z) :
  handoverEvents (served ++ [(p, b)])
  = handoverEvents served
    ++ match served with
       | [] => []
       | _ :: _ => if (b =? lastServer served)%Z then []
                   else [mkHandover p (lastServer served) b]
       end.
Proof.
  destruct served as [| [q c] served]; [reflexivity |].
  cbn [app handoverEvents]. rewrite changesAfter_snoc. f_equal.
  unfold lastServer. cbn [map snd]. now rewrite last_cons_default.
Qed.

Lemma lastServer_snoc (served : list (Vector3 * Z)) (p : Vector3) (b : Z) :
  lastServer (served ++ [(p, b)]) = b.
Proof. unfold lastServer. rewrite map_app. apply last_last. Qed.

(** An event is recorded exactly at the samples whose best server differs
    from that of the sample before. *)
Lemma changesAfter_iff (h : Handover) (prev : Z) (served : list (Vector3 * Z)) :
  In h (changesAfter prev served) <->
  exists j, nth_error served j = Some (h_pos h, h_to h) /\
            nth_error (prev :: map snd served) j = Some (h_from h) /\
            h_to h <> h_from h.
Proof.
  revert prev. induction served as [| [q c] served IH]; intros prev.
  - simpl. split; [intros [] | intros (j & Hj & _); destruct j; discriminate].
  - cbn [changesAfter]. rewrite in_app_iff, IH. split.
    + intros [Hnow | (j & Hj & Hf & Hne)].
      * destruct (Z.eqb_spec c prev) as [-> | Hcp]; [destruct Hnow |].
        destruct Hnow as [<- | []]. exists 0%nat. simpl. auto.
      * exists (S j). simpl. auto.
    + intros (j & Hj & Hf & Hne). destruct j as [| j].
      * left. simpl in Hj, Hf. injection Hj as -> ->. injection Hf as ->.
        destruct (Z.eqb_spec (h_to h) (h_from h)) as [E | _]; [congruence |].
        left. destruct h; reflexivity.
      * right. exists j. simpl in Hj, Hf. auto.
Qed.

Section Overlay.

Context {Object3D : Type}.
Variable io : Vector3 -> Vector3 -> R -> list Object3D -> list Intersection.
Variable txs : list Tx.
Variable meshes : list Object3D.

Let sv := fun q : Vector3 => (q, bestIdx (probeAt io q txs meshes)).
Let col := fun q : Vector3 => colorForDbm (bestPower (probeAt io q txs meshes)).

(** The overlay state after the samples [S] have been probed *)
Let traced := fun (st : Overlay) (S : list Vector3) =>
  outPts st = S /\
  outCols st = map col S /\
  hMarkers st = handoverEvents (map sv S) /\
  lastBest st = lastServer (map sv S).

Lemma bestIdx_positive (q : Vector3) :
  (1 <= bestIdx (probeAt io q txs meshes))%Z.
Proof.
  unfold probeAt.
  destruct (probeAtWithRc_fields io q meshes txs) as (_ & _ & -> & _).
  destruct (snd (softmaxDbm (powers io q meshes txs) 4) >=? 0)%Z eqn:E; lia.
Qed.

Lemma lastServer_positive (S : list Vector3) :
  S <> [] -> (1 <= lastServer (map sv S))%Z.
Proof.
  intros Hne. destruct (exists_last Hne) as (S' & q & ->).
  rewrite map_app. cbn [map]. unfold sv at 2.
  rewrite lastServer_snoc. apply bestIdx_positive.
Qed.

Lemma sampleStep_traced (a b : Vector3) (count : Z) (k : nat)
  (st : Overlay) (S : list Vector3) :
  traced st S ->
  traced (sampleStep io txs meshes a b count st k)
         (S ++ [samplePoint a b count k]).
Proof.
  intros (Hp & Hc & Hm & Hl). unfold traced, sampleStep.
  set (q := samplePoint a b count k).
  cbn [outPts outCols hMarkers lastBest].
  rewrite !map_app. cbn [map].
  change (sv q) with (q, bestIdx (probeAt io q txs meshes)).
  rewrite handoverEvents_snoc, lastServer_snoc, Hp, Hc, Hm, Hl.
  repeat split.
  destruct S as [| s0 S].
  - reflexivity.
  - pose proof (lastServer_positive (s0 :: S) ltac:(discriminate)) as Hpos.
    set (lb := lastServer (map sv (s0 :: S))) in *.
    destruct (Z.eqb_spec lb (-1)) as [E | _]; [lia |].
    cbn [negb andb map].
    destruct (bestIdx (probeAt io q txs meshes) =? lb)%Z; cbn [negb];
      [now rewrite app_nil_r | reflexivity].
Qed.

Lemma sampleSteps_traced (a b : Vector3) (count : Z) (ks : list nat) :
  forall (st : Overlay) (S : list Vector3),
    traced st S ->
    traced (fold_left (sampleStep io txs meshes a b count) ks st)
           (S ++ map (samplePoint a b count) ks).
Proof.
  induction ks as [| k ks IH]; intros st S Ht; cbn [fold_left map].
  - now rewrite app_nil_r.
  - replace (S ++ samplePoint a b count k :: map (samplePoint a b count) ks)
      with ((S ++ [samplePoint a b count k]) ++ map (samplePoint a b count) ks)
      by now rewrite <- app_assoc.
    apply IH. now apply sampleStep_traced.
Qed.

Lemma walkPath_traced (points : list Vector3) :
  forall (st : Overlay) (S : list Vector3),
    traced st S ->
    traced (walkPath io txs meshes points st) (S ++ pathSamples points).
Proof.
  induction points as [| a rest IH]; intros st S Ht.
  - cbn. now rewrite app_nil_r.
  - destruct rest as [| b rest].
    + cbn. now rewrite app_nil_r.
    + cbn [walkPath pathSamples]. rewrite app_assoc.
      apply IH. unfold sampleSegment. now apply sampleSteps_traced.
Qed.

Lemma PathRfOverlay_traced (points : list Vector3) :
  (2 <= List.length points)%nat -> txs <> [] -> meshes <> [] ->
  traced (PathRfOverlay io points txs meshes) (pathSamples points).
Proof.
  intros Hp Ht Hm. unfold PathRfOverlay.
  destruct (Nat.ltb_spec (List.length points) 2); [lia |].
  assert (E1 : (List.length txs =? 0)%nat = false)
    by (apply Nat.eqb_neq; now rewrite length_zero_iff_nil).
  assert (E2 : (List.length meshes =? 0)%nat = false)
    by (apply Nat.eqb_neq; now rewrite length_zero_iff_nil).
  rewrite E1, E2. cbn [orb].
  apply (walkPath_traced points (mkOverlay [] [] [] (-1)) []).
  repeat split.
Qed.

End Overlay.

Lemma handoverEvents_iff (h : Handover) (served : list (Vector3 * Z)) :
  In h (handoverEvents served) <->
  exists j, nth_error (map snd served) j = Some (h_from h) /\
            nth_error served (S j) = Some (h_pos h, h_to h) /\
            h_to h <> h_from h.
Proof.
  destruct served as [| [q0 b0] rest].
  - simpl. split; [intros [] | intros (j & _ & Hj & _); discriminate].
  - cbn [handoverEvents]. rewrite changesAfter_iff. cbn [map snd nth_error].
    split; intros (j & H1 & H2 & H3); exists j; auto.
Qed.

Lemma sampleCount_at_least_2 (a b : Vector3) : (2 <= sampleCount a b)%Z.
Proof. unfold sampleCount. apply Z.le_max_l. Qed.

Lemma samplePoint_coordinates (a b : Vector3) (count : Z) (k : nat) :
  samplePoint a b count k
  = vec3 (vx a + (vx b - vx a) * (INR k / (IZR count - 1)))
         (vy a)
         (vz a + (vz b - vz a) * (INR k / (IZR count - 1))).
Proof. reflexivity. Qed.

Lemma samplePoint_first (a b : Vector3) (count : Z) :
  samplePoint a b count 0 = a.
Proof.
  rewrite samplePoint_coordinates. destruct a as [ax ay az]. simpl.
  f_equal; unfold Rdiv; ring.
Qed.

Lemma samplePoint_last (a b : Vector3) (count : Z) :
  (2 <= count)%Z ->
  samplePoint a b count (Z.to_nat count - 1) = vec3 (vx b) (vy a) (vz b).
Proof.
  intros Hc. rewrite samplePoint_coordinates.
  assert (E : INR (Z.to_nat count - 1) = IZR count - 1).
  { rewrite INR_IZR_INZ, Nat2Z.inj_sub, Z2Nat.id, minus_IZR by lia.
    reflexivity. }
  rewrite E.
  assert (IZR count - 1 <> 0).
  { apply IZR_le in Hc. lra. }
  f_equal; field; assumption.
Qed.

(** The overlay is empty unless there are two path points, a transmitter
    and a mesh. *)
Lemma PathRfOverlay_guard {Object3D : Type}
  (io : Vector3 -> Vector3 -> R -> list Object3D -> list Intersection)
  (points : list Vector3) (txs : list Tx) (meshes : list Object3D) :
  (List.length points < 2)%nat \/ txs = [] \/ meshes = [] ->
  PathRfOverlay io points txs meshes = mkOverlay [] [] [] (-1).
Proof.
  intros H. unfold PathRfOverlay.
  destruct (Nat.ltb_spec (List.length points) 2) as [_ | Hp]; [reflexivity |].
  destruct H as [H | [-> | ->]]; [lia | reflexivity |].
  cbn. now rewrite orb_true_r.
Qed.

Lemma sampleCount_12m : sampleCount (vec3 0 0 0) (vec3 12 0 0) = 2%Z.
Proof.
  unfold sampleCount, distanceTo, v_sub, STEP. simpl.
  replace (0 - 12) with (-12) by lra. replace (0 - 0) with 0 by lra.
  rewrite v_length_axis, Rabs_left, Rmax_left by lra.
  rewrite (Zceil_eq 2) by lra. reflexivity.
Qed.

Lemma sampleCount_sloped : sampleCount (vec3 0 0 0) (vec3 3 4 0) = 2%Z.
Proof.
  unfold sampleCount, distanceTo, v_sub, v_length, STEP. simpl.
  replace ((0 - 3) * (0 - 3) + (0 - 4) * (0 - 4) + (0 - 0) * (0 - 0))
    with (5 * 5) by lra.
  rewrite sqrt_square, Rmax_left by lra.
  rewrite (Zceil_eq 1) by lra. reflexivity.
Qed.

Lemma sampleCount_across : sampleCount (vec3 (-6) 0 0) (vec3 6 0 0) = 2%Z.
Proof.
  unfold sampleCount, distanceTo, v_sub, STEP. simpl.
  replace (-6 - 6) with (-12) by lra. replace (0 - 0) with 0 by lra.
  rewrite v_length_axis, Rabs_left, Rmax_left by lra.
  rewrite (Zceil_eq 2) by lra. reflexivity.
Qed.

(** A segment with two samples is probed at its first point and over or
    under its second. *)
Lemma pathSamples_two_points (a b : Vector3) :
  sampleCount a b = 2%Z ->
  pathSamples [a; b] = [a; vec3 (vx b) (vy a) (vz b)].
Proof.
  intros Hc. cbn [pathSamples]. rewrite Hc, app_nil_r.
  change (Z.to_nat 2) with 2%nat. cbn [seq map].
  rewrite samplePoint_first.
  change 1%nat with (Z.to_nat 2 - 1)%nat.
  rewrite samplePoint_last by lia. reflexivity.
Qed.

Lemma overlay_two_points {Object3D : Type}
  (io : Vector3 -> Vector3 -> R -> list Object3D -> list Intersection)
  (txs : list Tx) (meshes : list Object3D) (a b : Vector3) :
  txs <> [] -> meshes <> [] -> sampleCount a b = 2%Z ->
  outPts (PathRfOverlay io [a; b] txs meshes)
  = [a; vec3 (vx b) (vy a) (vz b)].
Proof.
  intros Ht Hm Hc.
  pose proof (PathRfOverlay_traced io txs meshes [a; b]) as H.
  cbv zeta beta in H. destruct H as (-> & _); auto.
  now apply pathSamples_two_points.
Qed.

Lemma distance_12m : distanceTo (vec3 0 0 0) (vec3 12 0 0) = 12.
Proof.
  unfold distanceTo, v_sub. simpl.
  replace (0 - 12) with (-12) by lra. replace (0 - 0) with 0 by lra.
  rewrite v_length_axis, Rabs_left by lra. lra.
Qed.

(** A 12 m segment gets two samples 12 m apart, not 6 m; and on the
    sloped segment from (0,0,0) to (3,4,0) the second sample is (3,0,0),
    under the end point: the code keeps the path at the height of the
    segment's first point. *)
Lemma drive_test_sampling_examples :
  (outPts (PathRfOverlay openSky [vec3 0 0 0; vec3 12 0 0] [txEast 36] [tt])
   = [vec3 0 0 0; vec3 12 0 0] /\
   distanceTo (vec3 0 0 0) (vec3 12 0 0) = 12) /\
  (outPts (PathRfOverlay openSky [vec3 0 0 0; vec3 3 4 0] [txEast 36] [tt])
   = [vec3 0 0 0; vec3 3 0 0] /\
   forall t, lerpVectors (vec3 0 0 0) (vec3 3 4 0) t <> vec3 3 0 0).
Proof.
  split; split.
  - apply (overlay_two_points openSky _ _ (vec3 0 0 0) (vec3 12 0 0));
      [discriminate | discriminate | apply sampleCount_12m].
  - apply distance_12m.
  - apply (overlay_two_points openSky _ _ (vec3 0 0 0) (vec3 3 4 0));
      [discriminate | discriminate | apply sampleCount_sloped].
  - intros t. unfold lerpVectors. simpl. intros [= Hx Hy _]. lra.
Qed.

(** *** A drive between two transmitters *)

Lemma powers_on_axis (x P Q : R) :
  -1000 < x < 1000 ->
  powers openSky (vec3 x 0 0) [tt] [txEast P; txWest Q]
  = [P - fsplDb (1000 - x) 1000; Q - fsplDb (1000 + x) 1000].
Proof.
  intros Hx. unfold powers. simpl. unfold v_sub. simpl.
  replace (0 - 0) with 0 by lra.
  rewrite !v_length_axis, (Rabs_right (1000 - x)), (Rabs_left (-1000 - x))
    by lra.
  replace (- (-1000 - x)) with (1000 + x) by lra.
  f_equal; [| f_equal]; lra.
Qed.

Lemma softmax_pair_index (a b temp : R) :
  snd (softmaxDbm [a; b] temp) = if Rle_dec b a then 0%Z else 1%Z.
Proof.
  cbn [softmaxDbm snd]. unfold indexOf, Math_max. cbn [fold_left indexOf_from].
  destruct (Rle_dec b a) as [H | H].
  - rewrite Rmax_left by exact H.
    destruct (Req_dec_T a a); [reflexivity | congruence].
  - rewrite Rmax_right by lra.
    destruct (Req_dec_T a b); [lra |].
    destruct (Req_dec_T b b); [reflexivity | congruence].
Qed.

(** Between two equal transmitters the nearer one serves: west of the
    middle the second, east of it the first. *)
Lemma bestIdx_on_axis (x : R) :
  -1000 < x < 1000 -> x <> 0 ->
  bestIdx (probeAt openSky (vec3 x 0 0) [txEast 36; txWest 36] [tt])
  = if Rlt_dec x 0 then 2%Z else 1%Z.
Proof.
  intros Hx Hx0. unfold probeAt.
  destruct (probeAtWithRc_fields openSky (vec3 x 0 0) [tt]
              [txEast 36; txWest 36]) as (_ & _ & -> & _).
  rewrite powers_on_axis, softmax_pair_index by exact Hx.
  assert (Hmono : forall d1 d2, 1 <= d1 -> d1 < d2 ->
                    fsplDb d1 1000 < fsplDb d2 1000).
  { intros d1 d2 H1 H2. rewrite !fsplDb_unfold, !dKm_of_far by lra.
    assert (log10 (d1 / 1000) < log10 (d2 / 1000))
      by (apply log10_increasing; lra).
    lra. }
  destruct (Rlt_dec x 0) as [Hneg | Hpos].
  - pose proof (Hmono (1000 + x) (1000 - x)) as H.
    destruct (Rle_dec _ _) as [L | _]; [| reflexivity].
    destruct (Rle_dec 1 (1000 + x)) as [H1 | H1].
    + specialize (H H1 ltac:(lra)). lra.
    + exfalso. rewrite (fsplDb_unfold (1000 + x)), dKm_of_floor in L by lra.
      rewrite <- (dKm_of_floor 1), <- fsplDb_unfold in L by lra.
      specialize (Hmono 1 (1000 - x) ltac:(lra) ltac:(lra)). lra.
  - pose proof (Hmono (1000 - x) (1000 + x)) as H.
    destruct (Rle_dec _ _) as [_ | L]; [reflexivity |].
    exfalso. apply L.
    destruct (Rle_dec 1 (1000 - x)) as [H1 | H1].
    + specialize (H H1 ltac:(lra)). lra.
    + rewrite (fsplDb_unfold (1000 - x)), dKm_of_floor by lra.
      rewrite <- (dKm_of_floor 1), <- fsplDb_unfold by lra.
      specialize (Hmono 1 (1000 + x) ltac:(lra) ltac:(lra)). lra.
Qed.

(** C10: what the analyzer does.  Without two path points, a transmitter
    and a mesh the output is empty.  Otherwise each segment from [a] to
    [b] is sampled at [count = max (2, ceil (length / 6))] parameters
    [k / (count - 1)], interpolating x and z linearly from [a] to [b] at
    the height of [a]; every sample is probed and coloured, and a
    handover event is recorded exactly at the samples whose best server
    differs from that of the sample before, with the sample point and
    both server indices.  The samples are not 6 m apart, as the code's
    own comment on [STEP] has it: a level 12 m segment is probed at its
    two end points only, 12 m apart. *)
Theorem drive_test_trace {Object3D : Type}
  (io : Vector3 -> Vector3 -> R -> list Object3D -> list Intersection)
  (points : list Vector3) (txs : list Tx) (meshes : list Object3D) :
  let o := PathRfOverlay io points txs meshes in
  let served :=
    map (fun q => (q, bestIdx (probeAt io q txs meshes))) (outPts o) in
  ((List.length points < 2)%nat \/ txs = [] \/ meshes = [] ->
   outPts o = [] /\ outCols o = [] /\ hMarkers o = []) /\
  ((2 <= List.length points)%nat -> txs <> [] -> meshes <> [] ->
   outPts o = pathSamples points /\
   outCols o
   = map (fun q => colorForDbm (bestPower (probeAt io q txs meshes)))
         (outPts o) /\
   hMarkers o = handoverEvents served /\
   (forall h, In h (hMarkers o) <->
      exists j, nth_error (map snd served) j = Some (h_from h) /\
                nth_error served (S j) = Some (h_pos h, h_to h) /\
                h_to h <> h_from h)) /\
  (forall a b,
     let count := sampleCount a b in
     count = Z.max 2 (Zceil (Rmax (distanceTo a b) 1e-6 / 6)) /\
     (2 <= count)%Z /\
     samplePoint a b count 0 = a /\
     samplePoint a b count (Z.to_nat count - 1) = vec3 (vx b) (vy a) (vz b) /\
     forall k, samplePoint a b count k
               = vec3 (vx a + (vx b - vx a) * (INR k / (IZR count - 1)))
                      (vy a)
                      (vz a + (vz b - vz a) * (INR k / (IZR count - 1)))) /\
  (txs <> [] -> meshes <> [] ->
   outPts (PathRfOverlay io [vec3 0 0 0; vec3 12 0 0] txs meshes)
   = [vec3 0 0 0; vec3 12 0 0] /\
   distanceTo (vec3 0 0 0) (vec3 12 0 0) = 12 /\
   distanceTo (vec3 0 0 0) (vec3 12 0 0) <> STEP).
Proof.
  intros o served. split; [| split; [| split]].
  - intros Hg. unfold o. rewrite PathRfOverlay_guard by exact Hg.
    repeat split.
  - intros Hp Ht Hm.
    pose proof (PathRfOverlay_traced io txs meshes points Hp Ht Hm) as H.
    cbv zeta beta in H. fold o in H. destruct H as (Hpts & Hcols & Hmarks & _).
    assert (Hmarks' : hMarkers o = handoverEvents served).
    { unfold served. now rewrite Hpts. }
    split; [exact Hpts |]. split; [now rewrite Hpts |].
    split; [exact Hmarks' |].
    intros h. rewrite Hmarks'. apply handoverEvents_iff.
  - intros a b count. split; [reflexivity |].
    pose proof (sampleCount_at_least_2 a b) as Hc. fold count in Hc.
    split; [exact Hc |].
    split; [apply samplePoint_first |].
    split; [now apply samplePoint_last |].
    intros k. apply samplePoint_coordinates.
  - intros Ht Hm. split; [| split].
    + apply (overlay_two_points io txs meshes (vec3 0 0 0) (vec3 12 0 0));
        [exact Ht | exact Hm | apply sampleCount_12m].
    + apply distance_12m.
    + rewrite distance_12m. unfold STEP. lra.
Qed.

(** On the 12 m drive from (-6,0,0) to (6,0,0) between two equal
    transmitters the analyzer probes the two end points and records one
    handover, from the western transmitter (index 2) to the eastern
    (index 1), at the second; with no transmitter it records nothing. *)
Lemma drive_test_trace_witness :
  let drive := [vec3 (-6) 0 0; vec3 6 0 0] in
  let o := PathRfOverlay openSky drive [txEast 36; txWest 36] [tt] in
  outPts o = drive /\
  hMarkers o = [mkHandover (vec3 6 0 0) 2 1] /\
  outPts (PathRfOverlay openSky drive [] [tt]) = [] /\
  outPts (PathRfOverlay openSky [vec3 0 0 0; vec3 12 0 0]
            [txEast 36; txWest 36] [tt])
  = [vec3 0 0 0; vec3 12 0 0].
Proof.
  intros drive o.
  destruct (drive_test_trace openSky drive [txEast 36; txWest 36] [tt])
    as (_ & Htrace & _ & Hbug).
  destruct (drive_test_trace openSky drive [] [tt]) as (Hguard & _).
  fold o in Htrace.
  destruct Htrace as (Hpts & _ & Hmarks & _);
    [simpl; lia | discriminate | discriminate |].
  assert (Hdrive : pathSamples drive = drive)
    by (unfold drive; rewrite pathSamples_two_points;
        [reflexivity | apply sampleCount_across]).
  rewrite Hdrive in Hpts.
  split; [exact Hpts |]. split; [| split].
  - rewrite Hmarks, Hpts. unfold drive. cbn [map handoverEvents changesAfter].
    rewrite !bestIdx_on_axis by lra.
    destruct (Rlt_dec (-6) 0); [| lra]. destruct (Rlt_dec 6 0); [lra |].
    reflexivity.
  - apply Hguard. right. left. reflexivity.
  - apply Hbug; discriminate.
Defined.

(** * Further properties of the engine *)

(** ** Path loss: frequency and scaling *)

Lemma log10_mult (x y : R) : 0 < x -> 0 < y -> log10 (x * y) = log10 x + log10 y.
Proof.
  intros Hx Hy. unfold log10. rewrite ln_mult by assumption.
  field. apply Rgt_not_eq, ln10_pos.
Qed.

Lemma log10_10 : log10 10 = 1.
Proof.
  replace 10 with (10 ^ 1) at 1 by lra. rewrite log10_pow. simpl. lra.
Qed.

(** X1: at any distance the free-space path loss grows strictly with the
    frequency. *)
Theorem fspl_increasing_in_frequency (d f1 f2 : R) :
  0 < f1 -> f1 < f2 -> fsplDb d f1 < fsplDb d f2.
Proof.
  intros H1 H2. rewrite !fsplDb_unfold.
  pose proof (log10_increasing f1 f2 H1 H2). lra.
Qed.

Lemma fspl_increasing_in_frequency_witness : fsplDb 100 900 < fsplDb 100 2400.
Proof. apply fspl_increasing_in_frequency; lra. Defined.

(** X2: beyond the one-metre floor the loss follows the inverse-square
    law: scaling the distance by [k >= 1], or the frequency by [k > 0],
    adds [20 log10 k] dB, so a tenfold distance or frequency costs exactly
    20 dB. *)
Theorem fspl_scaling_law (d f k : R) :
  1 <= d -> 0 < f ->
  (1 <= k -> fsplDb (k * d) f = fsplDb d f + 20 * log10 k) /\
  (0 < k -> fsplDb d (k * f) = fsplDb d f + 20 * log10 k) /\
  fsplDb (10 * d) f = fsplDb d f + 20 /\
  fsplDb d (10 * f) = fsplDb d f + 20.
Proof.
  intros Hd Hf.
  assert (Hdist : forall k, 1 <= k ->
            fsplDb (k * d) f = fsplDb d f + 20 * log10 k).
  { intros k0 Hk. rewrite !fsplDb_unfold, !dKm_of_far by nra.
    replace (k0 * d / 1000) with (k0 * (d / 1000)) by lra.
    rewrite log10_mult by lra. lra. }
  assert (Hfreq : forall k, 0 < k ->
            fsplDb d (k * f) = fsplDb d f + 20 * log10 k).
  { intros k0 Hk. rewrite !fsplDb_unfold, log10_mult by lra. lra. }
  split; [apply Hdist |]. split; [apply Hfreq |]. split.
  - rewrite Hdist, log10_10 by lra. lra.
  - rewrite Hfreq, log10_10 by lra. lra.
Qed.

Lemma fspl_scaling_law_witness :
  fsplDb (10 * 100) 2400 = fsplDb 100 2400 + 20 /\
  fsplDb 100 (10 * 2400) = fsplDb 100 2400 + 20.
Proof.
  destruct (fspl_scaling_law 100 2400 10 ltac:(lra) ltac:(lra))
    as (_ & _ & H1 & H2).
  split; assumption.
Defined.

(** ** Mirror reflection *)

Lemma v_length_unit (a : Vector3) : dot a a = 1 -> v_length a = 1.
Proof. intros H. unfold v_length. fold (dot a a). rewrite H. apply sqrt_1. Qed.

Lemma normalize_unit (a : Vector3) : dot a a = 1 -> normalize a = a.
Proof.
  intros H. unfold normalize. rewrite (v_length_unit a H).
  destruct (Req_dec_T 1 0) as [E | _]; [lra |].
  destruct a as [ax ay az]. unfold multiplyScalar. simpl. f_equal; field.
Qed.

Lemma mirror_unit (d n : Vector3) :
  dot n n = 1 -> dot d d = 1 ->
  dot (v_sub d (multiplyScalar n (2 * dot d n)))
      (v_sub d (multiplyScalar n (2 * dot d n))) = 1.
Proof.
  destruct d as [dx dy dz], n as [nx ny nz].
  unfold dot, v_sub, multiplyScalar. simpl. intros Hn Hd.
  set (s := dx * nx + dy * ny + dz * nz).
  replace ((dx - nx * (2 * s)) * (dx - nx * (2 * s))
           + (dy - ny * (2 * s)) * (dy - ny * (2 * s))
           + (dz - nz * (2 * s)) * (dz - nz * (2 * s)))
    with ((dx * dx + dy * dy + dz * dz) - 4 * s * s
          + 4 * s * s * (nx * nx + ny * ny + nz * nz))
    by (unfold s; ring).
  rewrite Hn, Hd. ring.
Qed.

Lemma reflect_of_units (d n : Vector3) :
  dot n n = 1 -> dot d d = 1 ->
  reflect d n = v_sub d (multiplyScalar n (2 * dot d n)).
Proof.
  intros Hn Hd. unfold reflect. apply normalize_unit. now apply mirror_unit.
Qed.

(** X3: about a unit normal the reflection of a unit direction is the
    mirror image: it has unit length, its component along the normal is
    negated, and reflecting it again gives the direction back. *)
Theorem reflect_is_mirror (d n : Vector3) :
  dot n n = 1 -> dot d d = 1 ->
  dot (reflect d n) (reflect d n) = 1 /\
  dot (reflect d n) n = - dot d n /\
  reflect (reflect d n) n = d.
Proof.
  intros Hn Hd.
  pose proof (reflect_of_units d n Hn Hd) as E.
  pose proof (mirror_unit d n Hn Hd) as Hu. rewrite <- E in Hu.
  assert (Hdot : dot (reflect d n) n = - dot d n).
  { rewrite E. destruct d as [dx dy dz], n as [nx ny nz].
    unfold dot, v_sub, multiplyScalar in *. simpl in *.
    set (s := dx * nx + dy * ny + dz * nz).
    replace ((dx - nx * (2 * s)) * nx + (dy - ny * (2 * s)) * ny
             + (dz - nz * (2 * s)) * nz)
      with (s - 2 * s * (nx * nx + ny * ny + nz * nz))
      by (unfold s; ring).
    rewrite Hn. ring. }
  split; [exact Hu |]. split; [exact Hdot |].
  rewrite (reflect_of_units (reflect d n) n Hn Hu), Hdot, E.
  destruct d as [dx dy dz], n as [nx ny nz].
  unfold dot, v_sub, multiplyScalar. simpl. f_equal; ring.
Qed.

Lemma reflect_is_mirror_witness :
  dot (reflect (vec3 0.6 (-0.8) 0) (vec3 0 1 0)) (vec3 0 1 0) = 0.8 /\
  reflect (reflect (vec3 0.6 (-0.8) 0) (vec3 0 1 0)) (vec3 0 1 0)
  = vec3 0.6 (-0.8) 0.
Proof.
  destruct (reflect_is_mirror (vec3 0.6 (-0.8) 0) (vec3 0 1 0))
    as (_ & H1 & H2); try (unfold dot; simpl; lra).
  split; [| exact H2]. rewrite H1. unfold dot. simpl. lra.
Defined.

(** ** Fibonacci sphere *)

Lemma fibonacci_height_range (n i : nat) :
  (i < n)%nat -> -1 <= 1 - INR i / Rmax (INR n - 1) 1 * 2 <= 1.
Proof.
  intros Hi.
  assert (Hm : 1 <= Rmax (INR n - 1) 1) by apply Rmax_r.
  assert (Hn : INR n - 1 <= Rmax (INR n - 1) 1) by apply Rmax_l.
  assert (Hi0 : 0 <= INR i) by apply pos_INR.
  assert (Hin : INR i <= INR n - 1).
  { apply lt_INR in Hi. assert (INR i + 1 <= INR n); [| lra].
    rewrite <- S_INR. apply le_INR. apply INR_lt in Hi. lia. }
  set (m := Rmax (INR n - 1) 1) in *.
  assert (0 <= INR i / m <= 1).
  { split.
    - apply Rmult_le_pos; [lra | left; apply Rinv_0_lt_compat; lra].
    - apply Rmult_le_reg_r with m; [lra |]. unfold Rdiv.
      rewrite Rmult_assoc, Rinv_l by lra. lra. }
  lra.
Qed.

Lemma fibonacci_nth (n i : nat) :
  (i < n)%nat ->
  let y := 1 - INR i / Rmax (INR n - 1) 1 * 2 in
  let radius := sqrt (1 - y * y) in
  let theta := PI * (3 - sqrt 5) * INR i in
  nth_error (fibonacciSphereDirs n) i
  = Some (vec3 (cos theta * radius) y (sin theta * radius)) /\
  dot (vec3 (cos theta * radius) y (sin theta * radius))
      (vec3 (cos theta * radius) y (sin theta * radius)) = 1.
Proof.
  intros Hi y radius theta.
  pose proof (fibonacci_height_range n i Hi) as Hy. fold y in Hy.
  assert (Hr : 0 <= 1 - y * y) by nra.
  assert (Hunit : dot (vec3 (cos theta * radius) y (sin theta * radius))
                      (vec3 (cos theta * radius) y (sin theta * radius)) = 1).
  { unfold dot. simpl. pose proof (sin2_cos2 theta) as Hsc. unfold Rsqr in Hsc.
    assert (Hrr : radius * radius = 1 - y * y) by (apply sqrt_sqrt; exact Hr).
    replace (cos theta * radius * (cos theta * radius) + y * y
             + sin theta * radius * (sin theta * radius))
      with ((sin theta * sin theta + cos theta * cos theta) * (radius * radius)
            + y * y) by ring.
    rewrite Hsc, Hrr. ring. }
  split; [| exact Hunit].
  unfold fibonacciSphereDirs.
  rewrite nth_error_map, nth_error_seq.
  destruct (Nat.ltb_spec i n); [| lia]. cbn [option_map Nat.add].
  fold y. rewrite (Rmax_left (1 - y * y) 0) by lra. fold radius. fold theta.
  f_equal. now apply normalize_unit.
Qed.

(** X4: [fibonacciSphereDirs n] yields exactly [n] directions, each of
    unit length, at heights that step evenly down from 1; the first one
    points straight up. *)
Theorem fibonacci_dirs_are_unit (n : nat) :
  List.length (fibonacciSphereDirs n) = n /\
  (forall d, In d (fibonacciSphereDirs n) -> dot d d = 1) /\
  (forall i, (i < n)%nat ->
     exists d, nth_error (fibonacciSphereDirs n) i = Some d /\
               vy d = 1 - INR i / Rmax (INR n - 1) 1 * 2 /\
               -1 <= vy d <= 1) /\
  ((0 < n)%nat -> nth_error (fibonacciSphereDirs n) 0 = Some (vec3 0 1 0)).
Proof.
  split; [| split; [| split]].
  - unfold fibonacciSphereDirs. now rewrite length_map, length_seq.
  - intros d Hd. apply In_nth_error in Hd as [i Hi].
    assert (Hlt : (i < n)%nat).
    { assert (nth_error (fibonacciSphereDirs n) i <> None) by congruence.
      apply nth_error_Some in H. unfold fibonacciSphereDirs in H.
      now rewrite length_map, length_seq in H. }
    destruct (fibonacci_nth n i Hlt) as [E Hu]. cbv zeta in E, Hu.
    rewrite E in Hi. injection Hi as <-. exact Hu.
  - intros i Hi. destruct (fibonacci_nth n i Hi) as [E _]. cbv zeta in E.
    eexists. split; [exact E |]. cbn [vy].
    split; [reflexivity | now apply fibonacci_height_range].
  - intros Hn. destruct (fibonacci_nth n 0 Hn) as [E _]. cbv zeta in E.
    rewrite E. cbn [INR]. f_equal.
    replace (1 - 0 / Rmax (INR n - 1) 1 * 2) with 1 by (unfold Rdiv; ring).
    replace (1 - 1 * 1) with 0 by ring. rewrite sqrt_0.
    f_equal; ring.
Qed.

Lemma fibonacci_dirs_are_unit_witness :
  nth_error (fibonacciSphereDirs 260) 0 = Some (vec3 0 1 0) /\
  exists d, nth_error (fibonacciSphereDirs 260) 259 = Some d /\ -1 <= vy d <= 1.
Proof.
  destruct (fibonacci_dirs_are_unit 260) as (_ & _ & Hi & H0).
  split; [apply H0; lia |].
  destruct (Hi 259%nat ltac:(lia)) as (d & Hd & _ & Hr).
  exists d. split; assumption.
Defined.

(** ** Softmax: best index, order and shift *)

Lemma indexOf_from_first (l : list R) (x : R) (i : Z) :
  In x l ->
  exists k, indexOf_from l x i = (i + Z.of_nat k)%Z /\
            nth_error l k = Some x /\
            forall j, (j < k)%nat -> nth_error l j <> Some x.
Proof.
  revert i. induction l as [| v l IH]; intros i Hin; [destruct Hin |].
  simpl. destruct (Req_dec_T v x) as [E | NE].
  - exists 0%nat. subst. repeat split; [lia | intros j Hj; lia].
  - destruct Hin as [E | Hin]; [congruence |].
    destruct (IH (i + 1)%Z Hin) as (k & Hk & Hn & Hfirst).
    exists (S k). repeat split; [lia | exact Hn |].
    intros [| j] Hj; simpl; [congruence | apply Hfirst; lia].
Qed.

(** X5: on a non-empty list [softmaxDbm] returns as best index the first
    position that holds the largest value. *)
Theorem softmax_best_index (values : list R) (temp : R) :
  values <> [] ->
  exists k best,
    snd (softmaxDbm values temp) = Z.of_nat k /\
    nth_error values k = Some best /\
    (forall v, In v values -> v <= best) /\
    (forall j, (j < k)%nat -> nth_error values j <> Some best).
Proof.
  intros Hne. destruct values as [| v0 vs]; [congruence |].
  destruct (softmaxDbm_cons v0 vs temp) as [-> _]. cbn [snd].
  destruct (indexOf_from_first (v0 :: vs) (Math_max v0 vs) 0 (Math_max_in v0 vs))
    as (k & Hk & Hn & Hfirst).
  exists k, (Math_max v0 vs). unfold indexOf. rewrite Hk.
  repeat split; auto. intros v Hv. now apply Math_max_upper.
Qed.

Lemma softmax_best_index_witness :
  exists k best,
    snd (softmaxDbm [-90; -60; -60] 4) = Z.of_nat k /\
    nth_error [-90; -60; -60] k = Some best /\
    (forall v, In v [-90; -60; -60] -> v <= best).
Proof.
  destruct (softmax_best_index [-90; -60; -60] 4 ltac:(discriminate))
    as (k & best & H1 & H2 & H3 & _).
  exists k, best. repeat split; assumption.
Defined.

Lemma softmax_weight_nth (v0 : R) (vs : list R) (temp : R) (i : nat) (v : R) :
  nth_error (v0 :: vs) i = Some v ->
  let maxv := Math_max v0 vs in
  let s := reduce_add (map (fun x => exp ((x - maxv) / temp)) (v0 :: vs)) in
  nth_error (fst (softmaxDbm (v0 :: vs) temp)) i
  = Some (exp ((v - maxv) / temp) / s) /\ 0 < s.
Proof.
  intros Hn maxv s.
  destruct (softmaxDbm_cons v0 vs temp) as [-> Hpos]. cbn [fst].
  fold maxv in Hpos |- *. fold s in Hpos |- *. split; [| exact Hpos].
  rewrite nth_error_map, nth_error_map, Hn. reflexivity.
Qed.

(** X6: for a positive temperature the weights follow the powers: a
    transmitter received at least as strongly as another never gets the
    smaller weight, strictly stronger means strictly heavier, and equal
    powers get equal weights. *)
Theorem softmax_weights_follow_powers (values : list R) (temp : R)
  (i j : nat) (vi vj : R) :
  0 < temp ->
  nth_error values i = Some vi -> nth_error values j = Some vj ->
  exists wi wj,
    nth_error (fst (softmaxDbm values temp)) i = Some wi /\
    nth_error (fst (softmaxDbm values temp)) j = Some wj /\
    (vi <= vj -> wi <= wj) /\ (vi < vj -> wi < wj) /\ (vi = vj -> wi = wj).
Proof.
  intros Ht Hi Hj. destruct values as [| v0 vs]; [destruct i; discriminate |].
  destruct (softmax_weight_nth v0 vs temp i vi Hi) as [Ei Hs].
  destruct (softmax_weight_nth v0 vs temp j vj Hj) as [Ej _].
  cbv zeta in Ei, Ej, Hs.
  set (maxv := Math_max v0 vs) in *.
  set (s := reduce_add (map (fun x => exp ((x - maxv) / temp)) (v0 :: vs))) in *.
  exists (exp ((vi - maxv) / temp) / s), (exp ((vj - maxv) / temp) / s).
  split; [exact Ei |]. split; [exact Ej |].
  assert (Hinv : 0 < / s) by now apply Rinv_0_lt_compat.
  assert (Hti : 0 < / temp) by now apply Rinv_0_lt_compat.
  assert (Hlt : vi < vj ->
                exp ((vi - maxv) / temp) / s < exp ((vj - maxv) / temp) / s).
  { intros H. apply Rmult_lt_compat_r; [exact Hinv |].
    apply exp_increasing. unfold Rdiv. apply Rmult_lt_compat_r; [exact Hti | lra]. }
  split; [| split].
  - intros [H | ->]; [left; now apply Hlt | right; reflexivity].
  - exact Hlt.
  - now intros ->.
Qed.

Lemma softmax_weights_follow_powers_witness :
  exists wi wj,
    nth_error (fst (softmaxDbm [-90; -60] 4)) 0 = Some wi /\
    nth_error (fst (softmaxDbm [-90; -60] 4)) 1 = Some wj /\ wi < wj.
Proof.
  destruct (softmax_weights_follow_powers [-90; -60] 4 0 1 (-90) (-60)
              ltac:(lra) eq_refl eq_refl) as (wi & wj & H1 & H2 & _ & H3 & _).
  exists wi, wj. repeat split; try assumption. apply H3. lra.
Defined.

Lemma Math_max_shift (c v0 : R) (vs : list R) :
  Math_max (v0 + c) (map (fun v => v + c) vs) = Math_max v0 vs + c.
Proof.
  unfold Math_max. revert v0. induction vs as [| v vs IH]; intros v0; simpl.
  - reflexivity.
  - rewrite <- IH. f_equal. unfold Rmax.
    destruct (Rle_dec (v0 + c) (v + c)), (Rle_dec v0 v); try reflexivity; lra.
Qed.

Lemma indexOf_from_shift (c x : R) (l : list R) (i : Z) :
  indexOf_from (map (fun v => v + c) l) (x + c) i = indexOf_from l x i.
Proof.
  revert i. induction l as [| v l IH]; intros i; simpl; [reflexivity |].
  destruct (Req_dec_T (v + c) (x + c)), (Req_dec_T v x);
    try reflexivity; try lra. apply IH.
Qed.

(** X7: raising every received power by the same number of dB changes
    neither the weights nor the best index. *)
Theorem softmax_shift_invariant (values : list R) (temp c : R) :
  softmaxDbm (map (fun v => v + c) values) temp = softmaxDbm values temp.
Proof.
  destruct values as [| v0 vs]; [reflexivity |].
  change (map (fun v => v + c) (v0 :: vs))
    with ((v0 + c) :: map (fun v => v + c) vs).
  destruct (softmaxDbm_cons (v0 + c) (map (fun v => v + c) vs) temp) as [-> _].
  destruct (softmaxDbm_cons v0 vs temp) as [-> _].
  rewrite Math_max_shift. set (maxv := Math_max v0 vs).
  change ((v0 + c) :: map (fun v => v + c) vs)
    with (map (fun v => v + c) (v0 :: vs)).
  unfold indexOf. rewrite indexOf_from_shift.
  assert (E : map (fun v => exp ((v - (maxv + c)) / temp))
                  (map (fun v => v + c) (v0 :: vs))
              = map (fun v => exp ((v - maxv) / temp)) (v0 :: vs)).
  { rewrite map_map. apply map_ext. intros a. f_equal. lra. }
  rewrite E. reflexivity.
Qed.

Lemma reduce_add_ones (l : list R) :
  reduce_add (map (fun _ => 1) l) = INR (List.length l).
Proof.
  induction l as [| x l IH].
  - reflexivity.
  - cbn [map]. rewrite reduce_add_cons, IH.
    change (List.length (x :: l)) with (S (List.length l)).
    rewrite S_INR. lra.
Qed.

(** X8: transmitters received at the same power share the blend evenly:
    each of the [n] weights is [1 / n]. *)
Theorem softmax_equal_powers (v temp : R) (values : list R) :
  values <> [] -> Forall (fun x => x = v) values ->
  Forall (fun w => w = 1 / INR (List.length values)) (fst (softmaxDbm values temp)).
Proof.
  intros Hne Hall. destruct values as [| v0 vs]; [congruence |].
  destruct (softmaxDbm_cons v0 vs temp) as [-> _]. cbn [fst].
  assert (Hmax : Math_max v0 vs = v).
  { rewrite Forall_forall in Hall. apply Hall, Math_max_in. }
  rewrite Hmax.
  assert (E : map (fun x => exp ((x - v) / temp)) (v0 :: vs)
              = map (fun _ => 1) (v0 :: vs)).
  { apply map_ext_in. intros a Ha. rewrite Forall_forall in Hall.
    rewrite (Hall a Ha). replace ((v - v) / temp) with 0 by (unfold Rdiv; ring).
    apply exp_0. }
  rewrite E, reduce_add_ones. rewrite map_map.
  apply Forall_forall. intros w Hw. apply in_map_iff in Hw as (a & <- & _).
  reflexivity.
Qed.

Lemma softmax_equal_powers_witness :
  Forall (fun w => w = 1 / INR 2) (fst (softmaxDbm [-64; -64] 4)).
Proof.
  apply (softmax_equal_powers (-64) 4 [-64; -64]).
  - discriminate.
  - repeat constructor.
Defined.

(** ** Reflection loss bands and the city's materials *)

Lemma grazing_head_on (n : Vector3) :
  dot n n = 1 -> 1 - Rabs (dot (normalize n) (normalize n)) = 0.
Proof.
  intros H. rewrite (normalize_unit n H), H, Rabs_R1. ring.
Qed.

Lemma normalize_dot_orthogonal (n d : Vector3) :
  dot n d = 0 -> dot (normalize n) (normalize d) = 0.
Proof.
  intros H. unfold normalize.
  set (a := 1 / (if Req_dec_T (v_length n) 0 then 1 else v_length n)).
  set (b := 1 / (if Req_dec_T (v_length d) 0 then 1 else v_length d)).
  destruct n as [nx ny nz], d as [dx dy dz].
  unfold dot, multiplyScalar in *. simpl in *.
  replace (nx * a * (dx * b) + ny * a * (dy * b) + nz * a * (dz * b))
    with ((nx * dx + ny * dy + nz * dz) * (a * b)) by ring.
  rewrite H. ring.
Qed.

(** X9: the reflection loss stays in the band of its material: 10 to
    20 dB for glass, 0 to 3 dB for metal and 3 to 9 dB for anything else,
    the low end at head-on incidence and the high end at grazing
    incidence. *)
Theorem reflection_loss_bands (mt : option string) (n d : Vector3) :
  let loss := materialReflectionLossDb mt n d in
  let lo := if match mt with Some s => String.eqb s "glass" | None => false end
            then 10
            else if match mt with Some s => String.eqb s "metal" | None => false end
                 then 0 else 3 in
  let hi := if match mt with Some s => String.eqb s "glass" | None => false end
            then 20
            else if match mt with Some s => String.eqb s "metal" | None => false end
                 then 3 else 9 in
  lo <= loss <= hi /\
  (dot n n = 1 -> materialReflectionLossDb mt n n = lo) /\
  (dot n d = 0 -> loss = hi).
Proof.
  intros loss lo hi. unfold loss, lo, hi, materialReflectionLossDb.
  pose proof (grazing_range n d) as Hg.
  split; [| split].
  - destruct mt as [s |]; [| lra].
    destruct (String.eqb s "glass"); [lra |].
    destruct (String.eqb s "metal"); lra.
  - intros Hn. rewrite (grazing_head_on n Hn).
    destruct mt as [s |]; [| lra].
    destruct (String.eqb s "glass"); [lra |].
    destruct (String.eqb s "metal"); lra.
  - intros Ho. rewrite (normalize_dot_orthogonal n d Ho), Rabs_R0.
    destruct mt as [s |]; [| lra].
    destruct (String.eqb s "glass"); [lra |].
    destruct (String.eqb s "metal"); lra.
Qed.

Lemma reflection_loss_bands_witness :
  materialReflectionLossDb (Some "glass"%string) (vec3 0 1 0) (vec3 0 1 0) = 10 /\
  materialReflectionLossDb (Some "glass"%string) (vec3 0 1 0) (vec3 1 0 0) = 20.
Proof.
  destruct (reflection_loss_bands (Some "glass"%string) (vec3 0 1 0) (vec3 0 1 0))
    as (_ & H1 & _).
  destruct (reflection_loss_bands (Some "glass"%string) (vec3 0 1 0) (vec3 1 0 0))
    as (_ & _ & H2).
  split.
  - apply H1. unfold dot. simpl. lra.
  - apply H2. unfold dot. simpl. lra.
Defined.

(** X10: the city model tags every mesh as water, terrain, concrete or
    glass and never as metal; glass is exactly the high-rise material;
    so a reflection off any tagged mesh costs at least 3 dB. *)
Theorem city_materials_never_metal (bb : Box3) (worldPos : Vector3)
  (globalMinY globalMaxY : R) (n d : Vector3) :
  let '(mat, mtype) := classifyMesh bb worldPos globalMinY globalMaxY in
  In mtype ["water"; "terrain"; "concrete"; "glass"]%string /\
  mtype <> "metal"%string /\
  (mtype = "glass"%string <-> mat = highMat) /\
  3 <= materialReflectionLossDb (Some mtype) n d <= 20.
Proof.
  unfold classifyMesh.
  pose proof (grazing_range n d) as Hg.
  repeat match goal with
         | |- context [if ?c then _ else _] => destruct c
         end;
    (split; [simpl; tauto |]); (split; [discriminate |]);
    (split; [split; (discriminate || reflexivity) |]);
    unfold materialReflectionLossDb; simpl; lra.
Qed.

Lemma city_materials_never_metal_witness :
  3 <= materialReflectionLossDb
         (Some (snd (classifyMesh (mkBox3 (vec3 0 0 0) (vec3 20 300 20))
                       origin3 0 300)))
         (vec3 1 0 0) (vec3 0 0 1) <= 20.
Proof.
  pose proof (city_materials_never_metal (mkBox3 (vec3 0 0 0) (vec3 20 300 20))
                origin3 0 300 (vec3 1 0 0) (vec3 0 0 1)) as H.
  destruct (classifyMesh (mkBox3 (vec3 0 0 0) (vec3 20 300 20)) origin3 0 300)
    as [mat mtype].
  destruct H as (_ & _ & _ & H). exact H.
Defined.

(** ** Ray bundles: the loss ledger *)

Section Ledger.

Context {Object3D : Type}.
Variable io : Vector3 -> Vector3 -> R -> list Object3D -> list Intersection.
Variable tx : Tx.
Variable meshes : list Object3D.

Lemma march_ledger (remaining : nat) :
  forall (origin dir : Vector3) (power : R) (first : bool)
         (hops0 : list RayHop) (segs0 : list Segment),
  exists newH newS,
    march io tx meshes remaining origin dir power first hops0 segs0
    = (hops0 ++ newH, segs0 ++ newS) /\
    ledger (freqMHz tx) power first newH /\
    tracesHops first newH newS /\
    Forall (fun s => seg_color s = color tx) newS.
Proof.
  induction remaining as [| n IH]; intros origin dir power first hops0 segs0.
  - exists [], []. simpl. rewrite !app_nil_r. auto.
  - simpl. destruct (Rgtb power MIN_POWER_DBM) eqn:Epow.
    2: { exists [], []. simpl. rewrite !app_nil_r. auto. }
    apply Rgtb_true in Epow.
    destruct (io origin dir 5000 meshes) as [| hit _].
    { exists [], []. simpl. rewrite !app_nil_r. auto. }
    set (n0 := match hit_normal hit with Some fn => fn | None => vec3 0 1 0 end).
    set (fspl := fsplDb (hit_distance hit) (freqMHz tx)).
    set (refl := if first then 0
                 else materialReflectionLossDb (hit_materialType hit) n0 dir).
    set (power2 := if first then power - fspl else power - fspl - refl).
    set (hop := mkRayHop origin (hit_point hit) (hit_distance hit) fspl refl
                  (if first then "los"%string
                   else materialLabel (hit_materialType hit)) power2).
    set (sg := mkSegment (origin, hit_point hit) first (color tx)
                 (clamp ((power2 - MIN_POWER_DBM) / (DEFAULT_PWR - MIN_POWER_DBM))
                        0.15 1)).
    assert (Hhop : fsplLoss hop = fsplDb (hop_distance hop) (freqMHz tx) /\
                   (if first then reflLoss hop = 0 /\ material hop = "los"%string
                    else 0 <= reflLoss hop <= 20) /\
                   prAfter hop = power - fsplLoss hop - reflLoss hop /\
                   MIN_POWER_DBM < power).
    { unfold hop, power2, refl. cbn [fsplLoss hop_distance reflLoss material prAfter].
      split; [reflexivity |]. split; [| split; [| exact Epow]].
      - destruct first; [split; reflexivity |].
        apply materialReflectionLossDb_range.
      - destruct first; lra. }
    destruct Hhop as (H1 & H2 & H3 & H4).
    destruct (Rleb power2 MIN_POWER_DBM).
    + exists [hop], [sg]. cbn [ledger tracesHops]. repeat split; auto.
    + destruct (IH (v_add (hit_point hit) (multiplyScalar (reflect dir n0) 0.25))
                   (reflect dir n0) power2 false (hops0 ++ [hop]) (segs0 ++ [sg]))
        as (newH & newS & -> & Hled & Htr & Hcol).
      exists (hop :: newH), (sg :: newS). rewrite <- !app_assoc.
      cbn [ledger tracesHops app]. repeat split; auto.
Qed.

Lemma bundle_ledger (rayCount maxBounces : nat) (b : RayBundle) :
  In b (buildRayBundle io tx meshes rayCount maxBounces) ->
  ledger (freqMHz tx) (powerDbm tx) true (hops b) /\
  tracesHops true (hops b) (segments b) /\
  Forall (fun s => seg_color s = color tx) (segments b).
Proof.
  intros Hin.
  destruct (buildRayBundle_bundles io tx meshes rayCount maxBounces b Hin)
    as (dir & _ & Hcast & _).
  unfold castRay in Hcast.
  destruct (march_ledger (S maxBounces)
              (v_add (pos tx) (multiplyScalar dir 0.5)) dir (powerDbm tx) true [] [])
    as (newH & newS & E & H).
  rewrite E in Hcast. cbn [app] in Hcast. injection Hcast as <- <-. exact H.
Qed.

End Ledger.

Lemma ledger_first (freq power : R) (h : RayHop) (rest : list RayHop) :
  ledger freq power true (h :: rest) ->
  reflLoss h = 0 /\ material h = "los"%string /\ prAfter h = power - fsplLoss h.
Proof. cbn. intros (_ & [H1 H2] & H3 & _). rewrite H3, H1. repeat split; auto; lra. Qed.

Lemma ledger_all (freq power : R) (first : bool) (hs : list RayHop) (h : RayHop) :
  ledger freq power first hs -> In h hs ->
  fsplLoss h = fsplDb (hop_distance h) freq /\
  0 <= reflLoss h <= 20 /\
  MIN_POWER_DBM - fsplLoss h - reflLoss h < prAfter h.
Proof.
  revert power first. induction hs as [| h0 hs IH]; intros power first Hl Hin.
  - destruct Hin.
  - cbn in Hl. destruct Hl as (H1 & H2 & H3 & H4 & Hrest).
    destruct Hin as [<- | Hin]; [| now apply (IH (prAfter h0) false)].
    split; [exact H1 |]. split; [destruct first; lra | lra].
Qed.

Lemma ledger_step (freq power : R) (first : bool) (hs : list RayHop)
  (i : nat) (h h' : RayHop) :
  ledger freq power first hs ->
  nth_error hs i = Some h -> nth_error hs (S i) = Some h' ->
  prAfter h' = prAfter h - fsplLoss h' - reflLoss h'.
Proof.
  revert power first i. induction hs as [| h0 hs IH]; intros power first i Hl Hi Hi'.
  - destruct i; discriminate.
  - cbn in Hl. destruct Hl as (_ & _ & _ & _ & Hrest).
    destruct i as [| i]; simpl in Hi, Hi'.
    + injection Hi as ->. destruct hs as [| h1 hs]; [discriminate |].
      simpl in Hi'. injection Hi' as ->. cbn in Hrest. tauto.
    + now apply (IH (prAfter h0) false i).
Qed.

Lemma tracesHops_nth (first : bool) (hs : list RayHop) (sgs : list Segment) :
  tracesHops first hs sgs ->
  List.length sgs = List.length hs /\
  forall i h s, nth_error hs i = Some h -> nth_error sgs i = Some s ->
    seg_points s = (hop_from h, hop_to h) /\
    seg_los s = (if (i =? 0)%nat then first else false) /\
    0.15 <= seg_alpha s <= 1.
Proof.
  revert first sgs. induction hs as [| h0 hs IH]; intros first sgs Ht.
  - destruct sgs; [| destruct Ht]. split; [reflexivity |].
    intros i h s Hi. destruct i; discriminate.
  - destruct sgs as [| s0 sgs]; [destruct Ht |].
    cbn in Ht. destruct Ht as (Hp & Hl & Ha & Hrest).
    destruct (IH false sgs Hrest) as [Hlen Hnth].
    split; [simpl; now rewrite Hlen |].
    intros [| i] h s Hi Hs; simpl in Hi, Hs.
    + injection Hi as <-. injection Hs as <-.
      split; [exact Hp |]. split; [exact Hl |].
      rewrite Ha. unfold clamp. split; [apply Rmax_l |].
      apply Rmax_lub; [lra | apply Rmin_l].
    + destruct (Hnth i h s Hi Hs) as (H1 & H2 & H3).
      split; [exact H1 |]. split; [| exact H3].
      rewrite H2. destruct i; reflexivity.
Qed.

(** X11: the hops of a bundle keep a loss ledger.  The first hop is the
    line-of-sight hop, with no reflection loss, and ends at the transmit
    power minus its free-space loss; every later hop ends at the power of
    the hop before minus its free-space and reflection losses; the
    free-space loss is that of the hop's length at the transmitter's
    frequency and the reflection loss is between 0 and 20 dB. *)
Theorem ray_bundle_loss_ledger {Object3D : Type}
  (io : Vector3 -> Vector3 -> R -> list Object3D -> list Intersection)
  (tx : Tx) (meshes : list Object3D) (rayCount maxBounces : nat)
  (b : RayBundle) :
  In b (buildRayBundle io tx meshes rayCount maxBounces) ->
  (exists h0, nth_error (hops b) 0 = Some h0 /\
              reflLoss h0 = 0 /\ material h0 = "los"%string /\
              prAfter h0 = powerDbm tx - fsplLoss h0) /\
  (forall i h h', nth_error (hops b) i = Some h ->
                  nth_error (hops b) (S i) = Some h' ->
                  prAfter h' = prAfter h - fsplLoss h' - reflLoss h') /\
  (forall h, In h (hops b) ->
             fsplLoss h = fsplDb (hop_distance h) (freqMHz tx) /\
             0 <= reflLoss h <= 20).
Proof.
  intros Hin.
  destruct (bundle_ledger io tx meshes rayCount maxBounces b Hin) as (Hl & Ht & _).
  destruct (buildRayBundle_bundles io tx meshes rayCount maxBounces b Hin)
    as (_ & _ & _ & Hseg).
  split; [| split].
  - destruct (hops b) as [| h0 rest] eqn:E.
    + destruct (segments b); [congruence | destruct Ht].
    + exists h0. split; [reflexivity |].
      now apply (ledger_first (freqMHz tx) (powerDbm tx) h0 rest).
  - intros i h h' Hi Hi'.
    now apply (ledger_step (freqMHz tx) (powerDbm tx) true (hops b) i).
  - intros h Hh.
    destruct (ledger_all (freqMHz tx) (powerDbm tx) true (hops b) h Hl Hh)
      as (H1 & H2 & _). auto.
Qed.

Lemma ray_bundle_loss_ledger_witness :
  exists b h0,
    In b (buildRayBundle (surfaceAt 1000) (txEast 36) [tt] 1 MAX_BOUNCES) /\
    nth_error (hops b) 0 = Some h0 /\ reflLoss h0 = 0 /\
    prAfter h0 = 36 - fsplLoss h0.
Proof.
  destruct bundle_1km_surfaces as (b & _ & _ & Hb & _).
  destruct (ray_bundle_loss_ledger (surfaceAt 1000) (txEast 36) [tt] 1
              MAX_BOUNCES b Hb) as ((h0 & H0 & H1 & _ & H2) & _).
  exists b, h0. auto.
Defined.



(** X13: for a transmitter on a positive frequency a bundle draws one
    segment per hop, from the hop's origin to its hit point, in the
    transmitter's colour; only the first segment is flagged line-of-sight
    and every opacity lies between 0.15 and 1. *)
Theorem ray_bundle_segments_follow_hops {Object3D : Type}
  (io : Vector3 -> Vector3 -> R -> list Object3D -> list Intersection)
  (tx : Tx) (meshes : list Object3D) (rayCount maxBounces : nat)
  (b : RayBundle) :
  0 < freqMHz tx ->
  In b (buildRayBundle io tx meshes rayCount maxBounces) ->
  List.length (segments b) = List.length (hops b) /\
  (forall i h s, nth_error (hops b) i = Some h ->
                 nth_error (segments b) i = Some s ->
     fsplDb_ieee (hop_distance h) (freqMHz tx) = Fin (fsplLoss h) /\
     seg_points s = (hop_from h, hop_to h) /\
     seg_los s = (i =? 0)%nat /\
     0.15 <= seg_alpha s <= 1 /\
     seg_color s = color tx).
Proof.
  intros Hfreq Hin.
  destruct (bundle_ledger io tx meshes rayCount maxBounces b Hin)
    as (Hled & Ht & Hcol).
  destruct (tracesHops_nth true (hops b) (segments b) Ht) as [Hlen Hnth].
  split; [exact Hlen |]. intros i h s Hi Hs.
  destruct (Hnth i h s Hi Hs) as (H1 & H2 & H3).
  split.
  { destruct (fsplDb_ieee_values (hop_distance h) (freqMHz tx)) as [Hv _].
    rewrite (Hv Hfreq). f_equal.
    destruct (ledger_all _ _ _ _ h Hled (nth_error_In _ _ Hi)) as [Hf _].
    now rewrite Hf. }
  split; [exact H1 |]. split; [rewrite H2; now destruct (i =? 0)%nat |].
  split; [exact H3 |].
  rewrite Forall_forall in Hcol. apply Hcol. eapply nth_error_In; eauto.
Qed.

Lemma ray_bundle_segments_follow_hops_witness :
  exists b,
    In b (buildRayBundle (surfaceAt 1000) (txEast 36) [tt] 1 MAX_BOUNCES) /\
    List.length (segments b) = List.length (hops b).
Proof.
  destruct bundle_1km_surfaces as (b & _ & _ & Hb & _).
  exists b. split; [exact Hb |].
  apply (ray_bundle_segments_follow_hops (surfaceAt 1000) (txEast 36) [tt] 1
           MAX_BOUNCES b ltac:(simpl; lra) Hb).
Defined.

(** X14: a transmitter gets at most one bundle per sampled direction,
    each in its own colour, and none at all while there are no meshes or
    no rays. *)
Theorem ray_bundle_count {Object3D : Type}
  (io : Vector3 -> Vector3 -> R -> list Object3D -> list Intersection)
  (tx : Tx) (meshes : list Object3D) (rayCount maxBounces : nat) :
  (List.length (buildRayBundle io tx meshes rayCount maxBounces) <= rayCount)%nat /\
  Forall (fun b => bundle_color b = color tx)
         (buildRayBundle io tx meshes rayCount maxBounces) /\
  buildRayBundle io tx [] rayCount maxBounces = [] /\
  buildRayBundle io tx meshes 0 maxBounces = [].
Proof.
  assert (G : forall (ms : list Object3D) dirs acc,
             let step := fun (bundles : list RayBundle) (dir : Vector3) =>
               let '(hs, sgs) := castRay io tx ms maxBounces dir in
               match sgs with
               | [] => bundles
               | _ :: _ => bundles ++ [mkRayBundle sgs hs (color tx)]
               end in
             (List.length (fold_left step dirs acc)
              <= List.length acc + List.length dirs)%nat /\
             (Forall (fun b => bundle_color b = color tx) acc ->
              Forall (fun b => bundle_color b = color tx) (fold_left step dirs acc))).
  { intros ms dirs. induction dirs as [| d dirs IH]; intros acc step.
    - simpl. split; [lia | auto].
    - cbn [fold_left]. destruct (IH (step acc d)) as [Hlen Hcol].
      fold step in Hlen, Hcol.
      assert (Hs : (List.length (step acc d) <= S (List.length acc))%nat /\
                   (Forall (fun b => bundle_color b = color tx) acc ->
                    Forall (fun b => bundle_color b = color tx) (step acc d))).
      { unfold step. destruct (castRay io tx ms maxBounces d) as [hs sgs].
        destruct sgs as [| sg sgs].
        - split; [lia | auto].
        - split; [rewrite length_app; simpl; lia |].
          intros Hacc. apply Forall_app. split; [exact Hacc |].
          constructor; [reflexivity | constructor]. }
      destruct Hs as [Hs1 Hs2]. split; [simpl; lia | auto]. }
  split; [| split; [| split]].
  - unfold buildRayBundle. destruct meshes as [| m ms]; [simpl; lia |].
    destruct (G (m :: ms) (fibonacciSphereDirs rayCount) []) as [H _].
    cbv zeta in H. unfold fibonacciSphereDirs in H at 2.
    rewrite length_map, length_seq in H. exact H.
  - unfold buildRayBundle. destruct meshes as [| m ms]; [constructor |].
    destruct (G (m :: ms) (fibonacciSphereDirs rayCount) []) as [_ H].
    apply H. constructor.
  - reflexivity.
  - unfold buildRayBundle. destruct meshes; reflexivity.
Qed.

(** ** The probe: best server, margin, interference and colour *)

Lemma probeAll_rows_idx {Object3D : Type}
  (io : Vector3 -> Vector3 -> R -> list Object3D -> list Intersection)
  (p : Vector3) (meshes : list Object3D) (txs : list Tx) (idx k : nat)
  (row : ProbeRow) :
  nth_error (map snd (probeAll io p meshes idx txs)) k = Some row ->
  row_idx row = (idx + k + 1)%nat /\
  nth_error (map fst (probeAll io p meshes idx txs)) k = Some (row_pr row) /\
  exists t, nth_error txs k = Some t /\ row_freq row = freqMHz t /\
            row_dist row = v_length (v_sub (pos t) p).
Proof.
  revert idx k. induction txs as [| t txs IH]; intros idx k H.
  - destruct k; discriminate.
  - destruct k as [| k]; simpl in H |- *.
    + injection H as <-. cbn. split; [lia |]. split; [reflexivity |].
      exists t. repeat split.
    + destruct (IH (S idx) k H) as (H1 & H2 & H3).
      split; [lia | split; assumption].
Qed.

(** X15: over a non-empty set of transmitters on positive frequencies
    the best index names, counting from 1, the first row whose power is
    the best power; that row carries the same index in its [idx] field. *)
Theorem probe_best_index_names_best_row {Object3D : Type}
  (io : Vector3 -> Vector3 -> R -> list Object3D -> list Intersection)
  (p : Vector3) (txs : list Tx) (meshes : list Object3D) :
  txs <> [] -> positiveFreq txs ->
  let r := probeAtWithRc io p txs meshes in
  Forall2 (rowReceived p) txs (rows r) /\
  exists k row,
    bestIdx r = Z.of_nat (k + 1) /\
    (k < List.length txs)%nat /\
    nth_error (rows r) k = Some row /\
    row_idx row = (k + 1)%nat /\
    bestPower r = Fin (row_pr row) /\
    (forall j row', (j < k)%nat -> nth_error (rows r) j = Some row' ->
                    row_pr row' < row_pr row).
Proof.
  intros Hne Hfreq r.
  split; [now apply probe_rows_received |].
  destruct (powers_nonempty io p meshes txs Hne) as (v0 & vs & E).
  pose proof (bestPower_is_max io p meshes txs v0 vs E) as Hbest.
  pose proof (map_row_pr_rows io p meshes txs) as Hpr.
  destruct (probeAtWithRc_fields io p meshes txs) as (Hrows & _ & Hidx & _).
  fold r in Hbest, Hpr, Hrows, Hidx.
  rewrite E in Hidx.
  destruct (softmaxDbm_cons v0 vs 4) as [Esm _]. rewrite Esm in Hidx.
  cbn [snd] in Hidx. unfold indexOf in Hidx.
  destruct (indexOf_from_first (v0 :: vs) (Math_max v0 vs) 0 (Math_max_in v0 vs))
    as (k & Hk & Hn & Hfirst).
  rewrite Hk in Hidx.
  assert (Hkl : (k < List.length txs)%nat).
  { rewrite <- (powers_length io p meshes txs), E.
    apply nth_error_Some. congruence. }
  assert (Hrow : exists row, nth_error (rows r) k = Some row).
  { destruct (nth_error (rows r) k) eqn:Er; [eauto |].
    apply nth_error_None in Er.
    rewrite <- (length_map row_pr), Hpr, powers_length in Er. lia. }
  destruct Hrow as [row Hrow].
  assert (Hrp : row_pr row = Math_max v0 vs).
  { pose proof (map_nth_error row_pr k (rows r) Hrow) as Hm.
    rewrite Hpr, E, Hn in Hm. congruence. }
  exists k, row.
  split.
  { rewrite Hidx. destruct (0 + Z.of_nat k >=? 0)%Z eqn:Eg; lia. }
  split; [exact Hkl |]. split; [exact Hrow |].
  split.
  { rewrite Hrows in Hrow.
    destruct (probeAll_rows_idx io p meshes txs 0 k row Hrow) as (H1 & _). lia. }
  split; [now rewrite Hrp |].
  intros j row' Hj Hrow'.
  pose proof (map_nth_error row_pr j (rows r) Hrow') as Hm.
  rewrite Hpr, E in Hm. rewrite Hrp.
  assert (Hle : row_pr row' <= Math_max v0 vs).
  { apply Math_max_upper. eapply nth_error_In; eauto. }
  destruct Hle as [Hlt | Heq]; [exact Hlt |].
  exfalso. apply (Hfirst j Hj). now rewrite Hm, Heq.
Qed.

Lemma probe_best_index_names_best_row_witness :
  exists k row,
    bestIdx (probeAtWithRc openSky origin3 [txEast 30; txWest 36] [tt])
    = Z.of_nat (k + 1) /\
    nth_error (rows (probeAtWithRc openSky origin3 [txEast 30; txWest 36] [tt])) k
    = Some row /\
    bestPower (probeAtWithRc openSky origin3 [txEast 30; txWest 36] [tt])
    = Fin (row_pr row).
Proof.
  destruct (probe_best_index_names_best_row openSky origin3
              [txEast 30; txWest 36] [tt] ltac:(discriminate)
              (positiveFreq_east_west 30 36))
    as (_ & k & row & H1 & _ & H2 & _ & H3 & _).
  exists k, row. repeat split; assumption.
Defined.

(** X16: with at least one transmitter, all on positive frequencies, the
    margin is a number and never negative. *)
Theorem probe_margin_nonnegative {Object3D : Type}
  (io : Vector3 -> Vector3 -> R -> list Object3D -> list Intersection)
  (p : Vector3) (txs : list Tx) (meshes : list Object3D) :
  txs <> [] -> positiveFreq txs ->
  Forall2 (rowReceived p) txs (rows (probeAtWithRc io p txs meshes)) /\
  exists m, margin (probeAtWithRc io p txs meshes) = Fin m /\ 0 <= m.
Proof.
  intros Hne Hfreq.
  split; [now apply probe_rows_received |].
  destruct (probeAtWithRc_fields io p meshes txs) as (_ & _ & _ & _ & -> & _).
  pose proof (sort_desc_sorted (powers io p meshes txs)) as Hs.
  pose proof (sort_desc_length (powers io p meshes txs)) as Hl.
  rewrite powers_length in Hl.
  destruct (sort_desc (powers io p meshes txs)) as [| s0 [| s1 rest]].
  - destruct txs; [congruence | discriminate].
  - exists (s0 - s0). split; [reflexivity | lra].
  - exists (s0 - s1). split; [reflexivity |].
    pose proof (descending_head_max s0 (s1 :: rest) Hs s1) as H.
    assert (s1 <= s0) by (apply H; right; now left). lra.
Qed.

Lemma probe_margin_nonnegative_witness :
  exists m, margin (probeAtWithRc openSky origin3 [txEast 30; txWest 36] [tt])
            = Fin m /\ 0 <= m.
Proof.
  apply (probe_margin_nonnegative openSky origin3 [txEast 30; txWest 36] [tt]).
  - discriminate.
  - apply positiveFreq_east_west.
Defined.

Lemma filter_strong_none (l : list R) :
  List.length (filter (fun v => Rgtb v (-80)) l) = 0%nat <->
  forall v, In v l -> v <= -80.
Proof.
  induction l as [| x l IH]; simpl.
  - split; [intros _ v [] | reflexivity].
  - destruct (Rgtb x (-80)) eqn:E.
    + apply Rgtb_true in E. split; [discriminate |].
      intros H. specialize (H x (or_introl eq_refl)). lra.
    + apply Rgtb_false in E. rewrite IH. split.
      * intros H v [<- | Hv]; auto.
      * intros H v Hv. apply H. now right.
Qed.

(** X17: for transmitters on positive frequencies the interference count
    is the number of rows received above -80 dBm, so at most the number
    of transmitters; over a non-empty set it is zero exactly when the
    best power is -80 dBm or less. *)
Theorem probe_interference_count {Object3D : Type}
  (io : Vector3 -> Vector3 -> R -> list Object3D -> list Intersection)
  (p : Vector3) (txs : list Tx) (meshes : list Object3D) :
  positiveFreq txs ->
  let r := probeAtWithRc io p txs meshes in
  Forall2 (rowReceived p) txs (rows r) /\
  interferenceCount r
  = List.length (filter (fun row => Rgtb (row_pr row) (-80)) (rows r)) /\
  (interferenceCount r <= List.length txs)%nat /\
  (txs <> [] ->
   exists best, bestPower r = Fin best /\
                (interferenceCount r = 0%nat <-> best <= -80)).
Proof.
  intros Hfreq r.
  split; [now apply probe_rows_received |].
  destruct (probeAtWithRc_fields io p meshes txs)
    as (_ & _ & _ & _ & _ & _ & Hic & _).
  pose proof (map_row_pr_rows io p meshes txs) as Hpr.
  fold r in Hic, Hpr. split; [| split].
  - rewrite Hic, <- Hpr. clear. induction (rows r) as [| row l IH]; simpl.
    + reflexivity.
    + destruct (Rgtb (row_pr row) (-80)); simpl; now rewrite IH.
  - rewrite Hic, <- (powers_length io p meshes txs). apply filter_length_le.
  - intros Hne.
    destruct (powers_nonempty io p meshes txs Hne) as (v0 & vs & E).
    exists (Math_max v0 vs).
    split; [apply (bestPower_is_max io p meshes txs v0 vs E) |].
    rewrite Hic, E, filter_strong_none. split.
    + intros H. apply H, Math_max_in.
    + intros H v Hv. pose proof (Math_max_upper v0 vs v Hv). lra.
Qed.

Lemma probe_interference_count_witness :
  exists best,
    bestPower (probeAtWithRc openSky origin3 [txEast 30; txWest 36] [tt])
    = Fin best /\
    (interferenceCount (probeAtWithRc openSky origin3 [txEast 30; txWest 36] [tt])
     = 0%nat <-> best <= -80).
Proof.
  destruct (probe_interference_count openSky origin3 [txEast 30; txWest 36] [tt]
              (positiveFreq_east_west 30 36))
    as (_ & _ & _ & H).
  apply H. discriminate.
Defined.

Lemma probe_bestPower_shape {Object3D : Type}
  (io : Vector3 -> Vector3 -> R -> list Object3D -> list Intersection)
  (p : Vector3) (txs : list Tx) (meshes : list Object3D) :
  let r := probeAtWithRc io p txs meshes in
  qualityTier r = tierOf (bestPower r) /\
  (bestPower r = NegInf \/ exists b, bestPower r = Fin b).
Proof.
  intros r.
  destruct (probeAtWithRc_fields io p meshes txs)
    as (_ & _ & _ & Hb & _ & Ht & _).
  fold r in Hb, Ht. cbv zeta in Hb, Ht. rewrite <- Hb in Ht.
  split; [exact Ht |]. rewrite Hb.
  destruct (sort_desc (powers io p meshes txs)); eauto.
Qed.

(** X18: the four-colour heat scale and the five quality tiers agree on
    every probe of transmitters on positive frequencies, where the best
    power is a number or, with no transmitter, [-Infinity]: the trace is
    red exactly when the tier is "poor" or "dead", "excellent" is always
    green and "fair" is orange or amber. *)
Theorem trace_colour_agrees_with_tier {Object3D : Type}
  (io : Vector3 -> Vector3 -> R -> list Object3D -> list Intersection)
  (p : Vector3) (txs : list Tx) (meshes : list Object3D) :
  positiveFreq txs ->
  let r := probeAtWithRc io p txs meshes in
  let c := colorForDbm (bestPower r) in
  Forall2 (rowReceived p) txs (rows r) /\
  (c = "#ef4444"%string <-> qualityTier r = poor \/ qualityTier r = dead) /\
  (qualityTier r = excellent -> c = "#22c55e"%string) /\
  (qualityTier r = fair -> c = "#f97316"%string \/ c = "#f59e0b"%string) /\
  (c = "#22c55e"%string -> qualityTier r = excellent \/ qualityTier r = good).
Proof.
  intros Hfreq r c.
  split; [now apply probe_rows_received |].
  destruct (probe_bestPower_shape io p txs meshes) as [Ht Hb].
  fold r in Ht, Hb. unfold c. rewrite Ht.
  destruct Hb as [-> | [b ->]].
  - cbn. repeat split; try discriminate; auto.
  - unfold colorForDbm, tierOf, num_leb, num_geb, num_gtb, MIN_POWER_DBM.
    destruct (Rgeb (-100) b) eqn:C1; destruct (Rgeb (-90) b) eqn:C2;
      destruct (Rgeb (-80) b) eqn:C3;
      destruct (Rgtb b (-70)) eqn:T1; destruct (Rgtb b (-85)) eqn:T2;
      destruct (Rgtb b (-100)) eqn:T3; destruct (Rgtb b (-110)) eqn:T4;
      repeat match goal with
             | E : Rgtb _ _ = true |- _ => apply Rgtb_true in E
             | E : Rgtb _ _ = false |- _ => apply Rgtb_false in E
             | E : Rgeb _ _ = true |- _ => apply Rgeb_true in E
             | E : Rgeb _ _ = false |- _ => apply Rgeb_false in E
             end;
      try (exfalso; lra);
      (split; [split; [intros H; (discriminate H || auto)
                      | intros [H | H]; (discriminate H || reflexivity)] |]);
      (split; [intros H; (discriminate H || reflexivity) |]);
      (split; [intros H; (discriminate H || auto) |]);
      intros H; (discriminate H || auto).
Qed.

Lemma trace_colour_agrees_with_tier_witness :
  colorForDbm (bestPower (probeAtWithRc openSky origin3 [txEast 36] [tt]))
  = "#22c55e"%string.
Proof.
  destruct (trace_colour_agrees_with_tier openSky origin3 [txEast 36] [tt]
              (positiveFreq_txEast 36))
    as (_ & _ & H & _).
  apply H.
  destruct (probeAtWithRc_fields openSky origin3 [tt] [txEast 36])
    as (_ & _ & _ & Hb & _ & Ht & _).
  cbv zeta in Hb, Ht. rewrite Ht.
  rewrite powers_txEast. cbn [sort_desc sort_by insert_by].
  destruct (tierOf_Fin (36 - 92.4)) as (T1 & _). apply T1. lra.
Defined.

(** ** Moving transmitters *)

(** X19: an orbiting transmitter is put on its circle in every frame: at
    the orbit's altitude above the centre and at the orbit's radius from
    it in the horizontal plane; its mobility record is left alone. *)
Theorem orbit_stays_on_circle (t dt : R) (idx : nat) (pos0 center : Vector3)
  (radius altitude angularSpeed : R) (phase : option R) :
  let m := Some (orbit center radius altitude angularSpeed phase) in
  exists q, frameTx t dt idx pos0 m = Some (q, m) /\
            vy q = vy center + altitude /\
            (vx q - vx center) * (vx q - vx center)
            + (vz q - vz center) * (vz q - vz center) = radius * radius.
Proof.
  intros m. cbn [frameTx m]. eexists. split; [reflexivity |]. cbn [vx vy vz].
  split; [reflexivity |].
  set (theta := match phase with Some ph => ph | None => INR idx * 0.8 end
                + t * angularSpeed).
  pose proof (sin2_cos2 theta) as H. unfold Rsqr in H.
  replace ((vx center + cos theta * radius - vx center)
           * (vx center + cos theta * radius - vx center)
           + (vz center + sin theta * radius - vz center)
             * (vz center + sin theta * radius - vz center))
    with ((sin theta * sin theta + cos theta * cos theta) * (radius * radius))
    by ring.
  rewrite H. ring.
Qed.

Lemma frameTx_waypoint (t dt : R) (idx : nat) (pos0 : Vector3)
  (points : list Vector3) (speed : R) (currentIdx : nat) (progress : R) :
  waypointOk (Some (waypoint points speed currentIdx progress)) -> 0 <= dt ->
  exists from to,
    nth_error points currentIdx = Some from /\
    nth_error points ((currentIdx + 1) mod List.length points) = Some to /\
    let progress1 := progress + speed * dt / Rmax (distanceTo from to) 1e-6 in
    0 <= progress1 /\
    frameTx t dt idx pos0 (Some (waypoint points speed currentIdx progress))
    = Some (if Rgeb progress1 1
            then (from, Some (waypoint points speed
                                ((currentIdx + 1) mod List.length points) 0))
            else (lerpVectors from to progress1,
                  Some (waypoint points speed currentIdx progress1))).
Proof.
  intros (Hlen & Hidx & Hspeed & Hprog) Hdt.
  destruct (nth_error points currentIdx) as [from |] eqn:Ef;
    [| apply nth_error_None in Ef; lia].
  assert (Hmod : ((currentIdx + 1) mod List.length points
                  < List.length points)%nat)
    by (apply Nat.mod_upper_bound; lia).
  destruct (nth_error points ((currentIdx + 1) mod List.length points))
    as [to |] eqn:Et; [| apply nth_error_None in Et; lia].
  exists from, to. split; [reflexivity |]. split; [reflexivity |].
  intros progress1.
  assert (Hp1 : 0 <= progress1).
  { unfold progress1.
    assert (0 < Rmax (distanceTo from to) 1e-6)
      by (apply Rlt_le_trans with 1e-6; [lra | apply Rmax_r]).
    assert (0 <= speed * dt / Rmax (distanceTo from to) 1e-6).
    { apply Rmult_le_pos; [nra | left; now apply Rinv_0_lt_compat]. }
    lra. }
  split; [exact Hp1 |].
  cbn [frameTx]. destruct (Nat.ltb_spec (List.length points) 2); [lia |].
  rewrite Ef, Et. fold progress1.
  destruct (Rgeb progress1 1); [| reflexivity].
  do 2 f_equal. destruct from as [fx fy fz], to as [tx0 ty tz].
  unfold lerpVectors. simpl. f_equal; ring.
Qed.

Lemma frameTx_keeps_waypointOk (t dt : R) (idx : nat) (pos0 : Vector3)
  (m : option Mobility) :
  waypointOk m -> 0 <= dt ->
  exists q m', frameTx t dt idx pos0 m = Some (q, m') /\ waypointOk m' /\
    match m, m' with
    | Some (waypoint points _ currentIdx _), Some (waypoint points' _ _ progress') =>
        points' = points /\
        exists from to,
          nth_error points currentIdx = Some from /\
          nth_error points ((currentIdx + 1) mod List.length points) = Some to /\
          q = lerpVectors from to progress'
    | _, _ => False
    end.
Proof.
  intros Hok Hdt.
  destruct m as [[| c r a w ph | points speed currentIdx progress] |];
    try (exfalso; exact Hok).
  pose proof Hok as (Hlen & Hidx & Hspeed & Hprog).
  destruct (frameTx_waypoint t dt idx pos0 points speed currentIdx progress
              Hok Hdt)
    as (from & to & Hf & Ht & Hp1 & E).
  cbv zeta in Hp1, E. rewrite E.
  set (progress1 := progress + speed * dt / Rmax (distanceTo from to) 1e-6) in *.
  destruct (Rgeb progress1 1) eqn:Eg.
  - do 2 eexists. split; [reflexivity |]. split.
    + cbn. repeat split; try lra; try lia.
      apply Nat.mod_upper_bound; lia.
    + split; [reflexivity |]. exists from, to. repeat split; auto.
      destruct from, to. unfold lerpVectors. simpl. f_equal; ring.
  - apply Rgeb_false in Eg. do 2 eexists. split; [reflexivity |]. split.
    + cbn. repeat split; try lra; try lia.
    + split; [reflexivity |]. exists from, to. auto.
Qed.

(** X20: a waypoint transmitter whose index and progress are in range
    stays so through any sequence of frames of non-negative length: no
    frame throws, the index remains a valid point index, the progress
    remains in [0, 1), the point list is never changed, and after every
    frame the transmitter sits on a leg of the closed waypoint loop. *)
Theorem waypoint_stays_on_loop (dts : list R) :
  forall (time : R) (idx : nat) (pos0 : Vector3) (m : option Mobility),
    waypointOk m -> Forall (fun dt => 0 <= dt) dts -> dts <> [] ->
    exists q m',
      runTx time dts idx pos0 m = Some (q, m') /\
      waypointOk m' /\
      waypointsOf m' = waypointsOf m /\
      onLoop (waypointsOf m) q.
Proof.
  induction dts as [| dt dts IH]; intros time idx pos0 m Hok Hall Hne;
    [congruence |].
  inversion Hall as [| ? ? Hdt Hrest]; subst.
  destruct (frameTx_keeps_waypointOk (time + dt) dt idx pos0 m Hok Hdt)
    as (q & m' & E & Hok' & Hshape).
  cbn [runTx]. rewrite E.
  assert (Hhere : waypointsOf m' = waypointsOf m /\ onLoop (waypointsOf m) q).
  { destruct m as [[| | points speed currentIdx progress] |];
      try (exfalso; exact Hok).
    destruct m' as [[| | points' speed' idx' progress'] |];
      try (exfalso; exact Hok').
    destruct Hshape as (-> & from & to & Hf & Ht & ->).
    split; [reflexivity |]. cbn [waypointsOf].
    exists currentIdx, from, to. repeat split; auto.
    exists progress'. split; [| reflexivity].
    destruct Hok' as (_ & _ & _ & H). lra. }
  destruct Hhere as [Hpts Hloop].
  destruct dts as [| dt' dts'].
  - exists q, m'. cbn [runTx]. auto.
  - destruct (IH (time + dt) idx q m' Hok' Hrest ltac:(discriminate))
      as (q2 & m2 & E2 & Hok2 & Hpts2 & Hloop2).
    exists q2, m2. split; [exact E2 |]. split; [exact Hok2 |].
    split; [congruence |]. now rewrite <- Hpts.
Qed.

Lemma waypoint_stays_on_loop_witness :
  exists q m',
    runTx 0 [0.5; 0.5; 2] 0 origin3
      (Some (waypoint [vec3 0 0 0; vec3 10 0 0; vec3 10 0 10] 12 0 0))
    = Some (q, m') /\
    waypointOk m' /\
    onLoop [vec3 0 0 0; vec3 10 0 0; vec3 10 0 10] q.
Proof.
  destruct (waypoint_stays_on_loop [0.5; 0.5; 2] 0 0 origin3
              (Some (waypoint [vec3 0 0 0; vec3 10 0 0; vec3 10 0 10] 12 0 0)))
    as (q & m' & H1 & H2 & _ & H3).
  - cbn. repeat split; try lra; lia.
  - repeat constructor; lra.
  - discriminate.
  - exists q, m'. auto.
Defined.

(** X21: a waypoint frame adds [speed * dt / max (dist, 1e-6)] to the
    progress.  While the sum stays below 1 the transmitter moves along
    the current leg; once it reaches 1 the index moves on to the next
    leg, from the last point back to 0, the progress restarts at 0, and
    for that frame the transmitter is put at the start of the leg it has
    just finished. *)
Theorem waypoint_leg_change (t dt : R) (idx : nat) (pos0 : Vector3)
  (points : list Vector3) (speed : R) (currentIdx : nat) (progress : R) :
  waypointOk (Some (waypoint points speed currentIdx progress)) -> 0 <= dt ->
  exists from to,
    nth_error points currentIdx = Some from /\
    nth_error points ((currentIdx + 1) mod List.length points) = Some to /\
    let progress1 := progress + speed * dt / Rmax (distanceTo from to) 1e-6 in
    let next := ((currentIdx + 1) mod List.length points)%nat in
    (progress1 < 1 ->
     frameTx t dt idx pos0 (Some (waypoint points speed currentIdx progress))
     = Some (lerpVectors from to progress1,
             Some (waypoint points speed currentIdx progress1))) /\
    (1 <= progress1 ->
     frameTx t dt idx pos0 (Some (waypoint points speed currentIdx progress))
     = Some (from, Some (waypoint points speed next 0))) /\
    (S currentIdx = List.length points -> next = 0%nat) /\
    (S currentIdx < List.length points -> next = S currentIdx)%nat.
Proof.
  intros Hok Hdt.
  destruct (frameTx_waypoint t dt idx pos0 points speed currentIdx progress Hok Hdt)
    as (from & to & Hf & Ht & _ & E).
  exists from, to. split; [exact Hf |]. split; [exact Ht |].
  intros progress1 next. cbv zeta in E. fold progress1 in E. rewrite E.
  split; [| split; [| split]].
  - intros H. apply Rgeb_false in H. now rewrite H.
  - intros H. apply Rgeb_true in H. now rewrite H.
  - intros H. unfold next. rewrite Nat.add_1_r, H. apply Nat.Div0.mod_same.
  - intros H. unfold next. rewrite Nat.add_1_r. now apply Nat.mod_small.
Qed.

Lemma waypoint_leg_change_witness :
  frameTx 1 1 0 origin3
    (Some (waypoint [vec3 0 0 0; vec3 10 0 0] 10 1 0))
  = Some (vec3 10 0 0, Some (waypoint [vec3 0 0 0; vec3 10 0 0] 10 0 0)).
Proof.
  destruct (waypoint_leg_change 1 1 0 origin3 [vec3 0 0 0; vec3 10 0 0] 10 1 0)
    as (from & to & Hf & Ht & _ & Hwrap & _).
  - cbn. repeat split; try lra; lia.
  - lra.
  - cbn in Hf, Ht. injection Hf as <-. injection Ht as <-.
    apply Hwrap.
    assert (E : distanceTo (vec3 10 0 0) (vec3 0 0 0) = 10).
    { unfold distanceTo, v_sub. simpl.
      replace (10 - 0) with 10 by lra. replace (0 - 0) with 0 by lra.
      rewrite v_length_axis, Rabs_right by lra. reflexivity. }
    rewrite E, Rmax_left by lra. lra.
Defined.

(** ** Path mover *)

Lemma pathSegmentsFrom_cons (a b : Vector3) (rest : list Vector3) (acc : R) :
  pathSegmentsFrom (a :: b :: rest) acc
  = (mkPathSegment a b (Rmax (distanceTo a b) 1e-3) acc
       :: fst (pathSegmentsFrom (b :: rest) (acc + Rmax (distanceTo a b) 1e-3)),
     snd (pathSegmentsFrom (b :: rest) (acc + Rmax (distanceTo a b) 1e-3))).
Proof.
  change (pathSegmentsFrom (a :: b :: rest) acc)
    with (let '(segs, total) :=
            pathSegmentsFrom (b :: rest) (acc + Rmax (distanceTo a b) 1e-3) in
          (mkPathSegment a b (Rmax (distanceTo a b) 1e-3) acc :: segs, total)).
  now destruct (pathSegmentsFrom (b :: rest) (acc + Rmax (distanceTo a b) 1e-3)).
Qed.

Lemma pathSegmentsFrom_laidOut (points : list Vector3) :
  forall acc,
    let '(segs, total) := pathSegmentsFrom points acc in
    laidOut acc segs total /\
    List.length segs = (List.length points - 1)%nat /\
    (forall i s, nth_error segs i = Some s ->
       exists a b, nth_error points i = Some a /\ nth_error points (S i) = Some b /\
                   ps_from s = a /\ ps_to s = b /\
                   ps_length s = Rmax (distanceTo a b) 1e-3).
Proof.
  induction points as [| a rest IH]; intros acc.
  - cbn. repeat split. intros i s H. destruct i; discriminate.
  - destruct rest as [| b rest].
    + cbn. repeat split. intros i s H. destruct i; discriminate.
    + rewrite pathSegmentsFrom_cons.
      specialize (IH (acc + Rmax (distanceTo a b) 1e-3)).
      destruct (pathSegmentsFrom (b :: rest) (acc + Rmax (distanceTo a b) 1e-3))
        as [segs total].
      destruct IH as (Hlaid & Hlen & Hnth). cbn [fst snd].
      split; [| split].
      * cbn. repeat split; [apply Rmax_r | exact Hlaid].
      * cbn [List.length] in *. lia.
      * intros [| i] s Hs; cbn in Hs.
        -- injection Hs as <-. exists a, b. repeat split.
        -- destruct (Hnth i s Hs) as (a' & b' & H1 & H2 & H3).
           exists a', b'. repeat split; tauto.
Qed.

Lemma laidOut_total (a : R) (segs : list PathSegment) (total : R) :
  laidOut a segs total -> a <= total /\ (segs <> [] -> a < total).
Proof.
  revert a. induction segs as [| s rest IH]; intros a H.
  - cbn in H. subst. split; [lra | congruence].
  - cbn in H. destruct H as (_ & Hlen & Hrest).
    destruct (IH _ Hrest) as [Hle _]. split; [lra | intros _; lra].
Qed.

Lemma findSegment_covers (d : R) (segs : list PathSegment) (dflt : PathSegment) :
  forall a total,
    laidOut a segs total -> segs <> [] -> a <= d <= total ->
    let s := findSegment d segs dflt in
    In s segs /\ startDist s <= d <= startDist s + ps_length s.
Proof.
  induction segs as [| s0 rest IH]; intros a total Hlaid Hne Hd; [congruence |].
  cbn in Hlaid. destruct Hlaid as (Hs & Hlen & Hrest). cbn [findSegment].
  destruct (Rgeb d (startDist s0)) eqn:E1;
    [| apply Rgeb_false in E1; lra].
  apply Rgeb_true in E1. cbn [andb].
  destruct (Rleb d (startDist s0 + ps_length s0)) eqn:E2.
  - apply Rleb_true in E2. split; [now left | lra].
  - apply Rleb_false in E2.
    destruct rest as [| s1 rest'].
    + cbn in Hrest. lra.
    + destruct (IH (a + ps_length s0) total Hrest ltac:(discriminate)
                   ltac:(lra)) as [Hin Hb].
      split; [now right | exact Hb].
Qed.

Lemma js_rem_range (x c : R) : 0 <= x -> 0 < c -> 0 <= js_rem x c < c.
Proof.
  intros Hx Hc. unfold js_rem, Ztrunc.
  assert (Hq : 0 <= x / c).
  { apply Rmult_le_pos; [exact Hx | left; now apply Rinv_0_lt_compat]. }
  destruct (Rlt_dec (x / c) 0) as [Hneg | _]; [lra |].
  pose proof (Zfloor_bound (x / c)) as [Hlo Hhi].
  assert (Hxc : x = c * (x / c)) by (field; lra).
  set (k := IZR (Zfloor (x / c))) in *.
  split; nra.
Qed.

Lemma laidOut_nth (segs : list PathSegment) :
  forall a total,
    laidOut a segs total ->
    (forall s, nth_error segs 0 = Some s -> startDist s = a) /\
    (forall i s s', nth_error segs i = Some s -> nth_error segs (S i) = Some s' ->
                    startDist s' = startDist s + ps_length s) /\
    (forall s, In s segs -> 1e-3 <= ps_length s /\
                            a <= startDist s /\ startDist s + ps_length s <= total) /\
    (forall s, nth_error segs (List.length segs - 1) = Some s ->
               startDist s + ps_length s = total).
Proof.
  induction segs as [| s0 rest IH]; intros a total H.
  - split; [intros s Hs; discriminate |].
    split; [intros i s s' Hs; destruct i; discriminate |].
    split; [intros s [] | intros s Hs; discriminate].
  - cbn in H. destruct H as (Hs & Hlen & Hrest).
    destruct (IH _ _ Hrest) as (I1 & I2 & I3 & I4).
    pose proof (laidOut_total _ _ _ Hrest) as [Hle _].
    split; [| split; [| split]].
    + intros s [= <-]. exact Hs.
    + intros [| i] s s' Hi Hi'; cbn in Hi, Hi'.
      * injection Hi as <-. rewrite (I1 s' Hi'). lra.
      * now apply (I2 i).
    + intros s [<- | Hin]; [lra |].
      destruct (I3 s Hin) as (? & ? & ?). lra.
    + intros s Hl. destruct rest as [| s1 rest'].
      * cbn in Hl, Hrest. injection Hl as <-. lra.
      * apply I4. cbn [List.length] in Hl |- *.
        replace (S (S (List.length rest')) - 1)%nat
          with (S (S (List.length rest') - 1)) in Hl by lia.
        exact Hl.
Qed.

(** X22: for a path of at least two points the mover's segments join the
    consecutive points, lie end to end from distance 0 to the total, and
    are each at least 1 mm long, so the total is positive; a shorter path
    has no segment at all. *)
Theorem path_segments_end_to_end (points : list Vector3) :
  ((List.length points < 2)%nat -> pathData points = ([], 0)) /\
  ((2 <= List.length points)%nat ->
   let segs := fst (pathData points) in
   let total := snd (pathData points) in
   List.length segs = (List.length points - 1)%nat /\
   0 < total /\
   (forall i s, nth_error segs i = Some s ->
      exists a b, nth_error points i = Some a /\ nth_error points (S i) = Some b /\
                  ps_from s = a /\ ps_to s = b /\
                  ps_length s = Rmax (distanceTo a b) 1e-3) /\
   (forall s, nth_error segs 0 = Some s -> startDist s = 0) /\
   (forall i s s', nth_error segs i = Some s -> nth_error segs (S i) = Some s' ->
                   startDist s' = startDist s + ps_length s) /\
   (forall s, nth_error segs (List.length segs - 1) = Some s ->
              startDist s + ps_length s = total)).
Proof.
  unfold pathData. split.
  - intros H. destruct (Nat.ltb_spec (List.length points) 2); [reflexivity | lia].
  - intros H. destruct (Nat.ltb_spec (List.length points) 2); [lia |].
    pose proof (pathSegmentsFrom_laidOut points 0) as Hp.
    destruct (pathSegmentsFrom points 0) as [segs total]. cbn [fst snd].
    destruct Hp as (Hlaid & Hlen & Hnth).
    destruct (laidOut_nth segs 0 total Hlaid) as (L1 & L2 & _ & L4).
    split; [exact Hlen |]. split.
    { apply (laidOut_total 0 segs total Hlaid).
      destruct segs; [simpl in Hlen; lia | discriminate]. }
    split; [exact Hnth |]. split; [exact L1 |]. split; [exact L2 | exact L4].
Qed.

Lemma path_segments_end_to_end_witness :
  List.length (fst (pathData [vec3 0 0 0; vec3 12 0 0; vec3 12 0 5])) = 2%nat /\
  0 < snd (pathData [vec3 0 0 0; vec3 12 0 0; vec3 12 0 5]).
Proof.
  destruct (path_segments_end_to_end [vec3 0 0 0; vec3 12 0 0; vec3 12 0 5])
    as [_ H].
  destruct (H ltac:(simpl; lia)) as (H1 & H2 & _).
  split; [exact H1 | exact H2].
Defined.

(** X23: with at least two path points, in every frame of non-negative
    length the travelled distance is taken into [0, 2 * total) and the
    car is put 3 m above a point of one of the path's segments. *)
Theorem car_stays_on_path (points : list Vector3) (distRef dt : R) :
  (2 <= List.length points)%nat -> 0 <= distRef -> 0 <= dt ->
  exists d' pos seg local,
    moverFrame (pathData points) distRef dt = Some (d', pos) /\
    0 <= d' < 2 * snd (pathData points) /\
    In seg (fst (pathData points)) /\
    0 <= local <= 1 /\
    pos = v_add (lerpVectors (ps_from seg) (ps_to seg) local) (vec3 0 3 0).
Proof.
  intros Hlen Hd Hdt. unfold pathData.
  destruct (Nat.ltb_spec (List.length points) 2); [lia |].
  pose proof (pathSegmentsFrom_laidOut points 0) as Hp.
  destruct (pathSegmentsFrom points 0) as [segs total]. cbn [fst snd].
  destruct Hp as (Hlaid & Hl & _).
  destruct segs as [| s0 rest]; [simpl in Hl; lia |].
  unfold moverFrame. lazy beta iota. set (segs := s0 :: rest) in *.
  assert (Hne : segs <> []) by discriminate.
  assert (Htot : 0 < total) by (apply (laidOut_total 0 segs total Hlaid), Hne).
  destruct (Rleb total 0) eqn:E0; [apply Rleb_true in E0; lra |].
  set (dr := js_rem (distRef + 35 * dt) (2 * total)).
  assert (Hdr : 0 <= dr < 2 * total) by (apply js_rem_range; nra).
  set (d := if Rgtb dr total then 2 * total - dr else dr).
  assert (Hdd : 0 <= d <= total).
  { unfold d. destruct (Rgtb dr total) eqn:Eg.
    - apply Rgtb_true in Eg. lra.
    - apply Rgtb_false in Eg. lra. }
  destruct (findSegment_covers d segs (last segs s0) 0 total Hlaid Hne Hdd)
    as [Hin Hb].
  set (seg := findSegment d segs (last segs s0)) in *.
  destruct (laidOut_nth segs 0 total Hlaid) as (_ & _ & L3 & _).
  destruct (L3 seg Hin) as (Hlen3 & _).
  exists dr, (vec3 (vx (lerpVectors (ps_from seg) (ps_to seg)
                          ((d - startDist seg) / ps_length seg)))
                   (vy (lerpVectors (ps_from seg) (ps_to seg)
                          ((d - startDist seg) / ps_length seg)) + 3)
                   (vz (lerpVectors (ps_from seg) (ps_to seg)
                          ((d - startDist seg) / ps_length seg)))),
         seg, ((d - startDist seg) / ps_length seg).
  split; [reflexivity |]. split; [exact Hdr |]. split; [exact Hin |]. split.
  - assert (0 < ps_length seg) by lra.
    split.
    + apply Rmult_le_pos; [lra | left; now apply Rinv_0_lt_compat].
    + apply Rmult_le_reg_r with (ps_length seg); [assumption |].
      unfold Rdiv. rewrite Rmult_assoc, Rinv_l by lra. lra.
  - unfold v_add. cbn [vx vy vz]. f_equal; ring.
Qed.

Lemma car_stays_on_path_witness :
  exists d' pos seg local,
    moverFrame (pathData [vec3 0 0 0; vec3 12 0 0; vec3 12 0 5]) 30 0.016
    = Some (d', pos) /\
    In seg (fst (pathData [vec3 0 0 0; vec3 12 0 0; vec3 12 0 5])) /\
    0 <= local <= 1 /\
    pos = v_add (lerpVectors (ps_from seg) (ps_to seg) local) (vec3 0 3 0).
Proof.
  destruct (car_stays_on_path [vec3 0 0 0; vec3 12 0 0; vec3 12 0 5] 30 0.016)
    as (d' & pos & seg & local & H1 & _ & H2 & H3 & H4);
    [simpl; lia | lra | lra |].
  exists d', pos, seg, local. auto.
Defined.

(** ** Removing the nearest transmitter *)

Lemma nearestFrom_min (p : Vector3) (rest : list Tx) :
  forall (pre : list Tx) (bestIdx : nat) (tb : Tx),
    nth_error pre bestIdx = Some tb ->
    (forall t, In t pre -> distanceTo (pos tb) p <= distanceTo (pos t) p) ->
    (forall j t, (j < bestIdx)%nat -> nth_error pre j = Some t ->
                 distanceTo (pos tb) p < distanceTo (pos t) p) ->
    let k := nearestFrom p rest (List.length pre) bestIdx
               (Fin (distanceTo (pos tb) p)) in
    exists tk,
      nth_error (pre ++ rest) k = Some tk /\
      (forall t, In t (pre ++ rest) ->
                 distanceTo (pos tk) p <= distanceTo (pos t) p) /\
      (forall j t, (j < k)%nat -> nth_error (pre ++ rest) j = Some t ->
                   distanceTo (pos tk) p < distanceTo (pos t) p).
Proof.
  induction rest as [| t0 rest IH]; intros pre bestIdx tb Hb Hmin Hfirst k.
  - cbn in k. subst k. rewrite app_nil_r. eauto.
  - cbn [nearestFrom] in k. cbn [num_gtb] in k.
    assert (Happ : pre ++ t0 :: rest = (pre ++ [t0]) ++ rest)
      by now rewrite <- app_assoc.
    assert (Hlen : List.length (pre ++ [t0]) = S (List.length pre))
      by (rewrite length_app; simpl; lia).
    assert (Hbl : (bestIdx < List.length pre)%nat)
      by (apply nth_error_Some; congruence).
    destruct (Rgtb (distanceTo (pos tb) p) (distanceTo (pos t0) p)) eqn:E.
    + apply Rgtb_true in E. subst k. rewrite Happ, <- Hlen.
      apply (IH (pre ++ [t0]) (List.length pre) t0).
      * rewrite nth_error_app2, Nat.sub_diag by lia. reflexivity.
      * intros t Ht. apply in_app_or in Ht as [Ht | [<- | []]]; [| lra].
        specialize (Hmin t Ht). lra.
      * intros j t Hj Ht. rewrite nth_error_app1 in Ht by lia.
        assert (Hin : In t pre) by (eapply nth_error_In; eauto).
        specialize (Hmin t Hin). lra.
    + apply Rgtb_false in E. subst k. rewrite Happ, <- Hlen.
      apply (IH (pre ++ [t0]) bestIdx tb).
      * rewrite nth_error_app1 by lia. exact Hb.
      * intros t Ht. apply in_app_or in Ht as [Ht | [<- | []]]; [auto | lra].
      * intros j t Hj Ht. rewrite nth_error_app1 in Ht by lia.
        now apply (Hfirst j).
Qed.

(** X24: on a non-empty list [handleRemoveNearestTx] takes out exactly
    one transmitter, the first of those nearest to the clicked point, and
    keeps the others in their order; an empty list stays empty. *)
Theorem remove_nearest_transmitter (p : Vector3) (arr : list Tx) :
  removeNearestTx p [] = [] /\
  (arr <> [] ->
   exists k t,
     nth_error arr k = Some t /\
     removeNearestTx p arr = firstn k arr ++ skipn (S k) arr /\
     arr = firstn k arr ++ t :: skipn (S k) arr /\
     List.length (removeNearestTx p arr) = (List.length arr - 1)%nat /\
     (forall t', In t' arr -> distanceTo (pos t) p <= distanceTo (pos t') p) /\
     (forall j t', (j < k)%nat -> nth_error arr j = Some t' ->
                   distanceTo (pos t) p < distanceTo (pos t') p)).
Proof.
  split; [reflexivity |]. intros Hne.
  destruct arr as [| t0 rest]; [congruence |].
  unfold removeNearestTx, splice1.
  cbn [nearestFrom num_gtb].
  destruct (nearestFrom_min p rest [t0] 0 t0 eq_refl) as (tk & Hk & Hmin & Hfirst).
  - intros t [<- | []]. lra.
  - intros j t Hj. lia.
  - cbn [List.length app] in Hk, Hmin, Hfirst.
    set (k := nearestFrom p rest 1 0 (Fin (distanceTo (pos t0) p))) in *.
    exists k, tk. split; [exact Hk |]. split; [reflexivity |].
    assert (Hsplit : t0 :: rest = firstn k (t0 :: rest) ++ tk :: skipn (S k) (t0 :: rest)).
    { symmetry. now apply firstn_skipn_middle. }
    split; [exact Hsplit |]. split; [| split; assumption].
    assert (Hkl : (k < List.length (t0 :: rest))%nat)
      by (apply nth_error_Some; congruence).
    rewrite length_app, length_firstn, length_skipn. lia.
Qed.

Lemma remove_nearest_transmitter_witness :
  exists k t,
    nth_error [txEast 36; txWest 36] k = Some t /\
    removeNearestTx (vec3 900 0 0) [txEast 36; txWest 36]
    = firstn k [txEast 36; txWest 36] ++ skipn (S k) [txEast 36; txWest 36] /\
    List.length (removeNearestTx (vec3 900 0 0) [txEast 36; txWest 36]) = 1%nat.
Proof.
  destruct (remove_nearest_transmitter (vec3 900 0 0) [txEast 36; txWest 36])
    as [_ H].
  destruct (H ltac:(discriminate)) as (k & t & H1 & H2 & _ & H3 & _).
  exists k, t. auto.
Defined.

(** ** Drive-test overlay: the real sample spacing *)

Lemma v_length_scaled (v : Vector3) (s : R) :
  0 <= s -> v_length (multiplyScalar v s) = v_length v * s.
Proof.
  intros Hs. unfold v_length, multiplyScalar. cbn [vx vy vz].
  replace (vx v * s * (vx v * s) + vy v * s * (vy v * s) + vz v * s * (vz v * s))
    with ((vx v * vx v + vy v * vy v + vz v * vz v) * (s * s)) by ring.
  rewrite sqrt_mult; [| nra | nra]. now rewrite sqrt_square.
Qed.

(** X25: the overlay cuts the straight span [L] of a segment into
    [count - 1] equal steps.  A segment of up to 12 m gets its two end
    samples only; a longer one gets steps of more than 6 m and at most
    12 m.  On a level segment that step is the distance between
    consecutive samples. *)
Theorem overlay_sample_spacing (a b : Vector3) :
  let L := Rmax (distanceTo a b) 1e-6 in
  let count := sampleCount a b in
  let step := L / (IZR count - 1) in
  (L <= 12 -> count = 2%Z /\ step = L) /\
  (12 < L -> count = Zceil (L / 6) /\ (3 <= count)%Z /\ 6 < step <= 12) /\
  (vy a = vy b -> forall k,
     distanceTo (samplePoint a b count (S k)) (samplePoint a b count k)
     = distanceTo a b / (IZR count - 1)).
Proof.
  intros L count step.
  assert (HL : 0 < L) by (apply Rlt_le_trans with 1e-6; [lra | apply Rmax_r]).
  pose proof (Zceil_bound (L / 6)) as [Hlo Hhi].
  assert (Hcount : count = Z.max 2 (Zceil (L / 6))) by reflexivity.
  pose proof (sampleCount_at_least_2 a b) as Hc2. fold count in Hc2.
  split; [| split].
  - intros H12.
    assert (Hz : (Zceil (L / 6) <= 2)%Z).
    { assert (Hlt : IZR (Zceil (L / 6)) < 3) by lra.
      apply lt_IZR in Hlt. lia. }
    assert (E : count = 2%Z) by lia.
    split; [exact E |]. unfold step. rewrite E. simpl. field.
  - intros H12.
    assert (Hz : (3 <= Zceil (L / 6))%Z).
    { assert (2 < IZR (Zceil (L / 6))) by lra.
      apply lt_IZR in H. lia. }
    assert (E : count = Zceil (L / 6)) by lia.
    split; [exact E |]. split; [lia |].
    unfold step. rewrite E.
    assert (Hpos : 0 < IZR (Zceil (L / 6)) - 1).
    { apply IZR_le in Hz. lra. }
    split.
    + apply Rmult_lt_reg_r with (IZR (Zceil (L / 6)) - 1); [exact Hpos |].
      unfold Rdiv. rewrite Rmult_assoc, Rinv_l by lra. lra.
    + apply Rmult_le_reg_r with (IZR (Zceil (L / 6)) - 1); [exact Hpos |].
      unfold Rdiv. rewrite Rmult_assoc, Rinv_l by lra. lra.
  - intros Hflat k.
    assert (Hpos : 0 < IZR count - 1) by (apply IZR_le in Hc2; lra).
    assert (E : v_sub (samplePoint a b count (S k)) (samplePoint a b count k)
                = multiplyScalar (v_sub b a) (/ (IZR count - 1))).
    { rewrite !samplePoint_coordinates. unfold v_sub, multiplyScalar.
      cbn [vx vy vz]. rewrite S_INR, Hflat. f_equal; field; lra. }
    unfold distanceTo at 1. rewrite E, v_length_scaled
      by (left; now apply Rinv_0_lt_compat).
    unfold Rdiv. f_equal. unfold distanceTo, v_length, v_sub. cbn [vx vy vz].
    f_equal. ring.
Qed.

Lemma overlay_sample_spacing_witness :
  sampleCount (vec3 0 0 0) (vec3 12 0 0) = 2%Z /\
  distanceTo (samplePoint (vec3 0 0 0) (vec3 12 0 0)
                (sampleCount (vec3 0 0 0) (vec3 12 0 0)) 1)
             (samplePoint (vec3 0 0 0) (vec3 12 0 0)
                (sampleCount (vec3 0 0 0) (vec3 12 0 0)) 0)
  = distanceTo (vec3 0 0 0) (vec3 12 0 0)
    / (IZR (sampleCount (vec3 0 0 0) (vec3 12 0 0)) - 1).
Proof.
  destruct (overlay_sample_spacing (vec3 0 0 0) (vec3 12 0 0)) as (H1 & _ & H3).
  split.
  - apply H1. unfold distanceTo, v_sub. simpl.
    replace (0 - 12) with (-12) by lra. replace (0 - 0) with 0 by lra.
    rewrite v_length_axis, Rabs_left, Rmax_left by lra. lra.
  - apply (H3 eq_refl 0%nat).
Defined.

(** ** Interference field: silence and order *)

Lemma superposition_sum (pts ss : R) (point : Vector3) (time : R) (txs : list Tx) :
  forall E,
    fold_left (fun E tx => E + contribution pts ss point time tx) txs E
    = E + fold_right Rplus 0 (map (contribution pts ss point time) txs).
Proof.
  induction txs as [| tx txs IH]; intros E; simpl.
  - lra.
  - rewrite IH. lra.
Qed.

Lemma sum_permutation (l l' : list R) :
  Permutation l l' -> fold_right Rplus 0 l = fold_right Rplus 0 l'.
Proof.
  induction 1; simpl; lra.
Qed.

(** X26: the interference field is dark (exactly 0) when there is no
    transmitter or when no transmitter has a positive frequency, and with
    at most eight transmitters it does not depend on their order. *)
Theorem interference_field_silence_and_order
  (intensityScale phaseTimeScale spatialScale : R)
  (point : Vector3) (txs txs' : list Tx) (time : R) :
  let fv := fieldValue intensityScale phaseTimeScale spatialScale point in
  fv [] time = 0 /\
  (Forall (fun tx => freqMHz tx <= 0) txs -> fv txs time = 0) /\
  (Permutation txs txs' -> (List.length txs <= MAX_TX)%nat ->
   fv txs time = fv txs' time).
Proof.
  intros fv. unfold fv.
  assert (Hzero : forall l, Forall (fun tx => freqMHz tx <= 0) l ->
            superposition phaseTimeScale spatialScale point time l = 0).
  { intros l Hl. unfold superposition. rewrite superposition_sum.
    induction Hl as [| tx l Hf _ IH]; simpl; [lra |].
    unfold contribution at 1.
    assert (E : Rleb (freqMHz tx * 1e6) 0 = true) by (apply Rleb_true; lra).
    rewrite E. lra. }
  split; [| split].
  - rewrite fieldValue_superposition. cbn [firstn MAX_TX].
    unfold superposition. cbn [fold_left].
    replace (- (0 * 0 * intensityScale)) with 0 by ring. rewrite exp_0. ring.
  - intros Hall. rewrite fieldValue_superposition, Hzero.
    + replace (- (0 * 0 * intensityScale)) with 0 by ring. rewrite exp_0. ring.
    + rewrite Forall_forall in *. intros tx Htx. apply Hall.
      rewrite <- (firstn_skipn MAX_TX txs). apply in_or_app. now left.
  - intros Hperm Hlen. rewrite !fieldValue_superposition.
    rewrite (firstn_all2 txs) by exact Hlen.
    rewrite (firstn_all2 txs')
      by (rewrite <- (Permutation_length Hperm); exact Hlen).
    assert (E : superposition phaseTimeScale spatialScale point time txs
                = superposition phaseTimeScale spatialScale point time txs').
    { unfold superposition. rewrite !superposition_sum. f_equal.
      apply sum_permutation. now apply Permutation_map. }
    now rewrite E.
Qed.

Lemma interference_field_silence_and_order_witness :
  fieldValue 6.0 1e-9 0.03 (vec3 10 0 10) [txEast 36; txWest 30] 2
  = fieldValue 6.0 1e-9 0.03 (vec3 10 0 10) [txWest 30; txEast 36] 2.
Proof.
  destruct (interference_field_silence_and_order 6.0 1e-9 0.03 (vec3 10 0 10)
              [txEast 36; txWest 30] [txWest 30; txEast 36] 2) as (_ & _ & H).
  apply H; [apply perm_swap | unfold MAX_TX; simpl; lia].
Defined.

(** ** The explanation route against the probe *)

Lemma tenths_near (m : R) :
  m - 0.05 < IZR (Zfloor (m * 10 + / 2)) / 10 <= m + 0.05.
Proof.
  pose proof (Zfloor_bound (m * 10 + / 2)) as [Hlo Hhi].
  set (k := IZR (Zfloor (m * 10 + / 2))) in *. lra.
Qed.

Lemma tenths_monotone (x y : R) :
  x <= y ->
  IZR (Zfloor (x * 10 + / 2)) / 10 <= IZR (Zfloor (y * 10 + / 2)) / 10.
Proof.
  intros H.
  assert (IZR (Zfloor (x * 10 + / 2)) <= IZR (Zfloor (y * 10 + / 2))).
  { apply IZR_le, Zfloor_le. lra. }
  lra.
Qed.

Lemma tenths_nonneg (m : R) : 0 <= m -> 0 <= IZR (Zfloor (m * 10 + / 2)) / 10.
Proof.
  intros H.
  assert (0 <= IZR (Zfloor (m * 10 + / 2))).
  { apply IZR_le. apply Zfloor_lub. simpl. lra. }
  lra.
Qed.

Lemma toFixed1_bounds (x : R) : x - 0.05 <= toFixed1 x <= x + 0.05.
Proof.
  unfold toFixed1. destruct (Rlt_dec x 0).
  - pose proof (tenths_near (- x)). lra.
  - pose proof (tenths_near x). lra.
Qed.

Lemma toFixed1_near (x : R) : Rabs (toFixed1 x - x) <= 0.05.
Proof. pose proof (toFixed1_bounds x). apply Rabs_le. lra. Qed.

Lemma toFixed1_monotone (x y : R) : x <= y -> toFixed1 x <= toFixed1 y.
Proof.
  intros H. unfold toFixed1.
  destruct (Rlt_dec x 0), (Rlt_dec y 0).
  - pose proof (tenths_monotone (- y) (- x)). lra.
  - pose proof (tenths_nonneg (- x)). pose proof (tenths_nonneg y). lra.
  - lra.
  - now apply tenths_monotone.
Qed.

Lemma descending_unique (l1 l2 : list R) :
  descending l1 -> descending l2 -> Permutation l1 l2 -> l1 = l2.
Proof.
  revert l2. induction l1 as [| a l1 IH]; intros l2 H1 H2 Hp.
  - apply Permutation_nil in Hp. now subst.
  - destruct l2 as [| b l2];
      [apply Permutation_sym, Permutation_nil in Hp; discriminate |].
    assert (a = b).
    { apply Rle_antisym.
      - apply (descending_head_max b l2 H2).
        eapply Permutation_in; [exact Hp | now left].
      - apply (descending_head_max a l1 H1).
        eapply Permutation_in; [symmetry; exact Hp | now left]. }
    subst b. f_equal. apply IH.
    + unfold descending in *. now inversion H1.
    + unfold descending in *. now inversion H2.
    + now apply Permutation_cons_inv with a.
Qed.

Lemma descending_map (f : R -> R) (l : list R) :
  (forall x y, x <= y -> f x <= f y) -> descending l -> descending (map f l).
Proof.
  intros Hf. unfold descending. induction 1 as [| a l Hs IH Hhd]; simpl.
  - constructor.
  - constructor; [exact IH |].
    destruct Hhd; simpl; constructor. now apply Hf.
Qed.

Lemma sort_desc_map_monotone (f : R -> R) (l : list R) :
  (forall x y, x <= y -> f x <= f y) ->
  sort_desc (map f l) = map f (sort_desc l).
Proof.
  intros Hf. apply descending_unique.
  - apply sort_desc_sorted.
  - apply descending_map; [exact Hf | apply sort_desc_sorted].
  - rewrite <- sort_desc_perm. apply Permutation_map, sort_desc_perm.
Qed.

Lemma distanceTo_sym (a b : Vector3) : distanceTo a b = distanceTo b a.
Proof.
  unfold distanceTo, v_length, v_sub. cbn [vx vy vz]. f_equal. ring.
Qed.

Lemma powers_unobstructed {Object3D : Type}
  (io : Vector3 -> Vector3 -> R -> list Object3D -> list Intersection)
  (p : Vector3) (meshes : list Object3D) (txs : list Tx) :
  (forall origin dir far, io origin dir far meshes = []) ->
  powers io p meshes txs
  = map (fun tx => powerDbm tx - fsplDb (distanceTo p (pos tx)) (freqMHz tx)) txs.
Proof.
  intros Hopen. unfold powers. generalize 0%nat.
  induction txs as [| t txs IH]; intros idx; [reflexivity |].
  cbn [probeAll map]. rewrite IH. f_equal.
  unfold probeTx. rewrite Hopen. cbn [fst].
  rewrite (distanceTo_sym p (pos t)). unfold distanceTo. lra.
Qed.

(** X27: with two or more transmitters on positive frequencies and
    nothing in the way, the margin of the explanation route is that of
    the probe up to the route's rounding to tenths: the two differ by at
    most 0.1 dB, and the route's margin is never negative. *)
Theorem route_margin_tracks_probe {Object3D : Type}
  (io : Vector3 -> Vector3 -> R -> list Object3D -> list Intersection)
  (p : Vector3) (txs : list Tx) (meshes : list Object3D) :
  (forall origin dir far, io origin dir far meshes = []) ->
  (2 <= List.length txs)%nat ->
  positiveFreq txs ->
  Forall2 (rowReceived p) txs (rows (probeAtWithRc io p txs meshes)) /\
  exists mr mp,
    POST_margin p txs = Some (Fin mr, Rgeb mr 3.0) /\
    margin (probeAtWithRc io p txs meshes) = Fin mp /\
    0 <= mr /\ Rabs (mr - mp) <= 0.1.
Proof.
  intros Hopen Hlen Hfreq.
  split; [now apply probe_rows_received |].
  pose proof (powers_unobstructed io p meshes txs Hopen) as Hpw.
  destruct (probeAtWithRc_fields io p meshes txs) as (_ & _ & _ & _ & Hm & _).
  cbv zeta in Hm.
  pose proof (sort_desc_length (powers io p meshes txs)) as Hl.
  rewrite powers_length in Hl.
  pose proof (sort_desc_sorted (powers io p meshes txs)) as Hs.
  destruct (sort_desc (powers io p meshes txs)) as [| s0 [| s1 rest]] eqn:Es;
    simpl in Hl; try lia.
  assert (Hroute : sort_by descCmp
            (map (fun tx => toFixed1 (powerDbm tx
                    - fsplDb (distanceTo p (pos tx)) (freqMHz tx))) txs)
          = toFixed1 s0 :: toFixed1 s1 :: map toFixed1 rest).
  { rewrite <- (map_map (fun tx => powerDbm tx
                   - fsplDb (distanceTo p (pos tx)) (freqMHz tx)) toFixed1).
    rewrite <- Hpw. fold (sort_desc (map toFixed1 (powers io p meshes txs))).
    rewrite (sort_desc_map_monotone toFixed1 _ toFixed1_monotone), Es.
    reflexivity. }
  exists (toFixed1 s0 - toFixed1 s1), (s0 - s1).
  assert (Hge : s1 <= s0).
  { apply (descending_head_max s0 (s1 :: rest) Hs). right; now left. }
  split; [| split; [exact Hm | split]].
  - unfold POST_margin. destruct txs as [| t0 txs0]; [simpl in Hlen; lia |].
    rewrite Hroute. reflexivity.
  - pose proof (toFixed1_monotone s1 s0 Hge). lra.
  - pose proof (toFixed1_bounds s0) as H0. pose proof (toFixed1_bounds s1) as H1.
    apply Rabs_le. lra.
Qed.

Lemma route_margin_tracks_probe_witness :
  exists mr mp,
    POST_margin origin3 [txEast 36; txWest 33] = Some (Fin mr, Rgeb mr 3.0) /\
    margin (probeAtWithRc openSky origin3 [txEast 36; txWest 33] [tt]) = Fin mp /\
    Rabs (mr - mp) <= 0.1.
Proof.
  destruct (route_margin_tracks_probe openSky origin3 [txEast 36; txWest 33] [tt])
    as (_ & mr & mp & H1 & H2 & _ & H3).
  - reflexivity.
  - simpl. lia.
  - apply positiveFreq_east_west.
  - exists mr, mp. auto.
Defined.

(** ** Keyboard navigation *)

Lemma clamp_range (x lo hi : R) : lo <= hi -> lo <= clamp x lo hi <= hi.
Proof.
  intros H. unfold clamp. split; [apply Rmax_l |].
  apply Rmax_lub; [exact H | apply Rmin_l].
Qed.

Lemma clamp_inside (x lo hi : R) : lo <= x <= hi -> clamp x lo hi = x.
Proof.
  intros H. unfold clamp. rewrite Rmin_right, Rmax_right by lra. reflexivity.
Qed.

Lemma normalize_nonzero_unit (a : Vector3) :
  lengthSq a <> 0 -> dot (normalize a) (normalize a) = 1.
Proof.
  unfold lengthSq. intros Hnz.
  pose proof (dot_self_nonneg a) as Hs.
  unfold normalize. fold (dot a a) in *.
  assert (Hl : v_length a = sqrt (dot a a)) by reflexivity.
  set (l := v_length a) in *.
  assert (Hsq : l * l = dot a a) by (rewrite Hl; now apply sqrt_sqrt).
  destruct (Req_dec_T l 0) as [E | NE]; [rewrite E in Hsq; lra |].
  assert (E1 : dot (multiplyScalar a (1 / l)) (multiplyScalar a (1 / l))
               = dot a a / (l * l)).
  { destruct a as [ax ay az]. unfold dot, multiplyScalar. simpl. now field. }
  rewrite E1, <- Hsq. field. exact NE.
Qed.

(** X28: a keyboard frame translates the camera and its orbit target by
    the same vector.  With no key down nothing moves; with city bounds
    whose minimum is not above their maximum both points end inside the
    bounds grown by the navigation margins; without bounds, for a frame
    of non-negative length, the move has length [speed * dt] at a speed
    of at least 150 units per second. *)
Theorem keyboard_frame_moves (st : Keys) (camPos target camDir camUp : Vector3)
  (dt : R) (b : Box3) :
  keyboardFrame noKeys camPos target camDir camUp dt (Some b) = None /\
  (vx (box_min b) <= vx (box_max b) ->
   vy (box_min b) <= vy (box_max b) ->
   vz (box_min b) <= vz (box_max b) ->
   forall cam' target',
     keyboardFrame st camPos target camDir camUp dt (Some b)
     = Some (cam', target') ->
     insideFlightBox b cam' /\ insideFlightBox b target') /\
  (0 <= dt ->
   forall cam' target',
     keyboardFrame st camPos target camDir camUp dt None = Some (cam', target') ->
     v_sub cam' camPos = v_sub target' target /\
     exists speed, 150 <= speed /\ distanceTo cam' camPos = speed * dt).
Proof.
  split; [| split].
  - unfold keyboardFrame, keyMove, noKeys. cbn [KeyW KeyA KeyS KeyD KeyQ KeyE
      Space ControlLeft ControlRight orb].
    unfold lengthSq, dot. cbn [vx vy vz].
    destruct (Req_dec_T (0 * 0 + 0 * 0 + 0 * 0) 0) as [_ | H];
      [reflexivity | exfalso; apply H; ring].
  - intros Hx Hy Hz cam' target' H. unfold keyboardFrame in H.
    destruct (Req_dec_T (lengthSq (keyMove st camDir camUp)) 0); [discriminate |].
    injection H as <- <-.
    unfold insideFlightBox, clampToBounds. cbn [vx vy vz].
    repeat split; apply clamp_range; lra.
  - intros Hdt cam' target' H. unfold keyboardFrame in H.
    destruct (Req_dec_T (lengthSq (keyMove st camDir camUp)) 0) as [| Hnz];
      [discriminate |].
    injection H as <- <-.
    set (speed := if ShiftLeft st || ShiftRight st
                  then Rmax 150 (100 + distanceTo camPos target * 0.1) * 3
                  else Rmax 150 (100 + distanceTo camPos target * 0.1)).
    set (mv := multiplyScalar (normalize (keyMove st camDir camUp)) (speed * dt)).
    split.
    + unfold v_sub, v_add. cbn [vx vy vz]. f_equal; ring.
    + assert (Hsp : 150 <= speed).
      { unfold speed.
        pose proof (Rmax_l 150 (100 + distanceTo camPos target * 0.1)).
        destruct (ShiftLeft st || ShiftRight st); lra. }
      exists speed. split; [exact Hsp |].
      assert (E : v_sub (v_add camPos mv) camPos = mv).
      { destruct mv. unfold v_sub, v_add. cbn [vx vy vz]. f_equal; ring. }
      unfold distanceTo. rewrite E. unfold mv.
      rewrite v_length_scaled by nra.
      rewrite (v_length_unit _ (normalize_nonzero_unit _ Hnz)). ring.
Qed.

Lemma keyboard_frame_moves_witness :
  exists cam' target',
    keyboardFrame (mkKeys true false false false false false false
                          false false false false)
                  (vec3 0 50 0) (vec3 0 0 (-100)) (vec3 0 0 (-1)) (vec3 0 1 0)
                  0.016 None = Some (cam', target') /\
    v_sub cam' (vec3 0 50 0) = v_sub target' (vec3 0 0 (-100)).
Proof.
  destruct (keyboardFrame (mkKeys true false false false false false false
                                  false false false false)
              (vec3 0 50 0) (vec3 0 0 (-100)) (vec3 0 0 (-1)) (vec3 0 1 0)
              0.016 None) as [[cam' target'] |] eqn:E.
  - exists cam', target'. split; [reflexivity |].
    destruct (keyboard_frame_moves
                (mkKeys true false false false false false false
                        false false false false)
                (vec3 0 50 0) (vec3 0 0 (-100)) (vec3 0 0 (-1)) (vec3 0 1 0)
                0.016 (mkBox3 origin3 origin3)) as (_ & _ & H).
    apply (H ltac:(lra) cam' target' E).
  - exfalso. unfold keyboardFrame in E.
    destruct (Req_dec_T _ 0) as [Hz | _]; [| discriminate].
    revert Hz. unfold keyMove. cbn [KeyW KeyA KeyS KeyD KeyQ KeyE Space
      ControlLeft ControlRight orb].
    unfold set_y, lengthSq at 2. cbn [vx vy vz].
    destruct (Req_dec_T (dot (vec3 0 0 (-1)) (vec3 0 0 (-1))) 0) as [H0 | _].
    + unfold dot in H0. cbn in H0. lra.
    + rewrite (normalize_unit (vec3 0 0 (-1)))
        by (unfold dot; cbn; ring).
      unfold lengthSq, v_add, dot. cbn [vx vy vz]. lra.
Defined.

(** ** Camera fly-in *)

Lemma easeInOut_range (t : R) : 0 <= t <= 1 -> 0 <= easeInOut t <= 1.
Proof.
  intros H. unfold easeInOut. destruct (Rlt_dec t 0.5); simpl; nra.
Qed.

Lemma easeInOut_monotone (s t : R) :
  0 <= s -> s <= t -> t <= 1 -> easeInOut s <= easeInOut t.
Proof.
  intros H0 Hst H1. unfold easeInOut.
  destruct (Rlt_dec s 0.5), (Rlt_dec t 0.5); simpl; nra.
Qed.

(** X29: the easing curve runs from 0 at 0 to 1 at 1, never decreases in
    between and is point-symmetric about (1/2, 1/2); so a fly-in frame
    keeps the camera on the straight line from its start to its target,
    and the frame in which the clock reaches 1 (four seconds of frames)
    puts the camera exactly on the target and ends the animation. *)
Theorem camera_fly_in (start target : Vector3) (tRef delta s t : R) :
  easeInOut 0 = 0 /\ easeInOut 1 = 1 /\
  easeInOut (1 - t) = 1 - easeInOut t /\
  (0 <= s -> s <= t -> t <= 1 -> easeInOut s <= easeInOut t) /\
  (0 <= tRef -> 0 <= delta ->
   let '(tRef', camPos, animating) := flyFrame start target tRef delta in
   tRef' = tRef + delta / 4 /\
   onSegment start target camPos /\
   (1 <= tRef' -> camPos = target /\ animating = false) /\
   (tRef' < 1 -> animating = true)).
Proof.
  split; [| split; [| split; [| split]]].
  - unfold easeInOut. destruct (Rlt_dec 0 0.5); lra.
  - unfold easeInOut. destruct (Rlt_dec 1 0.5); simpl; lra.
  - unfold easeInOut.
    destruct (Rlt_dec (1 - t) 0.5), (Rlt_dec t 0.5); simpl; try lra; nra.
  - apply easeInOut_monotone.
  - intros Ht Hd. unfold flyFrame.
    set (tRef' := tRef + delta / 4).
    assert (Hpos : 0 <= tRef') by (unfold tRef'; lra).
    split; [reflexivity |]. split; [| split].
    + exists (easeInOut (Rmin tRef' 1)). split; [| reflexivity].
      apply easeInOut_range. split.
      * apply Rmin_glb; lra.
      * apply Rmin_r.
    + intros H1. rewrite Rmin_right by lra. split.
      * assert (E : easeInOut 1 = 1)
          by (unfold easeInOut; destruct (Rlt_dec 1 0.5); simpl; lra).
        rewrite E. destruct start, target. unfold lerpVectors. cbn [vx vy vz].
        f_equal; ring.
      * assert (E : Rgeb 1 1 = true) by (apply Rgeb_true; lra).
        now rewrite E.
    + intros H1. rewrite Rmin_left by lra.
      assert (E : Rgeb tRef' 1 = false) by (apply Rgeb_false; lra).
      now rewrite E.
Qed.

Lemma camera_fly_in_witness :
  easeInOut 0.25 <= easeInOut 0.75 /\
  snd (fst (flyFrame (vec3 0 400 0) (vec3 90 60 90) 0.99 0.2)) = vec3 90 60 90.
Proof.
  destruct (camera_fly_in (vec3 0 400 0) (vec3 90 60 90) 0.99 0.2 0.25 0.75)
    as (_ & _ & _ & Hmono & Hfly).
  split; [apply Hmono; lra |].
  specialize (Hfly ltac:(lra) ltac:(lra)).
  destruct (flyFrame (vec3 0 400 0) (vec3 90 60 90) 0.99 0.2)
    as [[tRef' camPos] animating].
  destruct Hfly as (E & _ & H1 & _). cbn [fst snd].
  apply H1. lra.
Defined.

(** ** Drive-test overlay: what a handover event names *)

Lemma probe_bestIdx_bounds {Object3D : Type}
  (io : Vector3 -> Vector3 -> R -> list Object3D -> list Intersection)
  (p : Vector3) (txs : list Tx) (meshes : list Object3D) :
  txs <> [] ->
  (1 <= bestIdx (probeAt io p txs meshes) <= Z.of_nat (List.length txs))%Z.
Proof.
  intros Hne. unfold probeAt.
  destruct (powers_nonempty io p meshes txs Hne) as (v0 & vs & E).
  destruct (probeAtWithRc_fields io p meshes txs) as (_ & _ & -> & _).
  rewrite E. destruct (softmaxDbm_cons v0 vs 4) as [-> _]. cbn [snd].
  destruct (indexOf_from_first (v0 :: vs) (Math_max v0 vs) 0 (Math_max_in v0 vs))
    as (k & Hk & Hn & _).
  unfold indexOf. rewrite Hk.
  assert (Hkl : (k < List.length txs)%nat).
  { rewrite <- (powers_length io p meshes txs), E.
    apply nth_error_Some. congruence. }
  destruct (0 + Z.of_nat k >=? 0)%Z eqn:Eg; lia.
Qed.

Lemma changesAfter_length (prev : Z) (served : list (Vector3 * Z)) :
  (List.length (changesAfter prev served) <= List.length served)%nat.
Proof.
  revert prev. induction served as [| [q c] served IH]; intros prev.
  - simpl. lia.
  - cbn [changesAfter]. rewrite length_app. specialize (IH c).
    destruct (c =? prev)%Z; simpl; lia.
Qed.

(** X30: every handover event of the overlay names two different
    transmitters by valid 1-based indices and sits on a sample of the
    trace, and there are fewer events than samples. *)
Theorem handover_events_are_valid {Object3D : Type}
  (io : Vector3 -> Vector3 -> R -> list Object3D -> list Intersection)
  (points : list Vector3) (txs : list Tx) (meshes : list Object3D) :
  (2 <= List.length points)%nat -> txs <> [] -> meshes <> [] ->
  let o := PathRfOverlay io points txs meshes in
  (List.length (hMarkers o) < List.length (outPts o))%nat /\
  List.length (outCols o) = List.length (outPts o) /\
  forall h, In h (hMarkers o) ->
    h_from h <> h_to h /\
    (1 <= h_from h <= Z.of_nat (List.length txs))%Z /\
    (1 <= h_to h <= Z.of_nat (List.length txs))%Z /\
    In (h_pos h) (outPts o) /\
    h_to h = bestIdx (probeAt io (h_pos h) txs meshes).
Proof.
  intros Hp Ht Hm o.
  pose proof (PathRfOverlay_traced io txs meshes points Hp Ht Hm) as H.
  cbv zeta beta in H. fold o in H. destruct H as (Hpts & Hcols & Hmarks & _).
  set (sv := fun q : Vector3 => (q, bestIdx (probeAt io q txs meshes))) in *.
  assert (Hsamples : pathSamples points <> []).
  { destruct points as [| a [| b rest]]; try (simpl in Hp; lia).
    cbn [pathSamples]. pose proof (sampleCount_at_least_2 a b) as Hc.
    destruct (Z.to_nat (sampleCount a b)) as [| n] eqn:En; [lia |].
    simpl. discriminate. }
  split; [| split].
  - rewrite Hmarks, Hpts.
    destruct (pathSamples points) as [| q0 rest]; [congruence |].
    cbn [map handoverEvents]. unfold sv at 1.
    pose proof (changesAfter_length (bestIdx (probeAt io q0 txs meshes))
                  (map sv rest)) as Hl.
    rewrite length_map in Hl. simpl. lia.
  - rewrite Hcols, Hpts. apply length_map.
  - intros h Hh. rewrite Hmarks in Hh.
    apply handoverEvents_iff in Hh as (j & Hj & Hj' & Hne).
    rewrite nth_error_map in Hj.
    destruct (nth_error (map sv (pathSamples points)) j) as [[q b] |] eqn:Eq;
      [| discriminate].
    cbn in Hj. injection Hj as Hfrom.
    rewrite nth_error_map in Eq, Hj'.
    destruct (nth_error (pathSamples points) j) as [qj |] eqn:Ej; [| discriminate].
    destruct (nth_error (pathSamples points) (S j)) as [qj' |] eqn:Ej';
      [| discriminate].
    cbn in Eq, Hj'. unfold sv in Eq, Hj'.
    injection Eq as Hq Hb. injection Hj' as Hpos Hto.
    assert (Hfrom' : h_from h = bestIdx (probeAt io qj txs meshes)) by congruence.
    split; [congruence |].
    split; [rewrite Hfrom'; apply probe_bestIdx_bounds, Ht |].
    split; [rewrite <- Hto; apply probe_bestIdx_bounds, Ht |].
    split; [rewrite Hpts, <- Hpos; eapply nth_error_In; eauto |].
    now rewrite <- Hto, <- Hpos.
Qed.

Lemma handover_events_are_valid_witness :
  (List.length (hMarkers (PathRfOverlay openSky [vec3 0 0 0; vec3 12 0 0]
                            [txEast 36; txWest 36] [tt]))
   < List.length (outPts (PathRfOverlay openSky [vec3 0 0 0; vec3 12 0 0]
                            [txEast 36; txWest 36] [tt])))%nat.
Proof.
  apply (handover_events_are_valid openSky [vec3 0 0 0; vec3 12 0 0]
           [txEast 36; txWest 36] [tt]).
  - simpl. lia.
  - discriminate.
  - discriminate.
Defined.
